(** * unfort: the record-store jobs and the directed dependency graph

    A shallow embedding of [src/jobs.js] (the job set handed to the record
    store) and of [src/directed-dependency-graph/graph.js], followed by the
    properties of both that the specification states. *)

From Stdlib Require Import String Ascii ZArith Lia.
From stdpp Require Import base option list gmap strings.

Local Open Scope Z_scope.
Local Open Scope nat_scope.

#[local] Set Warnings "-clear-no-such-hyp".

(* ===================================================================== *)
(** * Part I: definitions *)
(* ===================================================================== *)

(** ** JavaScript strings and arrays *)

Module JS.

(** [String.prototype.indexOf]: the position of the first occurrence of
    [target] in [s], or [-1]. *)
Definition indexOf (target s : string) : Z :=
  match String.index 0 target s with
  | Some n => Z.of_nat n
  | None => (-1)%Z
  end.

(** [s.slice(0, stop)] for a [stop] between [0] and the length. *)
Definition slice0 (stop : Z) (s : string) : string :=
  String.substring 0 (Z.to_nat stop) s.

(** lodash [startsWith(s, target)]. *)
Definition startsWith (s target : string) : bool := String.prefix target s.

(** The characters of a string, each as a string of length one. *)
Fixpoint chars (s : string) : list string :=
  match s with
  | EmptyString => []
  | String c s' => String c EmptyString :: chars s'
  end.

(** Splitting at every occurrence of a non-empty separator: [cur] holds the
    piece being read (reversed), [skip] the characters of a separator that
    was just matched and remain to be dropped. *)
Fixpoint split_at (separator : string) (skip : nat) (cur : list ascii) (s : string)
  : list string :=
  match s with
  | EmptyString => [string_of_list_ascii (rev cur)]
  | String c s' =>
      match skip with
      | S k => split_at separator k cur s'
      | O =>
          if String.prefix separator s
          then string_of_list_ascii (rev cur)
                 :: split_at separator (String.length separator - 1) [] s'
          else split_at separator 0 (c :: cur) s'
      end
  end.

(** [String.prototype.split(separator)]. An [undefined] separator ([None])
    gives the one-element array holding the whole string; the empty
    separator gives the characters. *)
Definition split (s : string) (separator : option string) : list string :=
  match separator with
  | None => [s]
  | Some EmptyString => chars s
  | Some sep => split_at sep 0 [] s
  end.

(** [Array.prototype.join(glue)] on an array of strings. *)
Fixpoint join (glue : string) (parts : list string) : string :=
  match parts with
  | [] => EmptyString
  | [p] => p
  | p :: rest => p +:+ glue +:+ join glue rest
  end.

End JS.

(** ** The jobs of the record store ([jobs.js]) *)

Module Jobs.

(** A file reference: [ref.name] is the absolute path. *)
Record Ref := { name : string }.

(** What [getState()] returns. *)
Record State := {
  sourceRoot : string;
  rootUrl : string;
  rootNodeModules : string;
  vendorRoot : string;
  bootstrapRuntime : string;
  hotRuntime : string
}.

(** A JavaScript object used as a map from identifiers to paths. *)
Abbreviation Obj := (gmap string string).

(** One entry of [analyzeDependencies]: an object with a [source]. *)
Record Dependency := { source : string }.

(** The per-record cache map: the object [readCache] resolves to. An absent
    key is [None]. *)
Record CacheData := {
  cd_dependencyIdentifiers : option (list string);
  cd_resolvePathDependencies : option Obj;
  cd_resolvePackageDependencies : option Obj;
  cd_code : option string;
  cd_sourceMap : option string
}.

Definition emptyCache : CacheData :=
  {| cd_dependencyIdentifiers := None; cd_resolvePathDependencies := None;
     cd_resolvePackageDependencies := None; cd_code := None;
     cd_sourceMap := None |}.

Definition set_dependencyIdentifiers (ids : list string) (c : CacheData) :=
  {| cd_dependencyIdentifiers := Some ids;
     cd_resolvePathDependencies := cd_resolvePathDependencies c;
     cd_resolvePackageDependencies := cd_resolvePackageDependencies c;
     cd_code := cd_code c; cd_sourceMap := cd_sourceMap c |}.

Definition set_resolvePathDependencies (deps : Obj) (c : CacheData) :=
  {| cd_dependencyIdentifiers := cd_dependencyIdentifiers c;
     cd_resolvePathDependencies := Some deps;
     cd_resolvePackageDependencies := cd_resolvePackageDependencies c;
     cd_code := cd_code c; cd_sourceMap := cd_sourceMap c |}.

Definition set_resolvePackageDependencies (deps : Obj) (c : CacheData) :=
  {| cd_dependencyIdentifiers := cd_dependencyIdentifiers c;
     cd_resolvePathDependencies := cd_resolvePathDependencies c;
     cd_resolvePackageDependencies := Some deps;
     cd_code := cd_code c; cd_sourceMap := cd_sourceMap c |}.

Definition set_code (code : string) (c : CacheData) :=
  {| cd_dependencyIdentifiers := cd_dependencyIdentifiers c;
     cd_resolvePathDependencies := cd_resolvePathDependencies c;
     cd_resolvePackageDependencies := cd_resolvePackageDependencies c;
     cd_code := Some code; cd_sourceMap := cd_sourceMap c |}.

(** *** Promises

    A settled promise is resolved with a value or rejected with a reason.
    A job runs against the cache map of its record, which it may read and
    assign to: the object is shared by every job of the record, so it is
    the state that the jobs thread. *)
Inductive Outcome (A : Type) : Type :=
| Resolved (a : A)
| Rejected (reason : string).
Arguments Resolved {A} a.
Arguments Rejected {A} reason.

Definition Job (A : Type) : Type := CacheData -> Outcome A * CacheData.

Definition resolve {A} (a : A) : Job A := fun c => (Resolved a, c).
Definition reject {A} (reason : string) : Job A := fun c => (Rejected reason, c).

(** [p.then(k)] *)
Definition andThen {A B} (p : Job A) (k : A -> Job B) : Job B :=
  fun c =>
    match p c with
    | (Resolved a, c') => k a c'
    | (Rejected e, c') => (Rejected e, c')
    end.

(** [Promise.all([p, q])]: both jobs are started, in the order of the
    array, and the result rejects when one of them does, with its reason.
    When both reject, the source reports the rejection that comes first in
    time; jobs carry no time here and the rejection of [p] is reported.
    Every property below that runs through [all2] has at most one of the
    two jobs rejecting. *)
Definition all2 {A B} (p : Job A) (q : Job B) : Job (A * B) :=
  fun c =>
    let '(ra, c1) := p c in
    let '(rb, c2) := q c1 in
    (match ra, rb with
     | Resolved a, Resolved b => Resolved (a, b)
     | Rejected e, _ => Rejected e
     | _, Rejected e => Rejected e
     end, c2).

(** [Promise.all(promises)] for promises that settle without touching the
    cache map, each given as the way it settles and the moment at which it
    does. [Promise.all] rejects as soon as one of the promises is rejected:
    with the reason of the promise that is rejected first in time, wherever
    it stands in the array. Promises rejected at the same moment are told
    apart by their place in the array, the order in which [Promise.all]
    subscribed to them. *)
Fixpoint firstRejection {A} (promises : list (Outcome A * nat))
  : option (string * nat) :=
  match promises with
  | [] => None
  | (Resolved _, _) :: rest => firstRejection rest
  | (Rejected e, t) :: rest =>
      match firstRejection rest with
      | Some (e', t') => if (t' <? t)%nat then Some (e', t') else Some (e, t)
      | None => Some (e, t)
      end
  end.

(** The values of the resolved promises, in the order of the array. *)
Fixpoint values {A} (promises : list (Outcome A * nat)) : list A :=
  match promises with
  | [] => []
  | (Resolved a, _) :: rest => a :: values rest
  | (Rejected _, _) :: rest => values rest
  end.

Definition allOf {A} (promises : list (Outcome A * nat)) : Outcome (list A) :=
  match firstRejection promises with
  | Some (e, _) => Rejected e
  | None => Resolved (values promises)
  end.

(** The function that [store.resolver(ref)] resolves to. A call
    [resolver(id)] returns a promise: [outcomeOf] is the way it settles and
    [settledAt] the moment at which it does. *)
Record Resolver := {
  outcomeOf :> string -> Outcome string;
  settledAt : string -> nat
}.

(** [resolver(id)] *)
Definition promiseOf (resolver : Resolver) (id : string) : Outcome string * nat :=
  (resolver id, settledAt resolver id).

Definition settle {A} (r : Outcome A) : Job A := fun c => (r, c).

(** Reading a key of the cache map, and assigning to one. *)
Definition cached {A} (key : CacheData -> A) : Job A := fun c => (Resolved (key c), c).
Definition assignCache (upd : CacheData -> CacheData) : Job unit :=
  fun c => (Resolved tt, upd c).

Declare Scope job_scope.
Delimit Scope job_scope with job.
Notation "x <- p ;; k" := (andThen p (fun x => k))
  (at level 100, p at next level, right associativity) : job_scope.
Notation "p ;;; k" := (andThen p (fun _ => k))
  (at level 100, right associativity) : job_scope.
Local Open Scope job_scope.

(** *** lodash helpers *)

(** [zipObject(props, values)]: keys are assigned left to right, so a
    repeated key keeps its last value. *)
Definition zipObject (props values : list string) : Obj :=
  foldl (fun (o : Obj) kv => <[kv.1 := kv.2]> o) ∅ (zip props values).

(** [assign(target, s1, s2)]: every own key of [s1], then of [s2], is
    assigned onto [target]. *)
Definition assignFrom (target source : Obj) : Obj :=
  map_fold (fun k v (o : Obj) => <[k := v]> o) target source.

Definition assign (target : Obj) (sources : list Obj) : Obj :=
  foldl assignFrom target sources.

(** Node has no [path.ext]: reading the property gives [undefined]. *)
Definition path_ext : option string := None.

(** What the transforms hand back, as far as the jobs read it. *)
Record PostcssResult := {
  css : string;
  unfortDependencies : list Dependency
}.
Record BabelFile := { babel_code : string }.

(** *** The store

    Every job receives the store and reaches the other jobs through it;
    the record store may be given other implementations of any job.
    [readCache] resolves once the cache map of the record is at hand; what
    the map holds is the state the job then runs against. *)
Module store.
Record t := {
  ext : Ref -> Job string;
  isTextFile : Ref -> Job bool;
  readText : Ref -> Job string;
  hashedName : Ref -> Job string;
  readCache : Ref -> Job unit;
  postcssTransform : Ref -> Job PostcssResult;
  babelFile : Ref -> Job BabelFile;
  analyzeDependencies : Ref -> Job (list Dependency);
  dependencyIdentifiers : Ref -> Job (list string);
  pathDependencyIdentifiers : Ref -> Job (list string);
  packageDependencyIdentifiers : Ref -> Job (list string);
  resolver : Ref -> Job Resolver;
  shouldCacheResolvedPathDependencies : Ref -> Job bool;
  shouldCacheResolvedPackageDependencies : Ref -> Job bool;
  resolvePathDependencies : Ref -> Job Obj;
  resolvePackageDependencies : Ref -> Job Obj;
  code : Ref -> Job (option string);
  moduleDefinition : Ref -> Job (option string)
}.
End store.

Section WithState.

(** [getState()] and the two functions of Node's [path] module that the
    jobs below call. *)
Variable getState : State.
Variable path_relative : string -> string -> string.
Variable path_isAbsolute : string -> bool.

Definition isTextFile (ref : Ref) (st : store.t) : Job bool :=
  ext <- store.ext st ref ;;
  resolve (bool_decide (ext = ".js") || bool_decide (ext = ".css")
           || bool_decide (ext = ".json")).

Definition url (ref : Ref) (st : store.t) : Job string :=
  name <- (isTextFile <- store.isTextFile st ref ;;
           if isTextFile : bool then store.hashedName st ref
           else resolve (name ref)) ;;
  let relPath :=
    if JS.startsWith name (sourceRoot getState)
    then path_relative (sourceRoot getState) name
    else name in
  resolve (rootUrl getState +:+ JS.join "/" (JS.split relPath path_ext)).

(** The cleaning step of [dependencyIdentifiers]. *)
Definition cleanIdentifier (id : string) : string :=
  let bangStart := JS.indexOf "!" id in
  let id := if bool_decide (bangStart ≠ (-1)%Z) then JS.slice0 bangStart id else id in
  let paramStart := JS.indexOf "?" id in
  let id := if bool_decide (paramStart ≠ (-1)%Z) then JS.slice0 paramStart id else id in
  let hashStart := JS.indexOf "#" id in
  let id := if bool_decide (hashStart ≠ (-1)%Z) then JS.slice0 hashStart id else id in
  id.

Definition dependencyIdentifiers (ref : Ref) (st : store.t) : Job (list string) :=
  store.readCache st ref ;;;
  hit <- cached cd_dependencyIdentifiers ;;
  match hit with
  | Some ids => resolve ids
  | None =>
      deps <- store.analyzeDependencies st ref ;;
      let ids := map source deps in
      let ids := map cleanIdentifier ids in
      assignCache (set_dependencyIdentifiers ids) ;;;
      resolve ids
  end.

(** [id[0] === '.'] *)
Definition startsWithDot (id : string) : bool :=
  match id with
  | String c _ => bool_decide (c = "."%char)
  | EmptyString => false
  end.

Definition pathDependencyIdentifiers (ref : Ref) (st : store.t) : Job (list string) :=
  ids <- store.dependencyIdentifiers st ref ;;
  resolve (List.filter (fun id => startsWithDot id || path_isAbsolute id) ids).

Definition packageDependencyIdentifiers (ref : Ref) (st : store.t) : Job (list string) :=
  ids <- store.dependencyIdentifiers st ref ;;
  resolve (List.filter (fun id => negb (startsWithDot id) && negb (path_isAbsolute id)) ids).

Definition shouldCacheResolvedPathDependencies (ref : Ref) : Job bool :=
  resolve (JS.startsWith (name ref) (rootNodeModules getState)).

Definition shouldCacheResolvedPackageDependencies (ref : Ref) : Job bool :=
  resolve true.

(** The part shared by the two resolving jobs: run every identifier
    through the resolver and zip the results. *)
Definition resolveAll (ref : Ref) (st : store.t) (ids : list string) : Job Obj :=
  resolver <- store.resolver st ref ;;
  resolved <- settle (allOf (map (promiseOf resolver) ids)) ;;
  resolve (zipObject ids resolved).

Definition resolvePathDependencies (ref : Ref) (st : store.t) : Job Obj :=
  both <- all2 (store.readCache st ref)
               (store.shouldCacheResolvedPathDependencies st ref) ;;
  let shouldCache := both.2 in
  hit <- cached cd_resolvePathDependencies ;;
  match shouldCache, hit with
  | true, Some deps => resolve deps
  | _, _ =>
      deps <- (ids <- store.pathDependencyIdentifiers st ref ;;
               resolveAll ref st ids) ;;
      assignCache (set_resolvePathDependencies deps) ;;;
      resolve deps
  end.

Definition resolvePackageDependencies (ref : Ref) (st : store.t) : Job Obj :=
  both <- all2 (store.readCache st ref)
               (store.shouldCacheResolvedPackageDependencies st ref) ;;
  let shouldCache := both.2 in
  hit <- cached cd_resolvePackageDependencies ;;
  match shouldCache, hit with
  | true, Some deps => resolve deps
  | _, _ =>
      deps <- (ids <- store.packageDependencyIdentifiers st ref ;;
               resolveAll ref st ids) ;;
      assignCache (set_resolvePackageDependencies deps) ;;;
      resolve deps
  end.

(** The callback names its two arguments the other way round: the first,
    [pathDeps], receives the result of [resolvePackageDependencies]. *)
Definition resolvedDependencies (ref : Ref) (st : store.t) : Job Obj :=
  both <- all2 (store.resolvePackageDependencies st ref)
               (store.resolvePathDependencies st ref) ;;
  let '(pathDeps, packageDeps) := both in
  resolve (assign ∅ [pathDeps; packageDeps]).

(** A cached [code] counts when it is truthy: present and not empty. *)
Definition truthy (v : option string) : bool :=
  match v with
  | Some (String _ _) => true
  | _ => false
  end.

Definition code (ref : Ref) (st : store.t) : Job (option string) :=
  isTextFile <- store.isTextFile st ref ;;
  if negb isTextFile then resolve None
  else
    both <- all2 (store.ext st ref) (store.readCache st ref) ;;
    let ext := both.1 in
    hit <- cached cd_code ;;
    if truthy hit then resolve hit
    else if bool_decide (ext = ".css") then
      result <- store.postcssTransform st ref ;;
      assignCache (set_code (css result)) ;;;
      resolve (Some (css result))
    else if bool_decide (ext = ".js") then
      if bool_decide (name ref = bootstrapRuntime getState)
         || bool_decide (name ref = hotRuntime getState)
      then text <- store.readText st ref ;; resolve (Some text)
      else
        file <- store.babelFile st ref ;;
        assignCache (set_code (babel_code file)) ;;;
        resolve (Some (babel_code file))
    else if bool_decide (ext = ".json") then
      text <- store.readText st ref ;; resolve (Some text)
    else
      reject ("Unknown text file extension: " +:+ ext
              +:+ ". Cannot generate code for file: " +:+ name ref).

Definition content (ref : Ref) (st : store.t) : Job (option string) :=
  both <- all2 (store.isTextFile st ref) (store.ext st ref) ;;
  let '(isTextFile, ext) := both in
  if negb isTextFile then resolve None
  else if bool_decide (name ref = bootstrapRuntime getState)
          || bool_decide (ext = ".css")
  then store.code st ref
  else if bool_decide (ext = ".js") || bool_decide (ext = ".json")
  then store.moduleDefinition st ref
  else
    reject ("Unknown text file extension: " +:+ ext
            +:+ ". Cannot generate content for file: " +:+ name ref).

End WithState.

(** *** The specification's wording, for comparison *)

Definition isMarker (c : ascii) : bool :=
  bool_decide (c = "!"%char) || bool_decide (c = "?"%char)
  || bool_decide (c = "#"%char).

(** The specification's wording of the cleaning step: the identifier
    without everything from the first ['!'], ['?'] or ['#'] onward. *)
Fixpoint stripFromFirstMarker (id : string) : string :=
  match id with
  | EmptyString => EmptyString
  | String c rest =>
      if isMarker c then EmptyString else String c (stripFromFirstMarker rest)
  end.

(** The identifier up to the first occurrence of one character. *)
Fixpoint upTo (c : ascii) (id : string) : string :=
  match id with
  | EmptyString => EmptyString
  | String b rest => if bool_decide (b = c) then EmptyString else String b (upTo c rest)
  end.

(** The claim as the specification words it: for a file outside the root
    [node_modules], running [resolvePathDependencies] leaves the
    [resolvePathDependencies] key of the cache map as it was. *)
Definition cache_key_written_only_if_cacheable : Prop :=
  ∀ (getState : State) (ref : Ref) (st : store.t) (c : CacheData),
    store.shouldCacheResolvedPathDependencies st ref
      = shouldCacheResolvedPathDependencies getState ref →
    JS.startsWith (name ref) (rootNodeModules getState) = false →
    cd_resolvePathDependencies (resolvePathDependencies ref st c).2
    = cd_resolvePathDependencies c.

(** A store that runs the dependency jobs of a record as [createJobs]
    defines them, none of them overridden: each of these jobs is reached
    through the store and is the job above, given the store itself. *)
Definition usesDefaultJobs (getState : State) (path_isAbsolute : string → bool)
    (st : store.t) (ref : Ref) : Prop :=
  ∀ c : CacheData,
    store.dependencyIdentifiers st ref c = dependencyIdentifiers ref st c
    ∧ store.pathDependencyIdentifiers st ref c
      = pathDependencyIdentifiers path_isAbsolute ref st c
    ∧ store.packageDependencyIdentifiers st ref c
      = packageDependencyIdentifiers path_isAbsolute ref st c
    ∧ store.shouldCacheResolvedPathDependencies st ref c
      = shouldCacheResolvedPathDependencies getState ref c
    ∧ store.shouldCacheResolvedPackageDependencies st ref c
      = shouldCacheResolvedPackageDependencies ref c
    ∧ store.resolvePathDependencies st ref c = resolvePathDependencies ref st c
    ∧ store.resolvePackageDependencies st ref c
      = resolvePackageDependencies ref st c.

End Jobs.

(** ** The directed dependency graph ([directed-dependency-graph/graph.js]) *)

Module Graph.

(** A graph node: the ids it depends on and the ids depending on it. *)
Record Node := {
  dependencies : gset string;
  dependents : gset string
}.

Abbreviation Nodes := (gmap string Node).

(** *** The helpers imported from [./utils] *)

(** Modelled from the spec: [addNode] of [./utils], which is not part of the
    sources at hand. A node starts with no dependencies and no dependents. *)
Definition addNode (nodes : Nodes) (name : string) : Nodes :=
  <[name := {| dependencies := ∅; dependents := ∅ |}]> nodes.

(** Modelled from the spec: [addEdge] of [./utils]. For the edge
    [head → tail], [tail] joins the dependencies of [head] and [head] the
    dependents of [tail]. *)
Definition addEdge (nodes : Nodes) (head tail : string) : Nodes :=
  alter (fun n => {| dependencies := dependencies n;
                     dependents := {[head]} ∪ dependents n |}) tail
    (alter (fun n => {| dependencies := {[tail]} ∪ dependencies n;
                        dependents := dependents n |}) head nodes).

(** Modelled from the spec: [removeNode] of [./utils], together with the
    [removeEdge] calls that detach the node: the node leaves the map and
    the edge sets of the others. *)
Definition removeNode (nodes : Nodes) (name : string) : Nodes :=
  (fun n => {| dependencies := dependencies n ∖ {[name]};
               dependents := dependents n ∖ {[name]} |}) <$> delete name nodes.

(** Modelled from the spec: the traversal inside [pruneFromNode], in three
    parts. First, the defined nodes that [name] points to. *)
Definition successorsOf (nodes : Nodes) (name : string) : gset string :=
  match nodes !! name with
  | Some n => dependencies n ∩ dom nodes
  | None => ∅
  end.

(** Modelled from the spec: one round of the traversal, the set and
    everything one forward edge away from it. *)
Definition expand (nodes : Nodes) (seen : gset string) : gset string :=
  seen ∪ set_bind (successorsOf nodes) seen.

(** Modelled from the spec: the fixed point of the traversal, the nodes
    reachable from [seeds] over forward edges. [expand] is iterated until
    nothing can be added, which takes at most one round per node. *)
Definition reachableFrom (nodes : Nodes) (seeds : gset string) : gset string :=
  Nat.iter (size nodes) (expand nodes) (seeds ∩ dom nodes).

(** Modelled from the spec: [pruneFromNode] of [./utils], which is not part
    of the sources at hand. Section 4.4: starting from the node, remove it
    and any successor that, after removal, is not reachable from any
    remaining permanent root; [ignore] receives the permanent roots. The
    result is the new node map and the list of the removed nodes, the start
    node first. The scenario of section 8 (a cycle below the pruned node)
    is [prune_scenario] below. *)
Definition pruneFromNode (nodes : Nodes) (name : string) (ignore : list string)
  : Nodes * list string :=
  let live := reachableFrom (removeNode nodes name) (list_to_set ignore) in
  let successors := reachableFrom nodes {[name]} in
  let prunedNodes := name :: elements (successors ∖ {[name]} ∖ live) in
  (foldl removeNode nodes prunedNodes, prunedNodes).

(** *** Jobs, events and the state of a graph *)

(** A pending job. [jid] stands for the identity of the job object:
    [pull] and the closures of [traceNode] tell jobs apart by reference. *)
Record Job := {
  jid : nat;
  node : string;
  isValid : bool
}.

Inductive Event :=
| Complete
| Added (node : string)
| Pruned (node : string)
| Error (err : string) (node : string).

Global Instance Event_eq_dec : EqDecision Event.
Proof. solve_decision. Defined.

(** The callbacks handed to [process.nextTick]. *)
Inductive Task :=
| StartTracingNode (job : nat)
| CheckComplete.

(** The state closed over by [createGraph], with the queue of next-tick
    callbacks and the jobs whose [getDependencies] call has not called back
    yet. *)
Record Graph := {
  nodes : Nodes;
  permanentNodes : list string;
  pendingJobs : list Job;
  nextTicks : list Task;
  awaiting : list nat;
  jobCount : nat
}.

Definition createGraph : Graph :=
  {| nodes := ∅; permanentNodes := []; pendingJobs := [];
     nextTicks := []; awaiting := []; jobCount := 0 |}.

Definition with_nodes (g : Graph) (ns : Nodes) : Graph :=
  {| nodes := ns; permanentNodes := permanentNodes g;
     pendingJobs := pendingJobs g; nextTicks := nextTicks g;
     awaiting := awaiting g; jobCount := jobCount g |}.

Definition with_permanentNodes (g : Graph) (ps : list string) : Graph :=
  {| nodes := nodes g; permanentNodes := ps;
     pendingJobs := pendingJobs g; nextTicks := nextTicks g;
     awaiting := awaiting g; jobCount := jobCount g |}.

Definition with_pendingJobs (g : Graph) (js : list Job) : Graph :=
  {| nodes := nodes g; permanentNodes := permanentNodes g;
     pendingJobs := js; nextTicks := nextTicks g;
     awaiting := awaiting g; jobCount := jobCount g |}.

Definition with_nextTicks (g : Graph) (ts : list Task) : Graph :=
  {| nodes := nodes g; permanentNodes := permanentNodes g;
     pendingJobs := pendingJobs g; nextTicks := ts;
     awaiting := awaiting g; jobCount := jobCount g |}.

Definition with_awaiting (g : Graph) (js : list nat) : Graph :=
  {| nodes := nodes g; permanentNodes := permanentNodes g;
     pendingJobs := pendingJobs g; nextTicks := nextTicks g;
     awaiting := js; jobCount := jobCount g |}.

(** *** The exported predicates *)

Definition ensureNodeIsPermanent (permanentNodes : list string) (node : string)
  : list string :=
  if bool_decide (node ∈ permanentNodes) then permanentNodes
  else permanentNodes ++ [node].

Definition isNodeDefined (nodes : Nodes) (node : string) : bool :=
  bool_decide (is_Some (nodes !! node)).

Definition isNodePending (pendingJobs : list Job) (name : string) : bool :=
  existsb (fun job => isValid job && bool_decide (node job = name)) pendingJobs.

(** *** [traceNode] *)

(** [pull(pendingJobs, job)] *)
Definition pull (pendingJobs : list Job) (job : nat) : list Job :=
  List.filter (fun j => negb (bool_decide (jid j = job))) pendingJobs.

Definition removeJob (g : Graph) (job : nat) : Graph :=
  with_pendingJobs g (pull (pendingJobs g) job).

Definition findJob (pendingJobs : list Job) (job : nat) : option Job :=
  List.find (fun j => bool_decide (jid j = job)) pendingJobs.

(** The synchronous part of [traceNode]: a new valid job is pushed and
    [startTracingNode] is queued for the next tick. *)
Definition traceNode (g : Graph) (name : string) : Graph :=
  let job := {| jid := jobCount g; node := name; isValid := true |} in
  {| nodes := nodes g; permanentNodes := permanentNodes g;
     pendingJobs := pendingJobs g ++ [job];
     nextTicks := nextTicks g ++ [StartTracingNode (jid job)];
     awaiting := awaiting g; jobCount := S (jobCount g) |}.

(** [startTracingNode]: an invalid job is dropped, a valid one calls
    [getDependencies] and waits for the callback. *)
Definition startTracingNode (g : Graph) (job : nat) : Graph :=
  match findJob (pendingJobs g) job with
  | Some j =>
      if negb (isValid j) then removeJob g job
      else with_awaiting g (awaiting g ++ [job])
  | None => g
  end.

(** The body of [dependencies.forEach]. The accumulator carries the graph
    and [nodesAdded]. *)
Definition traceDependency (name : string) (acc : Graph * list string)
    (depNode : string) : Graph * list string :=
  let '(g, nodesAdded) := acc in
  let g :=
    if negb (isNodeDefined (nodes g) depNode)
       && negb (isNodePending (pendingJobs g) depNode)
    then traceNode g depNode else g in
  let '(g, nodesAdded) :=
    if negb (isNodeDefined (nodes g) depNode)
    then (with_nodes g (addNode (nodes g) depNode), nodesAdded ++ [depNode])
    else (g, nodesAdded) in
  (with_nodes g (addEdge (nodes g) name depNode), nodesAdded).

(** The callback given to [getDependencies], called with an error or with
    the dependencies. *)
Definition onDependencies (g : Graph) (job : nat) (result : string + list string)
  : Graph * list Event :=
  match findJob (pendingJobs g) job with
  | None => (g, [])
  | Some j =>
      let g := removeJob g job in
      match result with
      | inl err => (g, [Error err (node j)])
      | inr dependencies =>
          if negb (isValid j) then (g, [])
          else
            let '(g, nodesAdded) :=
              if negb (isNodeDefined (nodes g) (node j))
              then (with_nodes g (addNode (nodes g) (node j)), [node j])
              else (g, []) in
            let '(g, nodesAdded) :=
              foldl (traceDependency (node j)) (g, nodesAdded) dependencies in
            (with_nextTicks g (nextTicks g ++ [CheckComplete]),
             map Added nodesAdded)
      end
  end.

(** The callback queued at the end of a successful trace. *)
Definition checkComplete (g : Graph) : Graph * list Event :=
  match pendingJobs g with
  | [] => (g, [Complete])
  | _ :: _ => (g, [])
  end.

(** *** [pruneNode] and [setNodeAsPermanent] *)

Definition invalidate (name : string) (job : Job) : Job :=
  if bool_decide (node job = name)
  then {| jid := jid job; node := node job; isValid := false |}
  else job.

Definition prunePendingJobsAndEmit (acc : Graph * list Event) (name : string)
  : Graph * list Event :=
  (with_pendingJobs acc.1 (map (invalidate name) (pendingJobs acc.1)),
   acc.2 ++ [Pruned name]).

Definition pruneNode (g : Graph) (name : string) : Graph * list Event :=
  if isNodeDefined (nodes g) name then
    let '(nodes', prunedNodes) := pruneFromNode (nodes g) name (permanentNodes g) in
    foldl prunePendingJobsAndEmit (with_nodes g nodes', []) prunedNodes
  else if isNodePending (pendingJobs g) name then
    prunePendingJobsAndEmit (g, []) name
  else (g, []).

Definition setNodeAsPermanent (g : Graph) (name : string) : Graph :=
  with_permanentNodes g (ensureNodeIsPermanent (permanentNodes g) name).

(** *** Runs

    What can happen to a graph: a call of its interface, the next queued
    tick callback, or the callback of a [getDependencies] call that is
    still awaited. *)
Inductive Action :=
| TraceNode (node : string)
| PruneNode (node : string)
| SetNodeAsPermanent (node : string)
| Tick
| Callback (job : nat) (result : string + list string).

Definition runTask (g : Graph) (t : Task) : Graph * list Event :=
  match t with
  | StartTracingNode job => (startTracingNode g job, [])
  | CheckComplete => checkComplete g
  end.

Definition step (g : Graph) (a : Action) : Graph * list Event :=
  match a with
  | TraceNode name => (traceNode g name, [])
  | PruneNode name => pruneNode g name
  | SetNodeAsPermanent name => (setNodeAsPermanent g name, [])
  | Tick =>
      match nextTicks g with
      | [] => (g, [])
      | t :: rest => runTask (with_nextTicks g rest) t
      end
  | Callback job result =>
      if bool_decide (job ∈ awaiting g)
      then onDependencies
             (with_awaiting g (List.filter (fun j => negb (bool_decide (j = job)))
                                           (awaiting g)))
             job result
      else (g, [])
  end.

(** One entry of a run: the graph before, the action, the graph after and
    the events emitted. *)
Record Moment := {
  before : Graph;
  action : Action;
  after : Graph;
  emitted : list Event
}.

Fixpoint run (g : Graph) (actions : list Action) : list Moment :=
  match actions with
  | [] => []
  | a :: rest =>
      let '(g', evs) := step g a in
      {| before := g; action := a; after := g'; emitted := evs |} :: run g' rest
  end.

Definition final (g : Graph) (actions : list Action) : Graph :=
  foldl (fun g a => (step g a).1) g actions.

Definition events (ms : list Moment) : list Event :=
  concat (map emitted ms).

(** The number of [complete] events of a run. *)
Definition completes (ms : list Moment) : nat :=
  length (List.filter (fun e => bool_decide (e = Complete)) (events ms)).





(** The tick callbacks still queued that will check for completion. *)
Definition checks (g : Graph) : nat :=
  length (List.filter (fun t => match t with CheckComplete => true | _ => false end)
            (nextTicks g)).



(** Nothing is queued and no callback is awaited. *)
Definition settled (g : Graph) : bool :=
  bool_decide (nextTicks g = []) && bool_decide (awaiting g = []).

(** *** Notions used to state the properties *)

(** [prunePendingJobsAndEmit] over a list of nodes, on the jobs. *)
Definition invalidateAll (names : list string) (jobs : list Job) : list Job :=
  foldl (fun js name => map (invalidate name) js) jobs names.

Definition countComplete (evs : list Event) : nat :=
  length (List.filter (fun e => bool_decide (e = Complete)) evs).

(** The entry of a run for one step. *)
Definition moment (g : Graph) (a : Action) : Moment :=
  {| before := g; action := a; after := (step g a).1; emitted := (step g a).2 |}.






(** [a → b]: both are defined and [b] is a dependency of [a]. *)
Definition edge (ns : Nodes) (a b : string) : Prop := b ∈ successorsOf ns a.

(** [b] is reachable from the defined node [a]. *)
Definition reach (ns : Nodes) (a b : string) : Prop :=
  a ∈ dom ns ∧ rtc (edge ns) a b.

(** The claim as the specification words it: whatever the graph and the
    node pruned, every node that survives is reachable from a permanent
    root. *)
Definition prune_leaves_only_reachable : Prop :=
  ∀ (g : Graph) (x n : string),
    n ∈ dom (nodes (pruneNode g x).1) →
    ∃ p, p ∈ permanentNodes (pruneNode g x).1
         ∧ reach (nodes (pruneNode g x).1) p n.

(** The jobs whose [startTracingNode] is in a tick queue. *)
Fixpoint starts (ts : list Task) : list nat :=
  match ts with
  | [] => []
  | StartTracingNode job :: rest => job :: starts rest
  | CheckComplete :: rest => starts rest
  end.

(** A graph in good order: the pending jobs are distinct objects, created
    by this graph, and each of them is, exactly once, either queued to
    start or awaiting the callback of [getDependencies]; nothing else is
    queued or awaited. *)
Definition wellFormed (g : Graph) : Prop :=
  NoDup (map jid (pendingJobs g))
  ∧ (∀ k, k ∈ map jid (pendingJobs g) → k < jobCount g)
  ∧ map jid (pendingJobs g) ≡ₚ starts (nextTicks g) ++ awaiting g.

(** The first occurrences, in order, of the nodes of [names] that are not
    in [defined]. *)
Fixpoint freshNodes (defined : gset string) (names : list string) : list string :=
  match names with
  | [] => []
  | n :: rest =>
      if decide (n ∈ defined) then freshNodes defined rest
      else n :: freshNodes ({[n]} ∪ defined) rest
  end.

(** Valid jobs for the nodes [names], numbered from [count]. *)
Fixpoint newJobsFor (count : nat) (names : list string) : list Job :=
  match names with
  | [] => []
  | n :: rest =>
      {| jid := count; node := n; isValid := true |} :: newJobsFor (S count) rest
  end.

(** The nodes of the [added] events. *)
Definition addedNodes (evs : list Event) : list string :=
  omap (fun e => match e with Added n => Some n | _ => None end) evs.

Definition isPrune (a : Action) : bool :=
  match a with PruneNode _ => true | _ => false end.

(** The dependencies recorded for a node, defined or not. *)
Definition dependenciesOf (ns : Nodes) (name : string) : gset string :=
  match ns !! name with
  | Some n => dependencies n
  | None => ∅
  end.

(** A moment of an undisturbed trace, where [getDependencies] answers with
    the list [getDeps node] and never with an error: no node is pruned, and
    a callback for a pending job delivers the dependencies of the job's
    node. *)
Definition faithful (getDeps : string → list string) (m : Moment) : bool :=
  match action m with
  | PruneNode _ => false
  | Callback job result =>
      match findJob (pendingJobs (before m)) job with
      | Some j => bool_decide (result = inr (getDeps (node j)))
      | None => true
      end
  | _ => true
  end.

(** The nodes on which [traceNode] was called from outside. *)
Definition roots (actions : list Action) : list string :=
  omap (fun a => match a with TraceNode n => Some n | _ => None end) actions.

(** What holds of a graph in the course of an undisturbed trace of the nodes
    [rs]: the pending jobs are valid and trace a root or a defined node;
    every root is defined or being traced; a defined node is being traced
    or has all its dependencies recorded and defined; only dependencies
    are recorded; and every defined node is reachable from a root. *)
Definition tracing (getDeps : string → list string) (rs : list string) (g : Graph)
  : Prop :=
  (∀ j, j ∈ pendingJobs g →
        isValid j = true ∧ (node j ∈ rs ∨ node j ∈ dom (nodes g)))
  ∧ (∀ r, r ∈ rs → r ∈ dom (nodes g) ∨ isNodePending (pendingJobs g) r = true)
  ∧ (∀ n, n ∈ dom (nodes g) →
          isNodePending (pendingJobs g) n = true
          ∨ ∀ d, d ∈ getDeps n → d ∈ dependenciesOf (nodes g) n ∧ d ∈ dom (nodes g))
  ∧ (∀ n d, d ∈ dependenciesOf (nodes g) n → d ∈ getDeps n)
  ∧ (∀ n, n ∈ dom (nodes g) → ∃ r, r ∈ rs ∧ rtc (edge (nodes g)) r n).

End Graph.

(** ** Stores and graphs used as concrete inputs *)

Module Fixtures.
Import Jobs.

(** A resolver whose promises are all settled at once, as the stubs of the
    test suite are. *)
Definition immediate (f : string → Outcome string) : Resolver :=
  {| outcomeOf := f; settledAt := fun _ => 0 |}.

(** A store in the manner of the test suite: the jobs a test overrides are
    given as constants; the others are irrelevant to the job under test. *)
Definition testStore (ext : string) (isTextFile shouldCache : bool)
    (deps : list Dependency) (ids : list string) (pkg pth : Obj) : store.t :=
  {| store.ext := fun _ => resolve ext;
     store.isTextFile := fun _ => resolve isTextFile;
     store.readText := fun _ => resolve "test text";
     store.hashedName := fun _ => resolve "C:\src\img\logo-10.css";
     store.readCache := fun _ => resolve tt;
     store.postcssTransform :=
       fun _ => resolve {| css := "test css"; unfortDependencies := deps |};
     store.babelFile := fun _ => resolve {| babel_code := "test code" |};
     store.analyzeDependencies := fun _ => resolve deps;
     store.dependencyIdentifiers := fun _ => resolve ids;
     store.pathDependencyIdentifiers := fun _ => resolve ids;
     store.packageDependencyIdentifiers := fun _ => resolve ids;
     store.resolver :=
       fun _ => resolve (immediate (fun id => Resolved (id +:+ " test")));
     store.shouldCacheResolvedPathDependencies := fun _ => resolve shouldCache;
     store.shouldCacheResolvedPackageDependencies := fun _ => resolve true;
     store.resolvePathDependencies := fun _ => resolve pth;
     store.resolvePackageDependencies := fun _ => resolve pkg;
     store.code := fun _ => resolve (Some "test code");
     store.moduleDefinition := fun _ => resolve (Some "test module definition") |}.

Definition testState : State :=
  {| sourceRoot := "/foo/"; rootUrl := "http://localhost:3000/files/";
     rootNodeModules := "/foo/node_modules"; vendorRoot := "/foo/vendor";
     bootstrapRuntime := "/foo/bootstrap.js"; hotRuntime := "/foo/hot.js" |}.

(** The state of a checkout at [C:\src] on a platform whose [path.sep] is
    the backslash. *)
Definition win32State : State :=
  {| sourceRoot := "C:\src"; rootUrl := "/files/";
     rootNodeModules := "C:\src\node_modules"; vendorRoot := "C:\src\vendor";
     bootstrapRuntime := "C:\src\bootstrap.js"; hotRuntime := "C:\src\hot.js" |}.

Definition win32_sep : string := "\".

Fixpoint dropSeparators (s : string) : string :=
  match s with
  | String c s' => if bool_decide (c = "\"%char) then dropSeparators s' else s
  | EmptyString => s
  end.

(** [path.relative(from, to)] for a [to] that lies below the directory
    [from]: what follows [from] and the separator. *)
Definition win32_relative (from to : string) : string :=
  dropSeparators (String.substring (String.length from)
                    (String.length to - String.length from) to).

Definition posix_isAbsolute (id : string) : bool := JS.startsWith id "/".

(** A store with another resolver. *)
Definition withResolver (st : store.t) (r : Resolver) : store.t :=
  {| store.ext := store.ext st;
     store.isTextFile := store.isTextFile st;
     store.readText := store.readText st;
     store.hashedName := store.hashedName st;
     store.readCache := store.readCache st;
     store.postcssTransform := store.postcssTransform st;
     store.babelFile := store.babelFile st;
     store.analyzeDependencies := store.analyzeDependencies st;
     store.dependencyIdentifiers := store.dependencyIdentifiers st;
     store.pathDependencyIdentifiers := store.pathDependencyIdentifiers st;
     store.packageDependencyIdentifiers := store.packageDependencyIdentifiers st;
     store.resolver := fun _ => resolve r;
     store.shouldCacheResolvedPathDependencies :=
       store.shouldCacheResolvedPathDependencies st;
     store.shouldCacheResolvedPackageDependencies :=
       store.shouldCacheResolvedPackageDependencies st;
     store.resolvePathDependencies := store.resolvePathDependencies st;
     store.resolvePackageDependencies := store.resolvePackageDependencies st;
     store.code := store.code st;
     store.moduleDefinition := store.moduleDefinition st |}.

(** A resolver that finds neither [./a] nor [./b], and learns so for
    [./b] before it does for [./a]. *)
Definition resolverMissingTwo : Resolver :=
  {| outcomeOf := fun id =>
       if bool_decide (id = "./a") then Rejected "no ./a"
       else if bool_decide (id = "./b") then Rejected "no ./b"
       else Resolved ("/foo/" +:+ id);
     settledAt := fun id => if bool_decide (id = "./a") then 2 else 1 |}.

(** The store [b] with the dependency jobs of [createJobs] in place of
    its own. The jobs are put in in the order in which they call each
    other, so that each reaches the ones it calls through the store. *)
Definition withDependencyJobs (getState : State) (isAbsolute : string → bool)
    (b : store.t) : store.t :=
  let s1 :=
    {| store.ext := store.ext b;
       store.isTextFile := store.isTextFile b;
       store.readText := store.readText b;
       store.hashedName := store.hashedName b;
       store.readCache := store.readCache b;
       store.postcssTransform := store.postcssTransform b;
       store.babelFile := store.babelFile b;
       store.analyzeDependencies := store.analyzeDependencies b;
       store.dependencyIdentifiers := fun ref => dependencyIdentifiers ref b;
       store.pathDependencyIdentifiers := store.pathDependencyIdentifiers b;
       store.packageDependencyIdentifiers := store.packageDependencyIdentifiers b;
       store.resolver := store.resolver b;
       store.shouldCacheResolvedPathDependencies := shouldCacheResolvedPathDependencies getState;
       store.shouldCacheResolvedPackageDependencies := shouldCacheResolvedPackageDependencies;
       store.resolvePathDependencies := store.resolvePathDependencies b;
       store.resolvePackageDependencies := store.resolvePackageDependencies b;
       store.code := store.code b;
       store.moduleDefinition := store.moduleDefinition b |} in
  let s2 :=
    {| store.ext := store.ext s1;
       store.isTextFile := store.isTextFile s1;
       store.readText := store.readText s1;
       store.hashedName := store.hashedName s1;
       store.readCache := store.readCache s1;
       store.postcssTransform := store.postcssTransform s1;
       store.babelFile := store.babelFile s1;
       store.analyzeDependencies := store.analyzeDependencies s1;
       store.dependencyIdentifiers := store.dependencyIdentifiers s1;
       store.pathDependencyIdentifiers := fun ref => pathDependencyIdentifiers isAbsolute ref s1;
       store.packageDependencyIdentifiers := fun ref => packageDependencyIdentifiers isAbsolute ref s1;
       store.resolver := store.resolver s1;
       store.shouldCacheResolvedPathDependencies := store.shouldCacheResolvedPathDependencies s1;
       store.shouldCacheResolvedPackageDependencies := store.shouldCacheResolvedPackageDependencies s1;
       store.resolvePathDependencies := store.resolvePathDependencies s1;
       store.resolvePackageDependencies := store.resolvePackageDependencies s1;
       store.code := store.code s1;
       store.moduleDefinition := store.moduleDefinition s1 |} in
  {| store.ext := store.ext s2;
     store.isTextFile := store.isTextFile s2;
     store.readText := store.readText s2;
     store.hashedName := store.hashedName s2;
     store.readCache := store.readCache s2;
     store.postcssTransform := store.postcssTransform s2;
     store.babelFile := store.babelFile s2;
     store.analyzeDependencies := store.analyzeDependencies s2;
     store.dependencyIdentifiers := store.dependencyIdentifiers s2;
     store.pathDependencyIdentifiers := store.pathDependencyIdentifiers s2;
     store.packageDependencyIdentifiers := store.packageDependencyIdentifiers s2;
     store.resolver := store.resolver s2;
     store.shouldCacheResolvedPathDependencies := store.shouldCacheResolvedPathDependencies s2;
     store.shouldCacheResolvedPackageDependencies := store.shouldCacheResolvedPackageDependencies s2;
     store.resolvePathDependencies := fun ref => resolvePathDependencies ref s2;
     store.resolvePackageDependencies := fun ref => resolvePackageDependencies ref s2;
     store.code := store.code s2;
     store.moduleDefinition := store.moduleDefinition s2 |}.

(** A dependency function with a cycle: [A] needs [B] and [C], [B] needs
    [A], and nothing else needs anything. *)
Definition cyclicDeps (name : string) : list string :=
  if String.eqb name "A" then ["B"; "C"]
  else if String.eqb name "B" then ["A"]
  else [].

End Fixtures.

(* ===================================================================== *)
(** * Part II: properties *)
(* ===================================================================== *)

(** ** The jobs *)

Module JobsFacts.
Import Jobs.

(** *** Cleaning identifiers *)


Lemma index_char_cons c b s :
  String.index 0 (String c EmptyString) (String b s) =
    if bool_decide (b = c) then Some 0
    else S <$> String.index 0 (String c EmptyString) s.
Proof.
  simpl. destruct (ascii_dec c b) as [->|Hne].
  - rewrite bool_decide_true by done. by destruct s.
  - rewrite bool_decide_false by congruence.
    by destruct (String.index 0 (String c EmptyString) s).
Qed.

Lemma slice_at_index c id :
  (if bool_decide (JS.indexOf (String c EmptyString) id ≠ (-1)%Z)
   then JS.slice0 (JS.indexOf (String c EmptyString) id) id else id) = upTo c id.
Proof.
  unfold JS.indexOf, JS.slice0. induction id as [|b s IH]; [reflexivity|].
  rewrite index_char_cons. cbn [upTo].
  destruct (bool_decide (b = c)); [reflexivity|].
  destruct (String.index 0 (String c EmptyString) s) as [n|].
  - cbn [fmap option_fmap option_map]. rewrite bool_decide_true by lia.
    rewrite bool_decide_true in IH by lia.
    rewrite Nat2Z.id in *. cbn [String.substring]. by rewrite IH.
  - cbn [fmap option_fmap option_map]. rewrite bool_decide_false by (intros ?; done).
    rewrite bool_decide_false in IH by (intros ?; done).
    by rewrite <-IH.
Qed.

Lemma cleanIdentifier_upTo id :
  cleanIdentifier id = upTo "#" (upTo "?" (upTo "!" id)).
Proof.
  unfold cleanIdentifier. cbn zeta.
  by rewrite (slice_at_index "!" id), (slice_at_index "?"), (slice_at_index "#").
Qed.

Lemma cleanIdentifier_strips id : cleanIdentifier id = stripFromFirstMarker id.
Proof.
  rewrite cleanIdentifier_upTo. induction id as [|b s IH]; [done|].
  cbn [upTo stripFromFirstMarker]. unfold isMarker.
  destruct (bool_decide (b = "!"%char)) eqn:E1; [done|].
  cbn [upTo]. destruct (bool_decide (b = "?"%char)) eqn:E2; [done|].
  cbn [upTo]. destruct (bool_decide (b = "#"%char)) eqn:E3; [done|].
  cbn [orb]. by rewrite IH.
Qed.




(** *** Merging the resolved dependencies *)

Lemma assignFrom_union (target source : Obj) :
  assignFrom target source = source ∪ target.
Proof.
  unfold assignFrom.
  apply (map_fold_weak_ind (fun r (m : Obj) => r = m ∪ target)).
  - by rewrite (left_id_L ∅ (∪)).
  - intros i x m r _ ->. by rewrite insert_union_l.
Qed.

Lemma assign_two (a b : Obj) : assign ∅ [a; b] = b ∪ a.
Proof.
  unfold assign. cbn [foldl]. rewrite !assignFrom_union.
  by rewrite (right_id_L ∅ (∪)).
Qed.

(** C2. [resolvedDependencies(ref)] is the union of the maps of
    [resolvePathDependencies(ref)] and [resolvePackageDependencies(ref)]:
    its keys are the keys of either, an identifier bound by the path map
    has the path map's value (also when the package map binds it too), and
    any other identifier has the package map's value. *)
Theorem resolvedDependencies_union (ref : Ref) (st : store.t)
    (c c1 c2 : CacheData) (pkg pth : Obj) :
  store.resolvePackageDependencies st ref c = (Resolved pkg, c1) →
  store.resolvePathDependencies st ref c1 = (Resolved pth, c2) →
  ∃ deps : Obj,
    resolvedDependencies ref st c = (Resolved deps, c2)
    ∧ dom deps = dom pth ∪ dom pkg
    ∧ (∀ id v, pth !! id = Some v → deps !! id = Some v)
    ∧ (∀ id, pth !! id = None → deps !! id = pkg !! id).
Proof.
  intros Hpkg Hpth. exists (pth ∪ pkg). repeat split.
  - unfold resolvedDependencies, andThen, all2. rewrite Hpkg, Hpth.
    unfold resolve. by rewrite assign_two.
  - apply dom_union_L.
  - intros id v Hv. by apply lookup_union_Some_l.
  - intros id Hnone. by apply lookup_union_r.
Qed.

Lemma resolvedDependencies_union_witness :
  let pth : Obj := {[ "./foo" := "/foo/foo.js" ]} in
  let pkg : Obj := {[ "./foo" := "/cached/foo.js" ]}
                     ∪ {[ "bar" := "/foo/node_modules/bar/index.js" ]} in
  ∃ deps : Obj,
    resolvedDependencies {| name := "/foo/bar.js" |}
      (Fixtures.testStore ".js" true false [] [] pkg pth) emptyCache
    = (Resolved deps, emptyCache)
    ∧ deps !! "./foo" = Some "/foo/foo.js"
    ∧ deps !! "bar" = Some "/foo/node_modules/bar/index.js".
Proof.
  intros pth pkg.
  destruct (resolvedDependencies_union {| name := "/foo/bar.js" |}
              (Fixtures.testStore ".js" true false [] [] pkg pth)
              emptyCache emptyCache emptyCache pkg pth eq_refl eq_refl)
    as (deps & Hrun & _ & Hpath & Hother).
  exists deps. split; [exact Hrun|]. split.
  - apply Hpath. reflexivity.
  - rewrite Hother; reflexivity.
Defined.


(** *** The served content *)

(** With the [isTextFile] job of [jobs.js], a record is a text file
    exactly when its extension is one of the three known ones. *)
Lemma isTextFile_ext (ref : Ref) (st : store.t) (c : CacheData) (ext : string) :
  store.ext st ref c = (Resolved ext, c) →
  isTextFile ref st c
  = (Resolved (bool_decide (ext = ".js" ∨ ext = ".css" ∨ ext = ".json")), c).
Proof.
  intros Hext. unfold isTextFile, andThen, resolve. rewrite Hext.
  by rewrite !bool_decide_or, orb_assoc.
Qed.

(** C5. [content(ref)], for a record whose [isTextFile] and [ext] jobs have
    resolved: for a text file that is the bootstrap runtime or has the
    extension [.css] it is what [code(ref)] gives; for any other text file
    with the extension [.js] or [.json] it is what [moduleDefinition(ref)]
    gives; for a file that is not a text file it is [null], which is also
    what [code] gives for such a file; for a text file of any other
    extension it rejects. *)
Theorem content_cases (getState : State) (ref : Ref) (st : store.t)
    (c : CacheData) (isText : bool) (ext : string) :
  store.isTextFile st ref c = (Resolved isText, c) →
  store.ext st ref c = (Resolved ext, c) →
  (isText = true → name ref = bootstrapRuntime getState ∨ ext = ".css" →
     content getState ref st c = store.code st ref c)
  ∧ (isText = true → name ref ≠ bootstrapRuntime getState →
     ext = ".js" ∨ ext = ".json" →
     content getState ref st c = store.moduleDefinition st ref c)
  ∧ (isText = false →
     content getState ref st c = (Resolved None, c)
     ∧ code getState ref st c = (Resolved None, c))
  ∧ (isText = true → name ref ≠ bootstrapRuntime getState →
     ext ≠ ".css" → ext ≠ ".js" → ext ≠ ".json" →
     content getState ref st c
     = (Rejected ("Unknown text file extension: " +:+ ext
                  +:+ ". Cannot generate content for file: " +:+ name ref), c)).
Proof.
  intros Htext Hext.
  assert (∀ k : bool * string → Job (option string),
            andThen (all2 (store.isTextFile st ref) (store.ext st ref)) k c
            = k (isText, ext) c) as Hall.
  { intros k. unfold andThen, all2. by rewrite Htext, Hext. }
  unfold content. rewrite Hall. clear Hall.
  split; [|split; [|split]].
  - intros -> [Hboot| ->]; cbn [negb].
    + by rewrite (bool_decide_true _ Hboot).
    + by rewrite orb_true_r.
  - intros -> Hboot Hjs. cbn [negb].
    rewrite (bool_decide_false _ Hboot). cbn [orb].
    destruct Hjs as [-> | ->]; reflexivity.
  - intros ->. split; [done|].
    unfold code, andThen. by rewrite Htext.
  - intros -> Hboot Hcss Hjs Hjson. cbn [negb].
    by rewrite (bool_decide_false _ Hboot), (bool_decide_false _ Hcss),
      (bool_decide_false _ Hjs), (bool_decide_false _ Hjson).
Qed.

Lemma content_cases_witness :
  content Fixtures.testState {| name := "test.css" |}
    (Fixtures.testStore ".css" true false [] [] ∅ ∅) emptyCache
  = (Resolved (Some "test code"), emptyCache)
  ∧ content Fixtures.testState {| name := "test.json" |}
      (Fixtures.testStore ".json" true false [] [] ∅ ∅) emptyCache
    = (Resolved (Some "test module definition"), emptyCache)
  ∧ content Fixtures.testState {| name := "test.png" |}
      (Fixtures.testStore ".png" false false [] [] ∅ ∅) emptyCache
    = (Resolved None, emptyCache)
  ∧ content Fixtures.testState {| name := "test.png" |}
      (Fixtures.testStore ".png" true false [] [] ∅ ∅) emptyCache
    = (Rejected "Unknown text file extension: .png. Cannot generate content for file: test.png",
       emptyCache).
Proof.
  split; [|split; [|split]].
  - refine (proj1 (content_cases Fixtures.testState {| name := "test.css" |}
                     (Fixtures.testStore ".css" true false [] [] ∅ ∅) emptyCache
                     true ".css" eq_refl eq_refl) eq_refl (or_intror eq_refl)).
  - refine (proj1 (proj2 (content_cases Fixtures.testState {| name := "test.json" |}
                     (Fixtures.testStore ".json" true false [] [] ∅ ∅) emptyCache
                     true ".json" eq_refl eq_refl)) eq_refl _ (or_intror eq_refl)).
    discriminate.
  - refine (proj1 (proj1 (proj2 (proj2 (content_cases Fixtures.testState
                     {| name := "test.png" |}
                     (Fixtures.testStore ".png" false false [] [] ∅ ∅) emptyCache
                     false ".png" eq_refl eq_refl))) eq_refl)).
  - refine (proj2 (proj2 (proj2 (content_cases Fixtures.testState
                     {| name := "test.png" |}
                     (Fixtures.testStore ".png" true false [] [] ∅ ∅) emptyCache
                     true ".png" eq_refl eq_refl))) eq_refl _ _ _ _); discriminate.
Defined.

(** *** Caching the resolved path dependencies *)


(** C8, counterexample. For [/bar/woz.js], outside the root [node_modules],
    with a stale entry under the key, the job resolves the identifiers
    again and assigns the new map to the key. *)
Lemma resolvePathDependencies_writes_uncacheable :
  ¬ cache_key_written_only_if_cacheable.
Proof.
  intros H.
  specialize (H Fixtures.testState {| name := "/bar/woz.js" |}
                (Fixtures.testStore ".js" true false [] ["./foo"] ∅ ∅)
                (set_resolvePathDependencies {[ "./foo" := "/stale.js" ]} emptyCache)
                eq_refl eq_refl).
  apply (f_equal (fun o => o ≫= (fun deps : Obj => deps !! "./foo"))) in H.
  vm_compute in H. discriminate.
Qed.

(** C8, as amended. [shouldCacheResolvedPathDependencies(ref)], true
    exactly when [ref.name] starts with the root [node_modules] path,
    decides only whether the cached entry is used: when it is true and the
    [resolvePathDependencies] key is present, the job resolves to the
    entry and leaves the cache map unchanged; in every other case it
    resolves the path identifiers and, once they are all resolved, assigns
    their map to the key, also for a file outside the root
    [node_modules]. *)
Theorem resolvePathDependencies_cache (getState : State) (ref : Ref)
    (st : store.t) (c : CacheData) :
  store.readCache st ref c = (Resolved tt, c) →
  store.shouldCacheResolvedPathDependencies st ref c
    = shouldCacheResolvedPathDependencies getState ref c →
  (∀ deps,
     JS.startsWith (name ref) (rootNodeModules getState) = true →
     cd_resolvePathDependencies c = Some deps →
     resolvePathDependencies ref st c = (Resolved deps, c))
  ∧ (∀ ids c1 resolver c2 paths,
       JS.startsWith (name ref) (rootNodeModules getState) = false
       ∨ cd_resolvePathDependencies c = None →
       store.pathDependencyIdentifiers st ref c = (Resolved ids, c1) →
       store.resolver st ref c1 = (Resolved resolver, c2) →
       allOf (map (promiseOf resolver) ids) = Resolved paths →
       resolvePathDependencies ref st c
       = (Resolved (zipObject ids paths),
          set_resolvePathDependencies (zipObject ids paths) c2)).
Proof.
  intros Hread Hshould. split.
  - intros deps Hunder Hhit.
    unfold resolvePathDependencies, andThen, all2, cached.
    rewrite Hread, Hshould. unfold shouldCacheResolvedPathDependencies, resolve.
    cbn. by rewrite Hunder, Hhit.
  - intros ids c1 resolver c2 paths Hcase Hids Hres Hpaths.
    unfold resolvePathDependencies, andThen, all2, cached.
    rewrite Hread, Hshould. unfold shouldCacheResolvedPathDependencies, resolve.
    cbn.
    assert (∀ k : Obj → Job Obj,
              andThen (andThen (store.pathDependencyIdentifiers st ref)
                         (resolveAll ref st)) k c
              = k (zipObject ids paths) c2) as Hrun.
    { intros k. unfold resolveAll, andThen, settle, resolve.
      by rewrite Hids, Hres, Hpaths. }
    unfold andThen in Hrun.
    destruct Hcase as [Hout|Hmiss].
    + rewrite Hout.
      destruct (cd_resolvePathDependencies c);
        exact (Hrun (fun deps =>
                 andThen (assignCache (set_resolvePathDependencies deps))
                   (fun _ => resolve deps))).
    + rewrite Hmiss.
      destruct (JS.startsWith (name ref) (rootNodeModules getState));
        exact (Hrun (fun deps =>
                 andThen (assignCache (set_resolvePathDependencies deps))
                   (fun _ => resolve deps))).
Qed.


Lemma resolvePathDependencies_cache_witness :
  let stale := set_resolvePathDependencies {[ "./foo" := "/stale.js" ]} emptyCache in
  let fresh := zipObject ["./foo"; "/bar.js"] ["./foo test"; "/bar.js test"] in
  resolvePathDependencies {| name := "/bar/woz.js" |}
    (Fixtures.testStore ".js" true false [] ["./foo"; "/bar.js"] ∅ ∅) stale
  = (Resolved fresh, set_resolvePathDependencies fresh stale).
Proof.
  intros stale fresh.
  exact (proj2 (resolvePathDependencies_cache Fixtures.testState
                  {| name := "/bar/woz.js" |}
                  (Fixtures.testStore ".js" true false [] ["./foo"; "/bar.js"] ∅ ∅)
                  stale eq_refl eq_refl)
           ["./foo"; "/bar.js"] stale
           (Fixtures.immediate (fun id => Resolved (id +:+ " test"))) stale
           ["./foo test"; "/bar.js test"]
           (or_introl eq_refl) eq_refl eq_refl eq_refl).
Defined.

(** *** The url of a record *)

Lemma split_undefined_join (relPath : string) :
  JS.join "/" (JS.split relPath path_ext) = relPath.
Proof. reflexivity. Qed.

(** What [url] computes: the root url followed by the chosen name, made
    relative to the source root when it starts with it. The name reaches
    the url as [path.relative] left it. *)
Lemma url_value (getState : State) (path_relative : string → string → string)
    (ref : Ref) (st : store.t) (c : CacheData) (isText : bool) (hashed : string) :
  store.isTextFile st ref c = (Resolved isText, c) →
  store.hashedName st ref c = (Resolved hashed, c) →
  url getState path_relative ref st c
  = (Resolved (rootUrl getState +:+
               (let chosen := if isText then hashed else name ref in
                if JS.startsWith chosen (sourceRoot getState)
                then path_relative (sourceRoot getState) chosen
                else chosen)), c).
Proof.
  intros Htext Hhashed. unfold url, andThen. rewrite Htext.
  destruct isText.
  - rewrite Hhashed. unfold resolve. by rewrite split_undefined_join.
  - unfold resolve. by rewrite split_undefined_join.
Qed.

(** C6, at a failing input. On a platform whose separator is the
    backslash, the url of [C:\src\img\logo.png] under the source root
    [C:\src] keeps the backslash of the relative part, for the binary file
    and for the hashed name of a text file alike, where replacing the
    separators gives [/files/img/logo.png]. *)
Theorem url_keeps_platform_separators :
  url Fixtures.win32State Fixtures.win32_relative {| name := "C:\src\img\logo.png" |}
    (Fixtures.testStore ".png" false false [] [] ∅ ∅) emptyCache
  = (Resolved "/files/img\logo.png", emptyCache)
  ∧ url Fixtures.win32State Fixtures.win32_relative {| name := "C:\src\img\logo.css" |}
      (Fixtures.testStore ".css" true false [] [] ∅ ∅) emptyCache
    = (Resolved "/files/img\logo-10.css", emptyCache)
  ∧ rootUrl Fixtures.win32State
      +:+ JS.join "/" (JS.split (Fixtures.win32_relative "C:\src" "C:\src\img\logo.png")
                         (Some Fixtures.win32_sep))
    = "/files/img/logo.png".
Proof. split; [|split]; reflexivity. Qed.

End JobsFacts.

(** ** The graph *)

Module GraphFacts.
Import Graph.

(** *** The shape of [pruneNode] *)


Lemma prune_fold (names : list string) (g : Graph) (evs : list Event) :
  foldl prunePendingJobsAndEmit (g, evs) names
  = (with_pendingJobs g (invalidateAll names (pendingJobs g)),
     evs ++ map Pruned names).
Proof.
  revert g evs. induction names as [|n names IH]; intros g evs.
  - destruct g. cbn. by rewrite app_nil_r.
  - cbn [foldl]. unfold prunePendingJobsAndEmit at 2. cbn [fst snd].
    rewrite IH. cbn. by rewrite <-app_assoc.
Qed.

Lemma pruneNode_unfold (g : Graph) (x : string) :
  pruneNode g x =
    if isNodeDefined (nodes g) x then
      let pruned := pruneFromNode (nodes g) x (permanentNodes g) in
      (with_pendingJobs (with_nodes g pruned.1)
         (invalidateAll pruned.2 (pendingJobs g)),
       map Pruned pruned.2)
    else if isNodePending (pendingJobs g) x then
      (with_pendingJobs g (map (invalidate x) (pendingJobs g)), [Pruned x])
    else (g, []).
Proof.
  unfold pruneNode. destruct (isNodeDefined (nodes g) x); [|done].
  destruct (pruneFromNode (nodes g) x (permanentNodes g)) as [nodes' pruned].
  by rewrite prune_fold.
Qed.

Lemma invalidate_node name j : node (invalidate name j) = node j.
Proof. unfold invalidate. by case_bool_decide. Qed.

Lemma invalidate_jid name j : jid (invalidate name j) = jid j.
Proof. unfold invalidate. by case_bool_decide. Qed.

Lemma invalidate_isValid name j :
  isValid (invalidate name j) = isValid j && negb (bool_decide (node j = name)).
Proof.
  unfold invalidate. case_bool_decide; cbn; [by rewrite andb_false_r|].
  by rewrite andb_true_r.
Qed.

Lemma isNodePending_false (jobs : list Job) (x : string) :
  isNodePending jobs x = false
  ↔ ∀ j, j ∈ jobs → node j = x → isValid j = false.
Proof.
  unfold isNodePending. induction jobs as [|j jobs IH]; cbn.
  - split; [|done]. intros _ j Hj. by apply elem_of_nil in Hj.
  - rewrite orb_false_iff, IH. split.
    + intros [Hj Hrest] j' Hin Hnode. apply elem_of_cons in Hin as [->|Hin].
      * rewrite (bool_decide_true _ Hnode), andb_true_r in Hj. done.
      * by apply Hrest.
    + intros H. split.
      * destruct (decide (node j = x)) as [Hn|Hn].
        -- rewrite (H j (list_elem_of_here _ _) Hn). done.
        -- rewrite (bool_decide_false _ Hn). by rewrite andb_false_r.
      * intros j' Hin. apply H. by apply list_elem_of_further.
Qed.

Lemma invalidateAll_elem (names : list string) (jobs : list Job) (j : Job) :
  j ∈ invalidateAll names jobs →
  ∃ j0, j0 ∈ jobs ∧ jid j = jid j0 ∧ node j = node j0
        ∧ isValid j = isValid j0 && negb (bool_decide (node j0 ∈ names)).
Proof.
  unfold invalidateAll. revert jobs j.
  induction names as [|n names IH]; intros jobs j; cbn [foldl].
  - intros Hj. exists j. repeat split; [done|].
    rewrite bool_decide_false by apply not_elem_of_nil. by rewrite andb_true_r.
  - intros Hj. apply IH in Hj as (j1 & Hj1 & Hid & Hnode & Hvalid).
    apply list_elem_of_fmap in Hj1 as (j0 & -> & Hj0).
    exists j0. rewrite invalidate_jid in Hid. rewrite invalidate_node in Hnode, Hvalid.
    rewrite invalidate_isValid in Hvalid.
    repeat split; [done..|]. rewrite Hvalid.
    destruct (isValid j0); [|done]. cbn.
    by rewrite (bool_decide_ext _ _ (elem_of_cons names (node j0) n)),
      bool_decide_or, negb_orb.
Qed.

Lemma invalidateAll_not_pending (names : list string) (jobs : list Job) (x : string) :
  x ∈ names → isNodePending (invalidateAll names jobs) x = false.
Proof.
  intros Hx. apply isNodePending_false. intros j Hj Hnode.
  apply invalidateAll_elem in Hj as (j0 & _ & _ & Hn & ->).
  rewrite bool_decide_true by congruence. by rewrite andb_false_r.
Qed.

Lemma invalidateAll_idle (names : list string) (jobs : list Job) :
  (∀ x, x ∈ names → isNodePending jobs x = false) →
  invalidateAll names jobs = jobs.
Proof.
  unfold invalidateAll. revert jobs.
  induction names as [|n names IH]; intros jobs Hidle; [done|].
  cbn [foldl].
  assert (map (invalidate n) jobs = jobs) as ->.
  { pose proof (proj1 (isNodePending_false jobs n)
                  (Hidle n (list_elem_of_here _ _))) as Hn.
    clear -Hn. induction jobs as [|j jobs IHj]; [done|].
    cbn [map]. f_equal.
    - unfold invalidate. case_bool_decide as Hj; [|done].
      pose proof (Hn _ (list_elem_of_here _ _) Hj) as Hv.
      destruct j as [i nd v]. cbn in *. by subst.
    - apply IHj. intros j' Hin. apply Hn. by apply list_elem_of_further. }
  apply IH. intros x Hx. apply Hidle. by apply list_elem_of_further.
Qed.


(** *** Removing nodes *)

Lemma lookup_removeNode (ns : Nodes) (n a : string) :
  removeNode ns n !! a =
    if decide (a = n) then None
    else (fun nd => {| dependencies := dependencies nd ∖ {[n]};
                       dependents := dependents nd ∖ {[n]} |}) <$> ns !! a.
Proof.
  unfold removeNode. rewrite lookup_fmap. case_decide as Ha.
  - subst. by rewrite lookup_delete_eq.
  - by rewrite lookup_delete_ne.
Qed.

Lemma dom_removeNode (ns : Nodes) (n : string) :
  dom (removeNode ns n) = dom ns ∖ {[n]}.
Proof. unfold removeNode. by rewrite dom_fmap_L, dom_delete_L. Qed.

Lemma dom_removeNodes (l : list string) (ns : Nodes) :
  dom (foldl removeNode ns l) = dom ns ∖ list_to_set l.
Proof.
  revert ns. induction l as [|n l IH]; intros ns; cbn [foldl list_to_set].
  - set_solver.
  - rewrite IH, dom_removeNode. set_solver.
Qed.

Lemma pruneFromNode_dom (ns : Nodes) (x : string) (ignore : list string) :
  dom (pruneFromNode ns x ignore).1
  = dom ns ∖ list_to_set (pruneFromNode ns x ignore).2.
Proof. unfold pruneFromNode. cbn [fst snd]. apply dom_removeNodes. Qed.

Lemma pruneFromNode_start (ns : Nodes) (x : string) (ignore : list string) :
  x ∈ (pruneFromNode ns x ignore).2.
Proof. unfold pruneFromNode. cbn [fst snd]. apply list_elem_of_here. Qed.

Lemma isNodeDefined_dom (ns : Nodes) (x : string) :
  isNodeDefined ns x = true ↔ x ∈ dom ns.
Proof.
  unfold isNodeDefined. rewrite elem_of_dom.
  split; [apply bool_decide_eq_true_1 | apply bool_decide_eq_true_2].
Qed.

Lemma isNodeDefined_pruned (ns : Nodes) (x : string) (ignore : list string) :
  isNodeDefined (pruneFromNode ns x ignore).1 x = false.
Proof.
  apply not_true_is_false. rewrite isNodeDefined_dom, pruneFromNode_dom.
  pose proof (pruneFromNode_start ns x ignore). set_solver.
Qed.

(** *** Idempotence *)

Lemma pruneNode_again (g : Graph) (x : string) :
  pruneNode (pruneNode g x).1 x = ((pruneNode g x).1, []).
Proof.
  rewrite (pruneNode_unfold g x).
  destruct (isNodeDefined (nodes g) x) eqn:Hdef.
  - cbn zeta. cbn [fst]. rewrite pruneNode_unfold. cbn [nodes with_pendingJobs with_nodes].
    rewrite isNodeDefined_pruned. cbn [pendingJobs with_pendingJobs].
    by rewrite invalidateAll_not_pending by apply pruneFromNode_start.
  - destruct (isNodePending (pendingJobs g) x) eqn:Hpend; cbn [fst].
    + rewrite pruneNode_unfold. cbn [nodes with_pendingJobs pendingJobs].
      rewrite Hdef.
      pose proof (invalidateAll_not_pending [x] (pendingJobs g) x
                    (list_elem_of_here _ _)) as Hidle.
      unfold invalidateAll in Hidle. cbn [foldl] in Hidle. by rewrite Hidle.
    + rewrite pruneNode_unfold. by rewrite Hdef, Hpend.
Qed.

Lemma ensureNodeIsPermanent_again (ps : list string) (x : string) :
  ensureNodeIsPermanent (ensureNodeIsPermanent ps x) x = ensureNodeIsPermanent ps x.
Proof.
  unfold ensureNodeIsPermanent. destruct (decide (x ∈ ps)) as [Hin|Hin].
  - by rewrite !(bool_decide_true _ Hin).
  - rewrite (bool_decide_false _ Hin).
    rewrite bool_decide_true; [done|]. apply elem_of_app. right.
    apply list_elem_of_here.
Qed.

Lemma ensureNodeIsPermanent_NoDup (ps : list string) (x : string) :
  NoDup ps → NoDup (ensureNodeIsPermanent ps x).
Proof.
  intros Hps. unfold ensureNodeIsPermanent. case_bool_decide as Hin; [done|].
  apply NoDup_app. split; [done|]. split.
  - intros y Hy ->%list_elem_of_singleton. done.
  - apply NoDup_singleton.
Qed.

(** C9. Pruning a node twice in succession leaves the graph (its nodes,
    permanent roots, pending jobs and their validity, and everything
    else) as pruning it once does; marking a node permanent twice leaves
    the graph as marking it once does, and the insertion never introduces
    a duplicate into a list of permanent roots that has none. *)
Theorem prune_and_setPermanent_idempotent (g : Graph) (x : string) :
  (pruneNode (pruneNode g x).1 x).1 = (pruneNode g x).1
  ∧ setNodeAsPermanent (setNodeAsPermanent g x) x = setNodeAsPermanent g x
  ∧ (NoDup (permanentNodes g) → NoDup (permanentNodes (setNodeAsPermanent g x))).
Proof.
  split; [|split].
  - by rewrite pruneNode_again.
  - unfold setNodeAsPermanent, with_permanentNodes.
    cbn [nodes permanentNodes pendingJobs nextTicks awaiting jobCount].
    by rewrite ensureNodeIsPermanent_again.
  - unfold setNodeAsPermanent. cbn [permanentNodes with_permanentNodes].
    apply ensureNodeIsPermanent_NoDup.
Qed.

Lemma prune_and_setPermanent_idempotent_witness :
  NoDup (permanentNodes (setNodeAsPermanent (setNodeAsPermanent createGraph "a") "a")).
Proof.
  apply (proj2 (proj2 (prune_and_setPermanent_idempotent
                         (setNodeAsPermanent createGraph "a") "a"))).
  cbn. apply NoDup_singleton.
Defined.


(** *** Looking up jobs *)

Lemma findJob_pull_same (l : list Job) (job : nat) : findJob (pull l job) job = None.
Proof.
  unfold findJob, pull. induction l as [|j l IH]; [done|].
  cbn [List.filter]. destruct (decide (jid j = job)) as [Hj|Hj].
  - by rewrite (bool_decide_true _ Hj).
  - rewrite (bool_decide_false _ Hj). cbn [negb List.find].
    by rewrite (bool_decide_false _ Hj).
Qed.

Lemma findJob_pull_other (l : list Job) (k job : nat) :
  k ≠ job → findJob (pull l k) job = findJob l job.
Proof.
  intros Hne. unfold findJob, pull. induction l as [|j l IH]; [done|].
  cbn [List.filter List.find]. destruct (decide (jid j = k)) as [Hj|Hj].
  - rewrite (bool_decide_true _ Hj). cbn [negb].
    rewrite bool_decide_false by congruence. done.
  - rewrite (bool_decide_false _ Hj). cbn [negb List.find]. by rewrite IH.
Qed.

Lemma findJob_app (l l' : list Job) (job : nat) (j : Job) :
  findJob l job = Some j → findJob (l ++ l') job = Some j.
Proof.
  unfold findJob. induction l as [|j0 l IH]; [done|].
  cbn [app List.find]. by destruct (bool_decide (jid j0 = job)).
Qed.

Lemma findJob_invalidate (name : string) (l : list Job) (job : nat) :
  findJob (map (invalidate name) l) job = invalidate name <$> findJob l job.
Proof.
  unfold findJob. induction l as [|j0 l IH]; [done|].
  cbn [map List.find]. rewrite invalidate_jid.
  by destruct (bool_decide (jid j0 = job)).
Qed.

Lemma findJob_invalidateAll (names : list string) (l : list Job) (job : nat) (j : Job) :
  findJob l job = Some j → isValid j = false →
  ∃ j', findJob (invalidateAll names l) job = Some j' ∧ isValid j' = false.
Proof.
  unfold invalidateAll. revert l j.
  induction names as [|n names IH]; intros l j Hfind Hinvalid; [by exists j|].
  cbn [foldl]. apply (IH _ (invalidate n j)).
  - by rewrite findJob_invalidate, Hfind.
  - by rewrite invalidate_isValid, Hinvalid.
Qed.

(** *** What tracing the dependencies of a node touches *)

(** The loop over the dependencies only appends: new valid jobs to
    [pendingJobs], and their [startTracingNode] callbacks to the tick
    queue. *)
Lemma traceDependencies_frame (name : string) (deps : list string)
    (g : Graph) (added : list string) :
  ∃ newJobs : list Job,
    pendingJobs (foldl (traceDependency name) (g, added) deps).1
      = pendingJobs g ++ newJobs
    ∧ nextTicks (foldl (traceDependency name) (g, added) deps).1
      = nextTicks g ++ map (fun j => StartTracingNode (jid j)) newJobs
    ∧ awaiting (foldl (traceDependency name) (g, added) deps).1 = awaiting g
    ∧ permanentNodes (foldl (traceDependency name) (g, added) deps).1
      = permanentNodes g.
Proof.
  revert g added. induction deps as [|d deps IH]; intros g added.
  - exists []. cbn. by rewrite !app_nil_r.
  - cbn [foldl].
    destruct (traceDependency name (g, added) d) as [g1 added1] eqn:Hstep.
    assert (∃ new1 : list Job,
              pendingJobs g1 = pendingJobs g ++ new1
              ∧ nextTicks g1 = nextTicks g ++ map (fun j => StartTracingNode (jid j)) new1
              ∧ awaiting g1 = awaiting g
              ∧ permanentNodes g1 = permanentNodes g) as (new1 & Hp & Ht & Ha & Hperm).
    { unfold traceDependency in Hstep.
      destruct (negb (isNodeDefined (nodes g) d)
                && negb (isNodePending (pendingJobs g) d)).
      - exists [ {| jid := jobCount g; node := d; isValid := true |} ].
        destruct (negb (isNodeDefined (nodes (traceNode g d)) d));
          injection Hstep as <- _; done.
      - exists []. rewrite !app_nil_r.
        destruct (negb (isNodeDefined (nodes g) d));
          injection Hstep as <- _; done. }
    destruct (IH g1 added1) as (new2 & Hp2 & Ht2 & Ha2 & Hperm2).
    exists (new1 ++ new2). rewrite Hp2, Ht2, Ha2, Hperm2, Hp, Ht, Ha, Hperm.
    by rewrite map_app, !app_assoc.
Qed.


(** *** The callback of [getDependencies] *)

Lemma step_callback (g : Graph) (job : nat) (result : string + list string) :
  job ∈ awaiting g →
  step g (Callback job result)
  = onDependencies
      (with_awaiting g (List.filter (fun k => negb (bool_decide (k = job))) (awaiting g)))
      job result.
Proof. intros Hin. cbn [step]. by rewrite (bool_decide_true _ Hin). Qed.

(** A callback with dependencies for a valid job: the job leaves
    [pendingJobs], jobs for untraced dependencies join it, and the
    completion check is queued behind their [startTracingNode]
    callbacks. *)
Lemma onDependencies_valid (g : Graph) (job : nat) (j : Job) (deps : list string) :
  findJob (pendingJobs g) job = Some j → isValid j = true →
  ∃ newJobs : list Job,
    pendingJobs (onDependencies g job (inr deps)).1
      = pull (pendingJobs g) job ++ newJobs
    ∧ nextTicks (onDependencies g job (inr deps)).1
      = nextTicks g ++ map (fun j => StartTracingNode (jid j)) newJobs
                    ++ [CheckComplete]
    ∧ awaiting (onDependencies g job (inr deps)).1 = awaiting g
    ∧ Complete ∉ (onDependencies g job (inr deps)).2.
Proof.
  intros Hfind Hvalid. unfold onDependencies. rewrite Hfind, Hvalid. cbn [negb].
  set (start :=
         if negb (isNodeDefined (nodes (removeJob g job)) (node j))
         then (with_nodes (removeJob g job)
                 (addNode (nodes (removeJob g job)) (node j)), [node j])
         else (removeJob g job, [])).
  assert (pendingJobs start.1 = pull (pendingJobs g) job
          ∧ nextTicks start.1 = nextTicks g
          ∧ awaiting start.1 = awaiting g) as (Hp & Ht & Ha).
  { unfold start. by destruct (negb (isNodeDefined (nodes (removeJob g job)) (node j))). }
  destruct start as [g1 added1]. cbn [fst] in Hp, Ht, Ha.
  destruct (traceDependencies_frame (node j) deps g1 added1)
    as (newJobs & Hp2 & Ht2 & Ha2 & _).
  destruct (foldl (traceDependency (node j)) (g1, added1) deps) as [g2 added2].
  cbn [fst snd] in *. exists newJobs.
  cbn [pendingJobs nextTicks awaiting with_nextTicks].
  rewrite Hp2, Ht2, Ha2, Hp, Ht, Ha, <-app_assoc. repeat split.
  intros (n & Hn & _)%list_elem_of_fmap. discriminate.
Qed.

(** C10. When the [getDependencies] callback of an awaited job reports an
    error, the graph emits exactly the [error] event carrying the error
    and the job's node, removes the job from [pendingJobs] and leaves the
    nodes as they are. Nothing is assumed about the job's [isValid] flag:
    it holds for a job invalidated while the resolution was in flight as
    for a valid one. *)
Theorem error_reported_even_if_invalid (g : Graph) (job : nat) (j : Job)
    (err : string) :
  job ∈ awaiting g →
  findJob (pendingJobs g) job = Some j →
  (step g (Callback job (inl err))).2 = [Error err (node j)]
  ∧ pendingJobs (step g (Callback job (inl err))).1 = pull (pendingJobs g) job
  ∧ findJob (pendingJobs (step g (Callback job (inl err))).1) job = None
  ∧ nodes (step g (Callback job (inl err))).1 = nodes g.
Proof.
  intros Hin Hfind. rewrite (step_callback _ _ _ Hin).
  unfold onDependencies. cbn [pendingJobs with_awaiting]. rewrite Hfind.
  cbn [fst snd removeJob with_pendingJobs pendingJobs nodes with_awaiting].
  repeat split. apply findJob_pull_same.
Qed.

(** *** Invalidated jobs *)

Ltac fields :=
  cbn [fst snd nodes permanentNodes pendingJobs nextTicks awaiting jobCount
       with_nodes with_permanentNodes with_pendingJobs with_nextTicks
       with_awaiting removeJob negb].

(** C4. Let a pending job have been invalidated. When its
    [startTracingNode] callback runs (the check before dispatch), the job
    is dropped: [getDependencies] is not called, the nodes stay as they
    are and no event is emitted. When the callback of its
    [getDependencies] call arrives (the check after dispatch), with
    dependencies or with an error, the nodes and edges stay as they are,
    no [added] event is emitted, no job or tick callback is created and
    the job leaves [pendingJobs]. And no action makes the job valid again
    while it is pending. *)
Theorem invalid_job_never_mutates (g : Graph) (job : nat) (j : Job) :
  findJob (pendingJobs g) job = Some j →
  isValid j = false →
  (∀ rest, nextTicks g = StartTracingNode job :: rest →
     step g Tick = (removeJob (with_nextTicks g rest) job, []))
  ∧ (∀ result, job ∈ awaiting g →
       nodes (step g (Callback job result)).1 = nodes g
       ∧ (∀ n, Added n ∉ (step g (Callback job result)).2)
       ∧ pendingJobs (step g (Callback job result)).1 = pull (pendingJobs g) job
       ∧ nextTicks (step g (Callback job result)).1 = nextTicks g)
  ∧ (∀ a j', findJob (pendingJobs (step g a).1) job = Some j' →
       isValid j' = false).
Proof.
  intros Hfind Hinvalid. split; [|split].
  - intros rest Hticks. cbn [step]. rewrite Hticks. cbn [runTask].
    unfold startTracingNode. cbn [pendingJobs with_nextTicks].
    by rewrite Hfind, Hinvalid.
  - intros result Hin. rewrite (step_callback _ _ _ Hin).
    unfold onDependencies. cbn [pendingJobs with_awaiting]. rewrite Hfind.
    destruct result as [err|deps].
    + cbn. repeat split. intros n Hn%list_elem_of_singleton. discriminate.
    + rewrite Hinvalid. cbn. repeat split. intros n Hn. by apply elem_of_nil in Hn.
  - intros a j'. destruct a as [name|name|name| |k result]; cbn [step fst].
    + unfold traceNode. cbn [pendingJobs].
      rewrite (findJob_app _ _ _ _ Hfind). by intros [= <-].
    + rewrite pruneNode_unfold.
      destruct (isNodeDefined (nodes g) name).
      * cbn [fst pendingJobs with_pendingJobs].
        destruct (findJob_invalidateAll
                    (pruneFromNode (nodes g) name (permanentNodes g)).2
                    _ _ _ Hfind Hinvalid) as (j1 & -> & Hj1).
        by intros [= <-].
      * destruct (isNodePending (pendingJobs g) name);
          cbn [fst pendingJobs with_pendingJobs].
        -- rewrite findJob_invalidate, Hfind. intros [= <-].
           by rewrite invalidate_isValid, Hinvalid.
        -- rewrite Hfind. by intros [= <-].
    + unfold setNodeAsPermanent. fields. rewrite Hfind. by intros [= <-].
    + destruct (nextTicks g) as [|t rest]; cbn [fst].
      { rewrite Hfind. by intros [= <-]. }
      destruct t as [k|]; cbn [runTask fst].
      * unfold startTracingNode. cbn [pendingJobs with_nextTicks].
        destruct (findJob (pendingJobs g) k) as [jk|] eqn:Hk;
          [|fields; rewrite Hfind; by intros [= <-]].
        destruct (isValid jk); fields.
        -- rewrite Hfind. by intros [= <-].
        -- destruct (decide (k = job)) as [->|Hne].
           ++ by rewrite findJob_pull_same.
           ++ rewrite (findJob_pull_other _ _ _ Hne), Hfind. by intros [= <-].
      * unfold checkComplete. cbn [pendingJobs with_nextTicks].
        destruct (pendingJobs g) eqn:Hpend; fields; rewrite ?Hpend, Hfind; by intros [= <-].
    + case_bool_decide as Hin; cbn [fst]; [|rewrite Hfind; by intros [= <-]].
      destruct (decide (k = job)) as [->|Hne].
      * unfold onDependencies. cbn [pendingJobs with_awaiting]. rewrite Hfind.
        destruct result as [err|deps]; [|rewrite Hinvalid]; fields;
          by rewrite findJob_pull_same.
      * unfold onDependencies at 1. cbn [pendingJobs with_awaiting].
        destruct (findJob (pendingJobs g) k) as [jk|] eqn:Hk;
          [|fields; rewrite Hfind; by intros [= <-]].
        destruct result as [err|deps].
        { fields. rewrite (findJob_pull_other _ _ _ Hne), Hfind. by intros [= <-]. }
        destruct (isValid jk) eqn:Hvalid.
        -- destruct (onDependencies_valid
                       (with_awaiting g
                          (List.filter (fun k0 => negb (bool_decide (k0 = k)))
                             (awaiting g)))
                       k jk deps Hk Hvalid) as (newJobs & Hp & _).
           unfold onDependencies in Hp. cbn [pendingJobs with_awaiting] in Hp.
           rewrite Hk, Hvalid in Hp. cbn [negb] in Hp. cbn [negb]. rewrite Hp.
           rewrite (findJob_app _ newJobs job j); [by intros [= <-]|].
           by rewrite (findJob_pull_other _ _ _ Hne).
        -- fields. rewrite (findJob_pull_other _ _ _ Hne), Hfind. by intros [= <-].
Qed.


Lemma error_reported_even_if_invalid_witness :
  let g := final createGraph [TraceNode "a"; Tick; PruneNode "a"] in
  findJob (pendingJobs g) 0 = Some {| jid := 0; node := "a"; isValid := false |}
  ∧ (step g (Callback 0 (inl "boom"))).2 = [Error "boom" "a"].
Proof.
  intros g. split; [reflexivity|].
  exact (proj1 (error_reported_even_if_invalid g 0
                  {| jid := 0; node := "a"; isValid := false |} "boom"
                  (list_elem_of_here 0 []) eq_refl)).
Defined.

Lemma invalid_job_never_mutates_witness :
  let g := final createGraph [TraceNode "a"; Tick; PruneNode "a"] in
  nodes (step g (Callback 0 (inr ["b"]))).1 = nodes g
  ∧ (∀ n, Added n ∉ (step g (Callback 0 (inr ["b"]))).2).
Proof.
  intros g.
  destruct (proj1 (proj2 (invalid_job_never_mutates g 0
                            {| jid := 0; node := "a"; isValid := false |}
                            eq_refl eq_refl))
              (inr ["b"]) (list_elem_of_here 0 []))
    as (Hnodes & Hadded & _).
  exact (conj Hnodes Hadded).
Defined.


(** *** The [complete] event *)



Lemma Complete_not_pruned (names : list string) : Complete ∉ map Pruned names.
Proof. intros (n & Hn & _)%list_elem_of_fmap. discriminate. Qed.

Lemma pruneNode_events (g : Graph) (x : string) : Complete ∉ (pruneNode g x).2.
Proof.
  rewrite pruneNode_unfold. destruct (isNodeDefined (nodes g) x).
  - apply Complete_not_pruned.
  - destruct (isNodePending (pendingJobs g) x).
    + apply (Complete_not_pruned [x]).
    + apply not_elem_of_nil.
Qed.


Lemma checks_app (g : Graph) (ts : list Task) :
  checks (with_nextTicks g (nextTicks g ++ ts))
  = checks g + checks (with_nextTicks g ts).
Proof.
  unfold checks. cbn [nextTicks with_nextTicks].
  by rewrite List.filter_app, length_app.
Qed.

Lemma checks_starts (newJobs : list Job) :
  List.filter (fun t => match t with CheckComplete => true | _ => false end)
    (map (fun j => StartTracingNode (jid j)) newJobs) = [].
Proof. induction newJobs as [|j l IH]; [done|]. by cbn. Qed.

(** What a callback with dependencies for a valid job emits and queues. *)
Lemma callback_valid (g : Graph) (job : nat) (j : Job) (deps : list string) :
  job ∈ awaiting g →
  findJob (pendingJobs g) job = Some j → isValid j = true →
  (Complete ∉ (step g (Callback job (inr deps))).2)
  ∧ checks (step g (Callback job (inr deps))).1 = S (checks g).
Proof.
  intros Hin Hfind Hvalid. rewrite (step_callback _ _ _ Hin).
  destruct (onDependencies_valid
              (with_awaiting g (List.filter (fun k => negb (bool_decide (k = job)))
                                  (awaiting g)))
              job j deps Hfind Hvalid) as (newJobs & _ & Ht & _ & Hev).
  split; [done|]. unfold checks. rewrite Ht. cbn [nextTicks with_awaiting].
  rewrite !List.filter_app, checks_starts, !length_app. cbn. lia.
Qed.

(** A [complete] event comes from the completion check at the head of
    the tick queue, run while [pendingJobs] is empty. *)
Lemma step_complete (g : Graph) (a : Action) :
  Complete ∈ (step g a).2 →
  a = Tick
  ∧ (∃ rest, nextTicks g = CheckComplete :: rest)
  ∧ pendingJobs g = []
  ∧ pendingJobs (step g a).1 = []
  ∧ (step g a).2 = [Complete].
Proof.
  destruct a as [name|name|name| |k result]; cbn [step snd].
  - by intros ?%elem_of_nil.
  - by intros ?%pruneNode_events.
  - by intros ?%elem_of_nil.
  - destruct (nextTicks g) as [|t rest] eqn:Hticks; [by intros ?%elem_of_nil|].
    destruct t as [k|]; cbn [runTask snd]; [by intros ?%elem_of_nil|].
    unfold checkComplete. cbn [pendingJobs with_nextTicks].
    destruct (pendingJobs g) eqn:Hpend; [|by intros ?%elem_of_nil].
    intros _. cbn [fst snd pendingJobs with_nextTicks]. eauto 10.
  - case_bool_decide as Hin; [|by intros ?%elem_of_nil].
    unfold onDependencies. cbn [pendingJobs with_awaiting].
    destruct (findJob (pendingJobs g) k) as [j|] eqn:Hfind;
      [|by intros ?%elem_of_nil].
    destruct result as [err|deps].
    + cbn [snd]. intros Hc%list_elem_of_singleton. discriminate.
    + destruct (isValid j) eqn:Hvalid; [|by intros ?%elem_of_nil].
      intros Hc. exfalso.
      destruct (callback_valid g k j deps Hin Hfind Hvalid) as [Hno _].
      apply Hno. rewrite (step_callback _ _ _ Hin).
      unfold onDependencies. cbn [pendingJobs with_awaiting].
      by rewrite Hfind, Hvalid.
Qed.




Lemma run_cons (g : Graph) (a : Action) (rest : list Action) :
  run g (a :: rest) = moment g a :: run (step g a).1 rest.
Proof. unfold moment. cbn [run]. by destruct (step g a). Qed.


Lemma completes_cons (m : Moment) (ms : list Moment) :
  completes (m :: ms) = countComplete (emitted m) + completes ms.
Proof.
  unfold completes, countComplete, events. cbn [map concat].
  by rewrite List.filter_app, length_app.
Qed.







(** *** Reachability over forward edges *)


Lemma edge_dom (ns : Nodes) (a b : string) :
  edge ns a b → a ∈ dom ns ∧ b ∈ dom ns.
Proof.
  unfold edge, successorsOf. destruct (ns !! a) as [n|] eqn:Ha; [|set_solver].
  intros Hb. split; [|set_solver]. apply elem_of_dom. eauto.
Qed.

Lemma reach_dom (ns : Nodes) (a b : string) : reach ns a b → b ∈ dom ns.
Proof.
  intros [Ha Hpath]. induction Hpath as [|a b c Hab _ IH]; [done|].
  apply IH. by apply edge_dom in Hab as [_ ?].
Qed.

Lemma reach_refl (ns : Nodes) (a : string) : a ∈ dom ns → reach ns a a.
Proof. by split. Qed.

Lemma reach_step (ns : Nodes) (a b c : string) :
  reach ns a b → edge ns b c → reach ns a c.
Proof. intros [Ha Hab] Hbc. split; [done|]. by eapply rtc_r. Qed.

Lemma elem_of_expand (ns : Nodes) (X : gset string) (y : string) :
  y ∈ expand ns X ↔ y ∈ X ∨ ∃ x, x ∈ X ∧ edge ns x y.
Proof. unfold expand, edge. rewrite elem_of_union, elem_of_set_bind. done. Qed.

Lemma expand_dom (ns : Nodes) (X : gset string) :
  X ⊆ dom ns → expand ns X ⊆ dom ns.
Proof.
  intros HX y [Hy|(x & _ & Hxy)]%elem_of_expand; [by apply HX|].
  by apply edge_dom in Hxy as [_ ?].
Qed.

Lemma expand_grows (ns : Nodes) (X : gset string) : X ⊆ expand ns X.
Proof. intros y Hy. apply elem_of_expand. by left. Qed.

Lemma iter_expand_sound (ns : Nodes) (k : nat) (X : gset string) (y : string) :
  y ∈ Nat.iter k (expand ns) X → ∃ x, x ∈ X ∧ rtc (edge ns) x y.
Proof.
  revert y. induction k as [|k IH]; intros y; cbn [Nat.iter nat_rect].
  - intros Hy. by exists y.
  - intros [Hy|(z & Hz & Hzy)]%elem_of_expand; [by apply IH|].
    destruct (IH z Hz) as (x & Hx & Hxz). exists x. split; [done|].
    by eapply rtc_r.
Qed.

Lemma iter_expand_fixed (ns : Nodes) (k : nat) (X : gset string) :
  expand ns X = X → Nat.iter k (expand ns) X = X.
Proof.
  intros Hfix. induction k as [|k IH]; [done|].
  cbn [Nat.iter nat_rect]. fold (Nat.iter k (expand ns) X). by rewrite IH.
Qed.

Lemma iter_expand_grows (ns : Nodes) (k : nat) (X : gset string) :
  X ⊆ Nat.iter k (expand ns) X.
Proof.
  induction k as [|k IH]; [done|].
  cbn [Nat.iter nat_rect]. fold (Nat.iter k (expand ns) X).
  etrans; [exact IH|apply expand_grows].
Qed.

(** Once the rounds outnumber the nodes still missing, the set is closed
    under [expand]. *)
Lemma iter_expand_closed (ns : Nodes) (k : nat) (X : gset string) :
  X ⊆ dom ns → size (dom ns) ≤ size X + k →
  expand ns (Nat.iter k (expand ns) X) = Nat.iter k (expand ns) X.
Proof.
  revert X. induction k as [|k IH]; intros X Hdom Hsize.
  - cbn [Nat.iter nat_rect].
    assert (X = dom ns) as HX by (apply set_subseteq_size_eq; [done|lia]).
    apply (anti_symm (⊆)); [|apply expand_grows].
    rewrite HX at 2. by apply expand_dom.
  - rewrite Nat.iter_succ_r.
    destruct (decide (expand ns X = X)) as [Hfix|Hgrow].
    + by rewrite Hfix, iter_expand_fixed.
    + apply IH; [by apply expand_dom|].
      assert (X ⊂ expand ns X) as Hstrict.
      { split; [apply expand_grows|]. intros Hback. apply Hgrow.
        apply (anti_symm (⊆)); [done|apply expand_grows]. }
      apply subset_size in Hstrict. lia.
Qed.

(** [reachableFrom] computes reachability from the defined seeds. *)
Lemma elem_of_reachableFrom (ns : Nodes) (seeds : gset string) (y : string) :
  y ∈ reachableFrom ns seeds ↔ ∃ s, s ∈ seeds ∧ reach ns s y.
Proof.
  unfold reachableFrom. split.
  - intros (s & [Hs Hdom]%elem_of_intersection & Hpath)%iter_expand_sound.
    exists s. by repeat split.
  - intros (s & Hs & Hdom & Hpath). revert y Hpath. apply rtc_ind_r.
    + apply iter_expand_grows. by apply elem_of_intersection.
    + intros b c Hsb Hbc IH. rewrite <-iter_expand_closed.
      * apply elem_of_expand. right. by exists b.
      * set_solver.
      * rewrite size_dom. lia.
Qed.


(** *** Edges after removals *)

Lemma successorsOf_removeNode (ns : Nodes) (n a : string) :
  successorsOf (removeNode ns n) a =
    if decide (a = n) then ∅ else successorsOf ns a ∖ {[n]}.
Proof.
  unfold successorsOf. rewrite lookup_removeNode, dom_removeNode.
  case_decide as Ha; [done|].
  destruct (ns !! a) as [nd|]; cbn; set_solver.
Qed.

Lemma edge_removeNode (ns : Nodes) (n a b : string) :
  edge (removeNode ns n) a b ↔ edge ns a b ∧ a ≠ n ∧ b ≠ n.
Proof.
  unfold edge. rewrite successorsOf_removeNode. case_decide; set_solver.
Qed.

Lemma edge_removeNodes (l : list string) (ns : Nodes) (a b : string) :
  edge (foldl removeNode ns l) a b ↔ edge ns a b ∧ (a ∉ l) ∧ (b ∉ l).
Proof.
  revert ns. induction l as [|n l IH]; intros ns; cbn [foldl].
  - pose proof (not_elem_of_nil a). pose proof (not_elem_of_nil b). tauto.
  - rewrite IH, edge_removeNode, !not_elem_of_cons. tauto.
Qed.

(** A path all of whose nodes are kept is a path of the pruned graph. *)
Lemma reach_removeNodes (l : list string) (ns : Nodes) (keep : string → Prop)
    (p n : string) :
  (∀ m, keep m → m ∉ l) →
  (∀ a b, edge ns a b → keep b → keep a) →
  reach ns p n → keep n → reach (foldl removeNode ns l) p n.
Proof.
  intros Hkeep Hback [Hp Hpath]. revert n Hpath.
  apply (rtc_ind_r (fun n => keep n → reach (foldl removeNode ns l) p n)).
  - intros Hk. apply reach_refl. rewrite dom_removeNodes.
    apply elem_of_difference. split; [done|].
    rewrite elem_of_list_to_set. by apply Hkeep.
  - intros b c _ Hbc IH Hk.
    eapply reach_step; [apply IH; by eapply Hback|].
    apply edge_removeNodes. repeat split; [done|apply Hkeep..]; [|done].
    by eapply Hback.
Qed.

(** *** What [pruneFromNode] removes *)

Lemma elem_of_pruned (ns : Nodes) (x : string) (ignore : list string) (n : string) :
  n ∈ (pruneFromNode ns x ignore).2
  ↔ n = x ∨ (reach ns x n
             ∧ ¬ ∃ p, p ∈ ignore ∧ reach (removeNode ns x) p n).
Proof.
  unfold pruneFromNode. cbn [snd].
  rewrite elem_of_cons, elem_of_elements, !elem_of_difference,
    !elem_of_reachableFrom, elem_of_singleton.
  split.
  - intros [->|[[(s & ->%elem_of_singleton & Hreach) Hne] Hlive]]; [by left|].
    right. split; [done|]. intros (p & Hp & Hpn). apply Hlive.
    exists p. by rewrite elem_of_list_to_set.
  - intros [->|[Hreach Hlive]]; [by left|].
    destruct (decide (n = x)) as [->|Hne]; [by left|]. right.
    repeat split; [by exists x; rewrite elem_of_singleton|done|].
    intros (p & Hp%elem_of_list_to_set & Hpn). apply Hlive. by exists p.
Qed.

Lemma pruneNode_permanentNodes (g : Graph) (x : string) :
  permanentNodes (pruneNode g x).1 = permanentNodes g.
Proof.
  rewrite pruneNode_unfold. destruct (isNodeDefined (nodes g) x); [done|].
  by destruct (isNodePending (pendingJobs g) x).
Qed.

Lemma pruneNode_nodes (g : Graph) (x : string) :
  nodes (pruneNode g x).1 =
    if isNodeDefined (nodes g) x
    then (pruneFromNode (nodes g) x (permanentNodes g)).1
    else nodes g.
Proof.
  rewrite pruneNode_unfold. destruct (isNodeDefined (nodes g) x); [done|].
  by destruct (isNodePending (pendingJobs g) x).
Qed.


(** A path from a kept node through a set of kept nodes that is closed
    under edges is a path of the pruned graph. *)
Lemma reach_removeNodes_closed (l : list string) (ns : Nodes)
    (keep : string → Prop) (p n : string) :
  (∀ m, keep m → m ∉ l) →
  (∀ a b, edge ns a b → keep a → keep b) →
  keep p → reach ns p n → reach (foldl removeNode ns l) p n ∧ keep n.
Proof.
  intros Hkeep Hforward Hkp [Hp Hpath]. revert n Hpath.
  apply (rtc_ind_r (fun n => reach (foldl removeNode ns l) p n ∧ keep n)).
  - split; [|done]. apply reach_refl. rewrite dom_removeNodes.
    apply elem_of_difference. split; [done|].
    rewrite elem_of_list_to_set. by apply Hkeep.
  - intros b c _ Hbc [IH Hkb]. pose proof (Hforward _ _ Hbc Hkb) as Hkc.
    split; [|done]. eapply reach_step; [exact IH|].
    apply edge_removeNodes. repeat split; [done|by apply Hkeep..].
Qed.

(** *** Pruning and the permanent roots *)


(** The graph of [A → B → C] with [C → B], traced from [A]. *)
Lemma traced_cycle :
  events (run createGraph
            [TraceNode "A"; Tick; Callback 0 (inr ["B"]); Tick; Tick;
             Callback 1 (inr ["C"]); Tick; Tick; Callback 2 (inr ["B"]); Tick])
  = [Added "A"; Added "B"; Added "C"; Complete].
Proof. reflexivity. Qed.

(** Pruning [A] in that graph: without permanent roots the three nodes
    go, each with its [pruned] event; with the permanent root [C] only [A]
    goes. *)
Lemma prune_scenario :
  let g := final createGraph
             [TraceNode "A"; Tick; Callback 0 (inr ["B"]); Tick; Tick;
              Callback 1 (inr ["C"]); Tick; Tick; Callback 2 (inr ["B"]); Tick] in
  dom (nodes (pruneNode g "A").1) = ∅
  ∧ length (pruneNode g "A").2 = 3
  ∧ dom (nodes (pruneNode (setNodeAsPermanent g "C") "A").1) = {[ "B"; "C" ]}
  ∧ (pruneNode (setNodeAsPermanent g "C") "A").2 = [Pruned "A"].
Proof.
  intros g. split; [|split; [|split]]; vm_compute; reflexivity.
Qed.

(** C1, counterexample. With the permanent root [p] and the nodes [a]
    and [d] traced on their own, pruning [a] leaves [d], which no
    permanent root reaches. *)
Lemma prune_leaves_unrelated_node : ¬ prune_leaves_only_reachable.
Proof.
  intros H.
  set (g := final createGraph
              [SetNodeAsPermanent "p"; TraceNode "p"; TraceNode "a";
               TraceNode "d"; Tick; Tick; Tick; Callback 0 (inr []);
               Callback 1 (inr []); Callback 2 (inr [])]).
  destruct (H g "a" "d") as (p & Hp & Hreach).
  - apply elem_of_dom. vm_compute. eauto.
  - rewrite pruneNode_permanentNodes in Hp.
    assert (p = "p") as -> by (by apply list_elem_of_singleton in Hp).
    assert ("d" ∈ reachableFrom (nodes (pruneNode g "a").1) {[ "p" ]}) as Hin.
    { apply elem_of_reachableFrom. exists "p". by rewrite elem_of_singleton. }
    assert (bool_decide ("d" ∈ reachableFrom (nodes (pruneNode g "a").1) {[ "p" ]})
            = false) as Hout by (vm_compute; reflexivity).
    by apply bool_decide_eq_false in Hout.
Qed.

(** C1, as amended. Take a graph in which every node is reachable over
    forward edges from the node [x] or from some permanent root. After
    [pruneNode(x)], [x] is not in the node map, every node still in the
    map is reachable from some permanent root through nodes of the map
    (so every node that no permanent root reaches has been removed), and
    every node that was removed was reachable from [x]. *)
Theorem prune_keeps_reachable_nodes (g : Graph) (x : string) :
  (∀ n, n ∈ dom (nodes g) →
     reach (nodes g) x n ∨ ∃ p, p ∈ permanentNodes g ∧ reach (nodes g) p n) →
  (x ∉ dom (nodes (pruneNode g x).1))
  ∧ (∀ n, n ∈ dom (nodes (pruneNode g x).1) →
       ∃ p, p ∈ permanentNodes (pruneNode g x).1
            ∧ reach (nodes (pruneNode g x).1) p n)
  ∧ (∀ n, n ∈ dom (nodes g) → n ∉ dom (nodes (pruneNode g x).1) →
       reach (nodes g) x n).
Proof.
  intros Hcover. rewrite pruneNode_permanentNodes, pruneNode_nodes.
  destruct (isNodeDefined (nodes g) x) eqn:Hdef.
  - apply isNodeDefined_dom in Hdef.
    pose proof (elem_of_pruned (nodes g) x (permanentNodes g)) as Hpruned.
    rewrite pruneFromNode_dom.
    set (pruned := (pruneFromNode (nodes g) x (permanentNodes g)).2) in *.
    assert ((pruneFromNode (nodes g) x (permanentNodes g)).1
            = foldl removeNode (nodes g) pruned) as -> by done.
    split; [|split].
    + rewrite elem_of_difference, elem_of_list_to_set, Hpruned. tauto.
    + intros n [Hn Hkept]%elem_of_difference.
      rewrite elem_of_list_to_set, Hpruned in Hkept.
      destruct (decide (n ∈ reachableFrom (removeNode (nodes g) x)
                              (list_to_set (permanentNodes g)))) as [Hlive|Hdead].
      * apply elem_of_reachableFrom in Hlive as (p & Hp & Hpn).
        apply elem_of_list_to_set in Hp. exists p. split; [done|].
        refine (proj1 (reach_removeNodes_closed
                         (elements (reachableFrom (nodes g) {[x]} ∖ {[x]}
                                    ∖ reachableFrom (removeNode (nodes g) x)
                                        (list_to_set (permanentNodes g))))
                         (removeNode (nodes g) x)
                         (fun m => m ∈ reachableFrom (removeNode (nodes g) x)
                                         (list_to_set (permanentNodes g)))
                         p n _ _ _ Hpn)).
        -- intros m Hm. rewrite elem_of_elements. set_solver.
        -- intros a b Hab (s & Hs & Hsa)%elem_of_reachableFrom.
           apply elem_of_reachableFrom. exists s. split; [done|].
           by eapply reach_step.
        -- apply elem_of_reachableFrom. exists p.
           rewrite elem_of_list_to_set. split; [done|].
           apply reach_refl. by destruct Hpn.
      * assert (¬ ∃ p, p ∈ permanentNodes g ∧ reach (removeNode (nodes g) x) p n)
          as Hnone.
        { intros (p & Hp & Hpn). apply Hdead, elem_of_reachableFrom.
          exists p. by rewrite elem_of_list_to_set. }
        assert (¬ reach (nodes g) x n) as Hfar by tauto.
        destruct (Hcover n Hn) as [?|(p & Hp & Hpn)]; [done|].
        exists p. split; [done|].
        apply (reach_removeNodes pruned (nodes g)
                 (fun m => ¬ reach (nodes g) x m)); [| |done|done].
        -- intros m Hm [->|[Hxm _]]%Hpruned; [|done].
           by apply Hm, reach_refl.
        -- intros a b Hab Hb Ha. apply Hb. by eapply reach_step.
    + intros n Hn Hgone. rewrite elem_of_difference, elem_of_list_to_set in Hgone.
      destruct (decide (n ∈ pruned)) as [Hin|Hout]; [|tauto].
      apply Hpruned in Hin as [->|[? _]]; [by apply reach_refl|done].
  - apply not_true_iff_false in Hdef. rewrite isNodeDefined_dom in Hdef.
    split; [done|]. split; [|done].
    intros n Hn. destruct (Hcover n Hn) as [[Hx _]|?]; done.
Qed.


Lemma reach_computed (ns : Nodes) (x n : string) :
  bool_decide (n ∈ reachableFrom ns {[x]}) = true → reach ns x n.
Proof.
  intros (s & ->%elem_of_singleton & Hreach)%bool_decide_eq_true%elem_of_reachableFrom.
  done.
Qed.

(** The graph of [A → B → C] with [C → B], traced from [A], with the
    permanent root [C]: pruning [A] keeps [B] and [C]. *)
Lemma prune_keeps_reachable_nodes_witness :
  let g := setNodeAsPermanent
             (final createGraph
                [TraceNode "A"; Tick; Callback 0 (inr ["B"]); Tick; Tick;
                 Callback 1 (inr ["C"]); Tick; Tick; Callback 2 (inr ["B"]); Tick])
             "C" in
  ("A" ∉ dom (nodes (pruneNode g "A").1))
  ∧ (∀ n, n ∈ dom (nodes (pruneNode g "A").1) →
       ∃ p, p ∈ permanentNodes (pruneNode g "A").1
            ∧ reach (nodes (pruneNode g "A").1) p n)
  ∧ (∀ n, n ∈ dom (nodes g) → n ∉ dom (nodes (pruneNode g "A").1) →
       reach (nodes g) "A" n).
Proof.
  intros g. apply (prune_keeps_reachable_nodes g "A").
  intros n Hn. left. apply reach_computed.
  apply elem_of_elements in Hn. vm_compute in Hn.
  repeat (apply elem_of_cons in Hn as [->|Hn]; [vm_compute; reflexivity|]).
  by apply elem_of_nil in Hn.
Defined.

End GraphFacts.

(** ** More on the jobs *)

Module JobsExtra.
Import Jobs.

(** *** Path and package identifiers *)

Lemma filter_split (f : string → bool) (ids : list string) :
  List.filter f ids ++ List.filter (fun id => negb (f id)) ids ≡ₚ ids.
Proof.
  induction ids as [|id ids IH]; [done|].
  cbn [List.filter]. destruct (f id); cbn [negb app].
  - by rewrite IH.
  - rewrite <-Permutation_middle. by rewrite IH.
Qed.

Lemma elem_of_filter_bool (f : string → bool) (ids : list string) (id : string) :
  id ∈ List.filter f ids ↔ id ∈ ids ∧ f id = true.
Proof.
  induction ids as [|x ids IH]; cbn [List.filter].
  - rewrite elem_of_nil. tauto.
  - destruct (f x) eqn:Hx; rewrite ?elem_of_cons, IH; [naive_solver|].
    split; [naive_solver|]. intros [[->|?] ?]; [congruence|done].
Qed.

(** X1. The path identifiers and the package identifiers of a record split
    its dependency identifiers: each keeps the identifiers beginning with a
    dot or absolute, respectively all the others, so every identifier lands
    in exactly one of the two lists and together they are the identifiers
    again, up to order. *)
Theorem identifiers_split (path_isAbsolute : string → bool) (ref : Ref)
    (st : store.t) (c c' : CacheData) (ids : list string) :
  store.dependencyIdentifiers st ref c = (Resolved ids, c') →
  ∃ pth pkg : list string,
    pathDependencyIdentifiers path_isAbsolute ref st c = (Resolved pth, c')
    ∧ packageDependencyIdentifiers path_isAbsolute ref st c = (Resolved pkg, c')
    ∧ pth ++ pkg ≡ₚ ids
    ∧ (∀ id, id ∈ pth ↔ id ∈ ids ∧ (startsWithDot id || path_isAbsolute id) = true)
    ∧ (∀ id, id ∈ pkg ↔ id ∈ ids ∧ (startsWithDot id || path_isAbsolute id) = false).
Proof.
  intros Hids.
  exists (List.filter (fun id => startsWithDot id || path_isAbsolute id) ids),
    (List.filter (fun id => negb (startsWithDot id || path_isAbsolute id)) ids).
  split; [|split; [|split; [|split]]].
  - unfold pathDependencyIdentifiers, andThen. by rewrite Hids.
  - unfold packageDependencyIdentifiers, andThen. rewrite Hids. unfold resolve.
    do 2 f_equal. apply List.filter_ext. intros id. by rewrite negb_orb.
  - apply filter_split.
  - intros id. apply elem_of_filter_bool.
  - intros id. rewrite elem_of_filter_bool, negb_true_iff. done.
Qed.

Lemma identifiers_split_witness :
  ∃ pth pkg : list string,
    pathDependencyIdentifiers Fixtures.posix_isAbsolute {| name := "test.js" |}
      (Fixtures.testStore ".js" true false [] ["foo"; "./bar"; "/woo.js"] ∅ ∅)
      emptyCache = (Resolved pth, emptyCache)
    ∧ pth ++ pkg ≡ₚ ["foo"; "./bar"; "/woo.js"].
Proof.
  destruct (identifiers_split Fixtures.posix_isAbsolute {| name := "test.js" |}
              (Fixtures.testStore ".js" true false [] ["foo"; "./bar"; "/woo.js"] ∅ ∅)
              emptyCache emptyCache ["foo"; "./bar"; "/woo.js"] eq_refl)
    as (pth & pkg & Hpth & _ & Hperm & _).
  exists pth, pkg. by split.
Defined.

(** *** Cleaned identifiers *)

Lemma indexOf_absent (c : ascii) (s : string) :
  JS.indexOf (String c EmptyString) s = (-1)%Z ↔ upTo c s = s.
Proof.
  unfold JS.indexOf. induction s as [|b s IH]; [done|].
  rewrite JobsFacts.index_char_cons. cbn [upTo].
  destruct (bool_decide (b = c)); [split; intros; discriminate|].
  destruct (String.index 0 (String c EmptyString) s) as [n|];
    cbn [fmap option_fmap option_map].
  - split; [lia|]. intros [= Hs]. apply IH in Hs. lia.
  - split; [|done]. intros _. f_equal. by apply IH.
Qed.

Lemma upTo_strip (c : ascii) (s : string) :
  isMarker c = true → upTo c (stripFromFirstMarker s) = stripFromFirstMarker s.
Proof.
  intros Hc. induction s as [|b s IH]; [done|].
  cbn [stripFromFirstMarker]. destruct (isMarker b) eqn:Hb; [done|].
  cbn [upTo]. rewrite bool_decide_false by congruence. by rewrite IH.
Qed.

Lemma strip_prefix (s : string) : String.prefix (stripFromFirstMarker s) s = true.
Proof.
  induction s as [|b s IH]; [done|].
  cbn [stripFromFirstMarker]. destruct (isMarker b); [done|].
  cbn [String.prefix]. by destruct (ascii_dec b b).
Qed.

Lemma strip_again (s : string) :
  stripFromFirstMarker (stripFromFirstMarker s) = stripFromFirstMarker s.
Proof.
  induction s as [|b s IH]; [done|].
  cbn [stripFromFirstMarker]. destruct (isMarker b) eqn:Hb; [done|].
  cbn [stripFromFirstMarker]. by rewrite Hb, IH.
Qed.

(** X2. A cleaned identifier is a prefix of the identifier it came from,
    holds none of the characters ['!'], ['?'] and ['#'], and cleaning it
    again changes nothing. *)
Theorem cleanIdentifier_clean (id : string) :
  JS.startsWith id (cleanIdentifier id) = true
  ∧ JS.indexOf "!" (cleanIdentifier id) = (-1)%Z
  ∧ JS.indexOf "?" (cleanIdentifier id) = (-1)%Z
  ∧ JS.indexOf "#" (cleanIdentifier id) = (-1)%Z
  ∧ cleanIdentifier (cleanIdentifier id) = cleanIdentifier id.
Proof.
  rewrite !JobsFacts.cleanIdentifier_strips. unfold JS.startsWith.
  split; [apply strip_prefix|].
  repeat split; [apply indexOf_absent, upTo_strip; reflexivity..|apply strip_again].
Qed.


(** *** Resolving identifiers *)

(** Which rejection [Promise.all] reports: the one that comes first in
    time, and of those that come at the same moment the first in the
    array. *)
Lemma firstRejection_spec (r : Resolver) (ids : list string) :
  match firstRejection (map (promiseOf r) ids) with
  | None => ∀ id, id ∈ ids → ∃ p, r id = Resolved p
  | Some (e, t) =>
      ∃ pre id post,
        ids = pre ++ id :: post
        ∧ r id = Rejected e ∧ t = settledAt r id
        ∧ (∀ x e', x ∈ pre → r x = Rejected e' → settledAt r id < settledAt r x)
        ∧ (∀ x e', x ∈ post → r x = Rejected e' → settledAt r id ≤ settledAt r x)
  end.
Proof.
  induction ids as [|x ids IH]; cbn [map firstRejection].
  - by intros id ?%elem_of_nil.
  - unfold promiseOf at 1. destruct (outcomeOf r x) as [p|e] eqn:Hx.
    + destruct (firstRejection (map (promiseOf r) ids)) as [[e t]|].
      * destruct IH as (pre & id & post & -> & He & -> & Hpre & Hpost).
        exists (x :: pre), id, post.
        split; [done|]. split; [done|]. split; [done|]. split; [|done].
        intros y e' [->|Hy]%elem_of_cons Hrej; [congruence|by eapply Hpre].
      * intros id [->|Hid]%elem_of_cons; [by exists p|by apply IH].
    + destruct (firstRejection (map (promiseOf r) ids)) as [[e' t']|].
      * destruct IH as (pre & id & post & -> & He & -> & Hpre & Hpost).
        destruct (Nat.ltb_spec (settledAt r id) (settledAt r x)) as [Hlt|Hge].
        -- exists (x :: pre), id, post.
           split; [done|]. split; [done|]. split; [done|]. split; [|done].
           intros y e'' [->|Hy]%elem_of_cons Hrej; [done|by eapply Hpre].
        -- exists [], x, (pre ++ id :: post).
           split; [done|]. split; [done|]. split; [done|].
           split; [by intros y e'' ?%elem_of_nil|].
           intros y e'' [Hy|[->|Hy]%elem_of_cons]%elem_of_app Hrej.
           ++ specialize (Hpre _ _ Hy Hrej). lia.
           ++ done.
           ++ specialize (Hpost _ _ Hy Hrej). lia.
      * exists [], x, ids.
        split; [done|]. split; [done|]. split; [done|].
        split; [by intros y e'' ?%elem_of_nil|].
        intros y e'' Hy Hrej. destruct (IH y Hy) as [q Hq]. congruence.
Qed.

Lemma allOf_resolved (r : Resolver) (ids : list string) :
  (∀ id, id ∈ ids → ∃ p, r id = Resolved p) →
  ∃ paths, allOf (map (promiseOf r) ids) = Resolved paths
           ∧ Forall2 (fun id p => r id = Resolved p) ids paths.
Proof.
  intros Hall. exists (values (map (promiseOf r) ids)). split.
  - unfold allOf. pose proof (firstRejection_spec r ids) as Hspec.
    destruct (firstRejection (map (promiseOf r) ids)) as [[e t]|]; [|done].
    destruct Hspec as (pre & id & post & -> & He & _).
    destruct (Hall id) as [p Hp]; [|congruence].
    apply elem_of_app. right. apply list_elem_of_here.
  - induction ids as [|x ids IH]; cbn [map values]; [constructor|].
    destruct (Hall x (list_elem_of_here _ _)) as [p Hp].
    unfold promiseOf at 1. rewrite Hp. constructor; [done|].
    apply IH. intros id Hid. by apply Hall, list_elem_of_further.
Qed.

Lemma allOf_rejected (r : Resolver) (ids : list string) :
  (∃ id, id ∈ ids ∧ ∃ e, r id = Rejected e) →
  ∃ pre id post e,
    ids = pre ++ id :: post
    ∧ r id = Rejected e
    ∧ (∀ x e', x ∈ pre → r x = Rejected e' → settledAt r id < settledAt r x)
    ∧ (∀ x e', x ∈ post → r x = Rejected e' → settledAt r id ≤ settledAt r x)
    ∧ allOf (map (promiseOf r) ids) = Rejected e.
Proof.
  intros (bad & Hin & e0 & Hbad). unfold allOf.
  pose proof (firstRejection_spec r ids) as Hspec.
  destruct (firstRejection (map (promiseOf r) ids)) as [[e t]|].
  - destruct Hspec as (pre & id & post & Hsplit & He & _ & Hpre & Hpost).
    by exists pre, id, post, e.
  - destruct (Hspec bad Hin) as [p Hp]. congruence.
Qed.

Lemma zipObject_lookup (r : string → Outcome string) (ids paths : list string)
    (acc : Obj) (id p : string) :
  Forall2 (fun id p => r id = Resolved p) ids paths →
  foldl (fun (o : Obj) kv => <[kv.1 := kv.2]> o) acc (zip ids paths) !! id = Some p
  ↔ (id ∈ ids ∧ r id = Resolved p) ∨ ((id ∉ ids) ∧ acc !! id = Some p).
Proof.
  intros Hzip. revert acc.
  induction Hzip as [|x q ids paths Hx _ IH]; intros acc; cbn [zip zip_with foldl].
  - pose proof (not_elem_of_nil id). rewrite elem_of_nil. tauto.
  - rewrite IH. cbn [fst snd]. rewrite not_elem_of_cons, elem_of_cons.
    destruct (decide (id = x)) as [->|Hne].
    + rewrite lookup_insert_eq. split.
      * intros [[? ?]|[? [= <-]]]; left; eauto.
      * intros [[_ Hp]|[[? _] _]]; [|done].
        destruct (decide (x ∈ ids)); [left|right]; [done|].
        split; [done|]. congruence.
    + rewrite lookup_insert_ne by done. naive_solver.
Qed.

(** What [resolvePathDependencies] does when it does not use a cached
    entry. *)
Lemma resolvePathDependencies_fresh (ref : Ref) (st : store.t)
    (c c1 c2 : CacheData) (shouldCache : bool) (ids : list string)
    (r : Resolver) :
  store.readCache st ref c = (Resolved tt, c) →
  store.shouldCacheResolvedPathDependencies st ref c = (Resolved shouldCache, c) →
  shouldCache = false ∨ cd_resolvePathDependencies c = None →
  store.pathDependencyIdentifiers st ref c = (Resolved ids, c1) →
  store.resolver st ref c1 = (Resolved r, c2) →
  resolvePathDependencies ref st c =
    match allOf (map (promiseOf r) ids) with
    | Resolved paths =>
        (Resolved (zipObject ids paths),
         set_resolvePathDependencies (zipObject ids paths) c2)
    | Rejected e => (Rejected e, c2)
    end.
Proof.
  intros Hread Hshould Hcase Hids Hres.
  unfold resolvePathDependencies, andThen, all2, cached. rewrite Hread, Hshould.
  cbn [snd].
  assert (andThen (store.pathDependencyIdentifiers st ref) (resolveAll ref st) c
          = match allOf (map (promiseOf r) ids) with
            | Resolved paths => (Resolved (zipObject ids paths), c2)
            | Rejected e => (Rejected e, c2)
            end) as Hrun.
  { unfold resolveAll, andThen, settle, resolve. rewrite Hids, Hres.
    by destruct (allOf (map (promiseOf r) ids)). }
  unfold andThen in Hrun.
  destruct Hcase as [->|Hmiss].
  - destruct (cd_resolvePathDependencies c); rewrite Hrun;
      by destruct (allOf (map (promiseOf r) ids)).
  - rewrite Hmiss. destruct shouldCache; rewrite Hrun;
      by destruct (allOf (map (promiseOf r) ids)).
Qed.

(** X3. When [resolvePathDependencies] resolves the identifiers itself and
    the resolver resolves every path identifier, the job resolves to the
    object that binds exactly the path identifiers, each to the path the
    resolver gave for it, and that object is what it leaves under the
    [resolvePathDependencies] key. *)
Theorem resolvePathDependencies_resolved (ref : Ref) (st : store.t)
    (c c1 c2 : CacheData) (shouldCache : bool) (ids : list string)
    (r : Resolver) :
  store.readCache st ref c = (Resolved tt, c) →
  store.shouldCacheResolvedPathDependencies st ref c = (Resolved shouldCache, c) →
  shouldCache = false ∨ cd_resolvePathDependencies c = None →
  store.pathDependencyIdentifiers st ref c = (Resolved ids, c1) →
  store.resolver st ref c1 = (Resolved r, c2) →
  (∀ id, id ∈ ids → ∃ p, r id = Resolved p) →
  ∃ deps : Obj,
    resolvePathDependencies ref st c
      = (Resolved deps, set_resolvePathDependencies deps c2)
    ∧ ∀ id p, deps !! id = Some p ↔ id ∈ ids ∧ r id = Resolved p.
Proof.
  intros Hread Hshould Hcase Hids Hres Hall.
  destruct (allOf_resolved r ids Hall) as (paths & Hpaths & Hzip).
  exists (zipObject ids paths). split.
  - rewrite (resolvePathDependencies_fresh _ _ _ _ _ _ _ _ Hread Hshould Hcase Hids Hres).
    by rewrite Hpaths.
  - intros id p. unfold zipObject. rewrite (zipObject_lookup r _ _ _ _ _ Hzip).
    rewrite lookup_empty. naive_solver.
Qed.

Lemma resolvePathDependencies_resolved_witness :
  ∃ deps : Obj,
    resolvePathDependencies {| name := "/foo/bar.js" |}
      (Fixtures.testStore ".js" true false [] ["./foo"; "/bar.js"; "./foo"] ∅ ∅)
      emptyCache
    = (Resolved deps, set_resolvePathDependencies deps emptyCache)
    ∧ deps !! "./foo" = Some "./foo test".
Proof.
  destruct (resolvePathDependencies_resolved {| name := "/foo/bar.js" |}
              (Fixtures.testStore ".js" true false [] ["./foo"; "/bar.js"; "./foo"] ∅ ∅)
              emptyCache emptyCache emptyCache false
              ["./foo"; "/bar.js"; "./foo"]
              (Fixtures.immediate (fun id => Resolved (id +:+ " test")))
              eq_refl eq_refl (or_introl eq_refl) eq_refl eq_refl)
    as (deps & Hrun & Hdeps).
  - intros id _. by eexists.
  - exists deps. split; [exact Hrun|]. apply Hdeps. split; [|reflexivity].
    apply list_elem_of_here.
Defined.

(** X4. When the resolver rejects at least one of the path identifiers,
    the job rejects with the reason of the identifier whose rejection
    comes first in time, wherever that identifier stands in the list
    (among rejections that come at the same moment, with the reason of the
    first in the list), and assigns nothing to the cache map. *)
Theorem resolvePathDependencies_rejected (ref : Ref) (st : store.t)
    (c c1 c2 : CacheData) (shouldCache : bool) (ids : list string)
    (r : Resolver) :
  store.readCache st ref c = (Resolved tt, c) →
  store.shouldCacheResolvedPathDependencies st ref c = (Resolved shouldCache, c) →
  shouldCache = false ∨ cd_resolvePathDependencies c = None →
  store.pathDependencyIdentifiers st ref c = (Resolved ids, c1) →
  store.resolver st ref c1 = (Resolved r, c2) →
  (∃ id, id ∈ ids ∧ ∃ e, r id = Rejected e) →
  ∃ pre id post e,
    ids = pre ++ id :: post
    ∧ r id = Rejected e
    ∧ (∀ x e', x ∈ pre → r x = Rejected e' → settledAt r id < settledAt r x)
    ∧ (∀ x e', x ∈ post → r x = Rejected e' → settledAt r id ≤ settledAt r x)
    ∧ resolvePathDependencies ref st c = (Rejected e, c2).
Proof.
  intros Hread Hshould Hcase Hids Hres Hbad.
  destruct (allOf_rejected r ids Hbad)
    as (pre & id & post & e & Hsplit & He & Hpre & Hpost & Hrej).
  exists pre, id, post, e.
  split; [done|]. split; [done|]. split; [done|]. split; [done|].
  rewrite (resolvePathDependencies_fresh _ _ _ _ _ _ _ _ Hread Hshould Hcase Hids Hres).
  by rewrite Hrej.
Qed.

Lemma resolvePathDependencies_rejected_witness :
  resolvePathDependencies {| name := "/foo/bar.js" |}
    (Fixtures.withResolver
       (Fixtures.testStore ".js" true false [] ["./a"; "./b"; "./c"] ∅ ∅)
       Fixtures.resolverMissingTwo)
    emptyCache
  = (Rejected "no ./b", emptyCache).
Proof.
  destruct (resolvePathDependencies_rejected {| name := "/foo/bar.js" |}
              (Fixtures.withResolver
                 (Fixtures.testStore ".js" true false [] ["./a"; "./b"; "./c"] ∅ ∅)
                 Fixtures.resolverMissingTwo)
              emptyCache emptyCache emptyCache false
              ["./a"; "./b"; "./c"] Fixtures.resolverMissingTwo
              eq_refl eq_refl (or_introl eq_refl) eq_refl eq_refl)
    as (pre & id & post & e & _ & _ & _ & _ & Hrun).
  - exists "./a". split; [apply list_elem_of_here|by eexists].
  - pose proof Hrun as Hreason. vm_compute in Hreason.
    injection Hreason as <-. exact Hrun.
Defined.


(** *** Jobs served from the cache map *)

(** X5. Package dependencies are served from the cache map of the record
    ([shouldCacheResolvedPackageDependencies] is always true): an entry
    under the [resolvePackageDependencies] key is returned as it is, the
    package identifiers and the resolver are not consulted and the map is
    left unchanged; and a run that resolves leaves the object it returned
    under the key, so that running the job again returns the same object. *)
Theorem resolvePackageDependencies_cached (ref : Ref) (st : store.t) (c : CacheData) :
  store.readCache st ref c = (Resolved tt, c) →
  store.shouldCacheResolvedPackageDependencies st ref c
    = shouldCacheResolvedPackageDependencies ref c →
  (∀ deps, cd_resolvePackageDependencies c = Some deps →
     resolvePackageDependencies ref st c = (Resolved deps, c))
  ∧ (∀ deps c',
       resolvePackageDependencies ref st c = (Resolved deps, c') →
       cd_resolvePackageDependencies c' = Some deps
       ∧ (store.readCache st ref c' = (Resolved tt, c') →
          store.shouldCacheResolvedPackageDependencies st ref c'
            = shouldCacheResolvedPackageDependencies ref c' →
          resolvePackageDependencies ref st c' = (Resolved deps, c'))).
Proof.
  intros Hread Hshould.
  assert (∀ c0 deps,
            store.readCache st ref c0 = (Resolved tt, c0) →
            store.shouldCacheResolvedPackageDependencies st ref c0
              = shouldCacheResolvedPackageDependencies ref c0 →
            cd_resolvePackageDependencies c0 = Some deps →
            resolvePackageDependencies ref st c0 = (Resolved deps, c0)) as Hhit.
  { intros c0 deps Hr Hs Hc. unfold resolvePackageDependencies, andThen, all2, cached.
    rewrite Hr, Hs. cbn. by rewrite Hc. }
  split; [intros deps Hc; by apply Hhit|].
  intros deps c' Hrun.
  assert (cd_resolvePackageDependencies c' = Some deps) as Hkey.
  { revert Hrun. unfold resolvePackageDependencies, andThen, all2, cached.
    rewrite Hread, Hshould. cbn.
    destruct (cd_resolvePackageDependencies c) as [d|] eqn:Hc.
    - intros [= <- <-]. done.
    - unfold resolveAll, andThen, settle, resolve, assignCache.
      destruct (store.packageDependencyIdentifiers st ref c) as [[ids|e] c1];
        [|discriminate].
      destruct (store.resolver st ref c1) as [[r|e] c2]; [|discriminate].
      destruct (allOf (map (promiseOf r) ids)) as [paths|e]; [|discriminate].
      intros [= <- <-]. done. }
  split; [done|]. intros Hr Hs. by apply Hhit.
Qed.

Lemma resolvePackageDependencies_cached_witness :
  let entry : Obj := {[ "bar" := "/foo/node_modules/bar/index.js" ]} in
  resolvePackageDependencies {| name := "/foo/bar.js" |}
    (Fixtures.withResolver (Fixtures.testStore ".js" true false [] ["bar"] ∅ ∅)
       (Fixtures.immediate (fun _ => Rejected "not consulted")))
    (set_resolvePackageDependencies entry emptyCache)
  = (Resolved entry, set_resolvePackageDependencies entry emptyCache).
Proof.
  intros entry.
  exact (proj1 (resolvePackageDependencies_cached {| name := "/foo/bar.js" |}
                  (Fixtures.withResolver
                     (Fixtures.testStore ".js" true false [] ["bar"] ∅ ∅)
                     (Fixtures.immediate (fun _ => Rejected "not consulted")))
                  (set_resolvePackageDependencies entry emptyCache)
                  eq_refl eq_refl) entry eq_refl).
Defined.

(** X6. A run of [dependencyIdentifiers] that resolves leaves the list it
    returned under the [dependencyIdentifiers] key of the cache map, and
    running the job again returns that list and changes nothing, without
    analysing the record again. *)
Theorem dependencyIdentifiers_again (ref : Ref) (st : store.t)
    (c c' : CacheData) (ids : list string) :
  store.readCache st ref c = (Resolved tt, c) →
  store.readCache st ref c' = (Resolved tt, c') →
  dependencyIdentifiers ref st c = (Resolved ids, c') →
  cd_dependencyIdentifiers c' = Some ids
  ∧ dependencyIdentifiers ref st c' = (Resolved ids, c').
Proof.
  intros Hread Hread' Hrun.
  assert (cd_dependencyIdentifiers c' = Some ids) as Hkey.
  { revert Hrun. unfold dependencyIdentifiers, andThen, cached. rewrite Hread.
    destruct (cd_dependencyIdentifiers c) as [l|] eqn:Hc.
    - intros [= <- <-]. done.
    - destruct (store.analyzeDependencies st ref c) as [[deps|e] c1]; [|discriminate].
      cbn. intros [= <- <-]. done. }
  split; [done|].
  unfold dependencyIdentifiers, andThen, cached. by rewrite Hread', Hkey.
Qed.

Lemma dependencyIdentifiers_again_witness :
  let st := Fixtures.testStore ".js" true false
              [ {| source := "foo!bar" |}; {| source := "./woz" |} ] [] ∅ ∅ in
  let c' := set_dependencyIdentifiers ["foo"; "./woz"] emptyCache in
  dependencyIdentifiers {| name := "test.js" |} st c' = (Resolved ["foo"; "./woz"], c').
Proof.
  intros st c'.
  exact (proj2 (dependencyIdentifiers_again {| name := "test.js" |} st
                  emptyCache c' ["foo"; "./woz"] eq_refl eq_refl eq_refl)).
Defined.

(** *** The code of a record *)

(** X7. For a text file, a non-empty [code] entry of the cache map is
    returned as it is and the map is left unchanged, whatever the
    extension, also one the job has no rule for. Without such an entry
    (absent or empty), a text file whose extension is none of [.css],
    [.js] and [.json] makes the job reject. *)
Theorem code_cached_first (getState : State) (ref : Ref) (st : store.t)
    (c : CacheData) (ext : string) :
  store.isTextFile st ref c = (Resolved true, c) →
  store.ext st ref c = (Resolved ext, c) →
  store.readCache st ref c = (Resolved tt, c) →
  (∀ s, cd_code c = Some s → s ≠ EmptyString →
     code getState ref st c = (Resolved (Some s), c))
  ∧ (cd_code c = None ∨ cd_code c = Some EmptyString →
     ext ≠ ".css" → ext ≠ ".js" → ext ≠ ".json" →
     code getState ref st c
     = (Rejected ("Unknown text file extension: " +:+ ext
                  +:+ ". Cannot generate code for file: " +:+ name ref), c)).
Proof.
  intros Htext Hext Hread.
  assert (∀ k : string * unit → Job (option string),
            andThen (all2 (store.ext st ref) (store.readCache st ref)) k c
            = k (ext, tt) c) as Hall.
  { intros k. unfold andThen, all2. by rewrite Hext, Hread. }
  split.
  - intros s Hs Hne. unfold code. unfold andThen at 1. rewrite Htext. cbn [negb].
    rewrite Hall. unfold andThen, cached. rewrite Hs.
    destruct s; [done|]. reflexivity.
  - intros Hmiss Hcss Hjs Hjson. unfold code. unfold andThen at 1.
    rewrite Htext. cbn [negb]. rewrite Hall. unfold andThen, cached. cbn [fst].
    assert (truthy (cd_code c) = false) as -> by (by destruct Hmiss as [->| ->]).
    by rewrite (bool_decide_false _ Hcss), (bool_decide_false _ Hjs),
      (bool_decide_false _ Hjson).
Qed.

Lemma code_cached_first_witness :
  code Fixtures.testState {| name := "test.png" |}
    (Fixtures.testStore ".png" true false [] [] ∅ ∅) (set_code "test cache" emptyCache)
  = (Resolved (Some "test cache"), set_code "test cache" emptyCache)
  ∧ code Fixtures.testState {| name := "test.png" |}
      (Fixtures.testStore ".png" true false [] [] ∅ ∅) emptyCache
    = (Rejected "Unknown text file extension: .png. Cannot generate code for file: test.png",
       emptyCache).
Proof.
  split.
  - refine (proj1 (code_cached_first Fixtures.testState {| name := "test.png" |}
                     (Fixtures.testStore ".png" true false [] [] ∅ ∅)
                     (set_code "test cache" emptyCache) ".png" eq_refl eq_refl eq_refl)
              "test cache" eq_refl _).
    discriminate.
  - refine (proj2 (code_cached_first Fixtures.testState {| name := "test.png" |}
                     (Fixtures.testStore ".png" true false [] [] ∅ ∅)
                     emptyCache ".png" eq_refl eq_refl eq_refl)
              (or_introl eq_refl) _ _ _); discriminate.
Defined.


Lemma code_miss (getState : State) (ref : Ref) (st : store.t) (c : CacheData)
    (ext : string) :
  store.isTextFile st ref c = (Resolved true, c) →
  store.ext st ref c = (Resolved ext, c) →
  store.readCache st ref c = (Resolved tt, c) →
  cd_code c = None ∨ cd_code c = Some EmptyString →
  code getState ref st c =
    if bool_decide (ext = ".css") then
      andThen (store.postcssTransform st ref)
        (fun result => andThen (assignCache (set_code (css result)))
                         (fun _ => resolve (Some (css result)))) c
    else if bool_decide (ext = ".js") then
      if bool_decide (name ref = bootstrapRuntime getState)
         || bool_decide (name ref = hotRuntime getState)
      then andThen (store.readText st ref) (fun text => resolve (Some text)) c
      else andThen (store.babelFile st ref)
             (fun file => andThen (assignCache (set_code (babel_code file)))
                            (fun _ => resolve (Some (babel_code file)))) c
    else if bool_decide (ext = ".json") then
      andThen (store.readText st ref) (fun text => resolve (Some text)) c
    else
      reject ("Unknown text file extension: " +:+ ext
              +:+ ". Cannot generate code for file: " +:+ name ref) c.
Proof.
  intros Htext Hext Hread Hmiss. unfold code. unfold andThen at 1.
  rewrite Htext. cbn [negb]. unfold andThen at 1, all2. rewrite Hext, Hread.
  cbn [fst]. unfold andThen at 1, cached.
  assert (truthy (cd_code c) = false) as -> by (by destruct Hmiss as [->| ->]).
  destruct (bool_decide (ext = ".css")); [done|].
  destruct (bool_decide (ext = ".js")).
  - by destruct (bool_decide (name ref = bootstrapRuntime getState)
                 || bool_decide (name ref = hotRuntime getState)).
  - by destruct (bool_decide (ext = ".json")).
Qed.

(** X8. With no usable [code] entry in the cache map, the job serves the
    bootstrap runtime, the hot runtime and JSON files as [readText] gives
    them and assigns nothing to the cache map; for a stylesheet it assigns
    the transformed text to the [code] key, and when that text is not empty
    a second run returns it from the map without transforming again. *)
Theorem code_raw_or_cached (getState : State) (ref : Ref) (st : store.t)
    (c c' : CacheData) (ext : string) :
  store.isTextFile st ref c = (Resolved true, c) →
  store.ext st ref c = (Resolved ext, c) →
  store.readCache st ref c = (Resolved tt, c) →
  cd_code c = None ∨ cd_code c = Some EmptyString →
  (∀ text,
     ext = ".json"
     ∨ (ext = ".js" ∧ (name ref = bootstrapRuntime getState
                       ∨ name ref = hotRuntime getState)) →
     store.readText st ref c = (Resolved text, c') →
     code getState ref st c = (Resolved (Some text), c'))
  ∧ (∀ result,
       ext = ".css" →
       store.postcssTransform st ref c = (Resolved result, c') →
       code getState ref st c
         = (Resolved (Some (css result)), set_code (css result) c')
       ∧ (css result ≠ EmptyString →
          store.isTextFile st ref (set_code (css result) c')
            = (Resolved true, set_code (css result) c') →
          store.ext st ref (set_code (css result) c')
            = (Resolved ext, set_code (css result) c') →
          store.readCache st ref (set_code (css result) c')
            = (Resolved tt, set_code (css result) c') →
          code getState ref st (set_code (css result) c')
            = (Resolved (Some (css result)), set_code (css result) c'))).
Proof.
  intros Htext Hext Hread Hmiss.
  rewrite (code_miss _ _ _ _ _ Htext Hext Hread Hmiss). split.
  - intros text [->|[-> Hruntime]] Htxt; cbn.
    + unfold andThen. by rewrite Htxt.
    + assert (bool_decide (name ref = bootstrapRuntime getState)
              || bool_decide (name ref = hotRuntime getState) = true) as ->.
      { destruct Hruntime as [H|H]; rewrite (bool_decide_true _ H);
          [done|apply orb_true_r]. }
      unfold andThen. by rewrite Htxt.
  - intros result -> Hcss. cbn. unfold andThen at 1. rewrite Hcss.
    split; [done|]. intros Hne Htext' Hext' Hread'.
    unfold code. unfold andThen at 1. rewrite Htext'. cbn [negb].
    unfold andThen at 1, all2. rewrite Hext', Hread'. unfold andThen, cached.
    cbn. by destruct (css result).
Qed.

Lemma code_raw_or_cached_witness :
  code Fixtures.testState {| name := "/foo/bootstrap.js" |}
    (Fixtures.testStore ".js" true false [] [] ∅ ∅) emptyCache
  = (Resolved (Some "test text"), emptyCache)
  ∧ code Fixtures.testState {| name := "test.css" |}
      (Fixtures.testStore ".css" true false [] [] ∅ ∅) emptyCache
    = (Resolved (Some "test css"), set_code "test css" emptyCache).
Proof.
  split.
  - refine (proj1 (code_raw_or_cached Fixtures.testState {| name := "/foo/bootstrap.js" |}
                     (Fixtures.testStore ".js" true false [] [] ∅ ∅)
                     emptyCache emptyCache ".js" eq_refl eq_refl eq_refl
                     (or_introl eq_refl))
              "test text" (or_intror (conj eq_refl (or_introl eq_refl))) eq_refl).
  - refine (proj1 (proj2 (code_raw_or_cached Fixtures.testState {| name := "test.css" |}
                     (Fixtures.testStore ".css" true false [] [] ∅ ∅)
                     emptyCache emptyCache ".css" eq_refl eq_refl eq_refl
                     (or_introl eq_refl))
              {| css := "test css"; unfortDependencies := [] |} eq_refl eq_refl)).
Defined.

(** *** From the analysis to the resolved dependencies *)

Lemma dependencyIdentifiers_miss (ref : Ref) (st : store.t) (c : CacheData)
    (deps : list Dependency) :
  store.readCache st ref c = (Resolved tt, c) →
  cd_dependencyIdentifiers c = None →
  store.analyzeDependencies st ref c = (Resolved deps, c) →
  dependencyIdentifiers ref st c
  = (Resolved (map cleanIdentifier (map source deps)),
     set_dependencyIdentifiers (map cleanIdentifier (map source deps)) c).
Proof.
  intros Hread Hmiss Han. unfold dependencyIdentifiers, andThen, cached.
  by rewrite Hread, Hmiss, Han.
Qed.

Lemma dependencyIdentifiers_hit (ref : Ref) (st : store.t) (c : CacheData)
    (ids : list string) :
  store.readCache st ref c = (Resolved tt, c) →
  cd_dependencyIdentifiers c = Some ids →
  dependencyIdentifiers ref st c = (Resolved ids, c).
Proof.
  intros Hread Hhit. unfold dependencyIdentifiers, andThen, cached.
  by rewrite Hread, Hhit.
Qed.

(** What [resolvePackageDependencies] does when the cache map has no entry
    for it. *)
Lemma resolvePackageDependencies_fresh (ref : Ref) (st : store.t)
    (c c1 c2 : CacheData) (shouldCache : bool) (ids : list string)
    (r : Resolver) :
  store.readCache st ref c = (Resolved tt, c) →
  store.shouldCacheResolvedPackageDependencies st ref c = (Resolved shouldCache, c) →
  cd_resolvePackageDependencies c = None →
  store.packageDependencyIdentifiers st ref c = (Resolved ids, c1) →
  store.resolver st ref c1 = (Resolved r, c2) →
  resolvePackageDependencies ref st c =
    match allOf (map (promiseOf r) ids) with
    | Resolved paths =>
        (Resolved (zipObject ids paths),
         set_resolvePackageDependencies (zipObject ids paths) c2)
    | Rejected e => (Rejected e, c2)
    end.
Proof.
  intros Hread Hshould Hmiss Hids Hres.
  unfold resolvePackageDependencies, andThen, all2, cached. rewrite Hread, Hshould.
  cbn [snd]. rewrite Hmiss.
  destruct shouldCache; unfold resolveAll, andThen, settle, resolve;
    rewrite Hids, Hres; by destruct (allOf (map (promiseOf r) ids)).
Qed.

Lemma zipObject_resolved (r : string → Outcome string) (ids paths : list string)
    (id p : string) :
  Forall2 (fun id p => r id = Resolved p) ids paths →
  zipObject ids paths !! id = Some p ↔ id ∈ ids ∧ r id = Resolved p.
Proof.
  intros Hzip. unfold zipObject. rewrite (zipObject_lookup r _ _ _ _ _ Hzip).
  rewrite lookup_empty. naive_solver.
Qed.

(** X18. From the analysis to the resolved dependencies. Take a store
    that runs the dependency jobs as they are defined, a record whose cache
    map has none of their three keys, an analysis that finds the
    dependencies [deps] and a resolver that resolves every cleaned
    identifier. Then [resolvedDependencies] resolves to the object that
    binds exactly the cleaned identifiers, each to the path the resolver
    gives for it; the identifiers are analysed once and left in the cache
    map; and a second run resolves to the same object and leaves the
    cache map as the first run left it. *)
Theorem resolvedDependencies_pipeline (getState : State)
    (path_isAbsolute : string → bool) (ref : Ref) (st : store.t) (c : CacheData)
    (deps : list Dependency) (r : Resolver) :
  usesDefaultJobs getState path_isAbsolute st ref →
  (∀ c', store.readCache st ref c' = (Resolved tt, c')) →
  (∀ c', store.analyzeDependencies st ref c' = (Resolved deps, c')) →
  (∀ c', store.resolver st ref c' = (Resolved r, c')) →
  cd_dependencyIdentifiers c = None →
  cd_resolvePathDependencies c = None →
  cd_resolvePackageDependencies c = None →
  (∀ id, id ∈ map cleanIdentifier (map source deps) → ∃ p, r id = Resolved p) →
  ∃ (obj : Obj) (c' : CacheData),
    resolvedDependencies ref st c = (Resolved obj, c')
    ∧ (∀ id p, obj !! id = Some p
               ↔ id ∈ map cleanIdentifier (map source deps) ∧ r id = Resolved p)
    ∧ cd_dependencyIdentifiers c' = Some (map cleanIdentifier (map source deps))
    ∧ resolvedDependencies ref st c' = (Resolved obj, c').
Proof.
  intros Hw Hread Han Hres Hn1 Hn2 Hn3 Hall.
  set (ids := map cleanIdentifier (map source deps)) in *.
  set (pthF := fun id => startsWithDot id || path_isAbsolute id).
  set (pkgF := fun id => negb (startsWithDot id) && negb (path_isAbsolute id)).
  destruct (allOf_resolved r (List.filter pkgF ids)) as (pkgPaths & Hpkg & Hzpkg).
  { intros id [Hid _]%elem_of_filter_bool. by apply Hall. }
  destruct (allOf_resolved r (List.filter pthF ids)) as (pthPaths & Hpth & Hzpth).
  { intros id [Hid _]%elem_of_filter_bool. by apply Hall. }
  set (pkgObj := zipObject (List.filter pkgF ids) pkgPaths).
  set (pthObj := zipObject (List.filter pthF ids) pthPaths).
  set (c1 := set_dependencyIdentifiers ids c).
  set (c2 := set_resolvePackageDependencies pkgObj c1).
  set (c3 := set_resolvePathDependencies pthObj c2).
  assert (∀ c', cd_dependencyIdentifiers c' = Some ids →
                store.pathDependencyIdentifiers st ref c'
                = (Resolved (List.filter pthF ids), c')) as Hpthids.
  { intros c' Hhit. destruct (Hw c') as (Hd & -> & _).
    unfold pathDependencyIdentifiers, andThen, resolve.
    by rewrite Hd, (dependencyIdentifiers_hit _ _ _ ids (Hread c') Hhit). }
  assert (resolvePackageDependencies ref st c = (Resolved pkgObj, c2)) as Hrun1.
  { rewrite (resolvePackageDependencies_fresh ref st c c1 c1 true
               (List.filter pkgF ids) r (Hread c)); [by rewrite Hpkg| |done| |done].
    - by destruct (Hw c) as (_ & _ & _ & _ & -> & _).
    - destruct (Hw c) as (Hd & _ & -> & _).
      unfold packageDependencyIdentifiers, andThen, resolve.
      by rewrite Hd, (dependencyIdentifiers_miss _ _ _ deps (Hread c) Hn1 (Han c)). }
  assert (∀ c', store.shouldCacheResolvedPathDependencies st ref c'
                = (Resolved (JS.startsWith (name ref) (rootNodeModules getState)), c'))
    as Hshould.
  { intros c'. by destruct (Hw c') as (_ & _ & _ & -> & _). }
  assert (resolvePathDependencies ref st c2 = (Resolved pthObj, c3)) as Hrun2.
  { rewrite (resolvePathDependencies_fresh ref st c2 c2 c2 _
               (List.filter pthF ids) r (Hread c2) (Hshould c2));
      [by rewrite Hpth|by right|by apply Hpthids|done]. }
  assert (resolvePackageDependencies ref st c3 = (Resolved pkgObj, c3)) as Hrun3.
  { unfold resolvePackageDependencies, andThen, all2, cached. rewrite Hread.
    by destruct (Hw c3) as (_ & _ & _ & _ & -> & _). }
  assert (resolvePathDependencies ref st c3 = (Resolved pthObj, c3)) as Hrun4.
  { destruct (JS.startsWith (name ref) (rootNodeModules getState)) eqn:Hcache.
    - unfold resolvePathDependencies, andThen, all2, cached.
      by rewrite Hread, Hshould.
    - rewrite (resolvePathDependencies_fresh ref st c3 c3 c3 false
                 (List.filter pthF ids) r (Hread c3));
        [by rewrite Hpth|by rewrite Hshould|by left|by apply Hpthids|done]. }
  exists (assign ∅ [pkgObj; pthObj]), c3.
  split; [|split; [|split; [done|]]].
  - unfold resolvedDependencies, andThen, all2, resolve.
    destruct (Hw c) as (_ & _ & _ & _ & _ & _ & ->). rewrite Hrun1.
    destruct (Hw c2) as (_ & _ & _ & _ & _ & -> & _). by rewrite Hrun2.
  - intros id p. rewrite JobsFacts.assign_two, lookup_union_Some_raw.
    unfold pthObj, pkgObj.
    rewrite (zipObject_resolved r _ _ id p Hzpkg), (zipObject_resolved r _ _ id p Hzpth).
    rewrite !elem_of_filter_bool. unfold pkgF, pthF.
    destruct (startsWithDot id || path_isAbsolute id) eqn:Hpath.
    + apply orb_true_iff in Hpath.
      assert (negb (startsWithDot id) && negb (path_isAbsolute id) = false) as ->
        by (destruct (startsWithDot id), (path_isAbsolute id); naive_solver).
      naive_solver.
    + apply orb_false_iff in Hpath as [Hdot Habs]. rewrite Hdot, Habs.
      cbn [negb andb].
      split; [naive_solver|]. intros [Hid Hp]. right. split; [|done].
      apply eq_None_not_Some. intros [q Hq].
      apply (zipObject_resolved r _ _ id q Hzpth) in Hq as [Hq _].
      apply elem_of_filter_bool in Hq as [_ Hq]. unfold pthF in Hq.
      by rewrite Hdot, Habs in Hq.
  - unfold resolvedDependencies, andThen, all2, resolve.
    destruct (Hw c3) as (_ & _ & _ & _ & _ & Hp & Hk).
    by rewrite Hk, Hrun3, Hp, Hrun4.
Qed.

Lemma resolvedDependencies_pipeline_witness :
  let st := Fixtures.withDependencyJobs Fixtures.testState Fixtures.posix_isAbsolute
              (Fixtures.testStore ".js" true false
                 [ {| source := "foo!bar" |}; {| source := "./woz?v=1" |};
                   {| source := "foo" |} ] [] ∅ ∅) in
  ∃ (obj : Obj) (c' : CacheData),
    resolvedDependencies {| name := "/foo/bar.js" |} st emptyCache = (Resolved obj, c')
    ∧ resolvedDependencies {| name := "/foo/bar.js" |} st c' = (Resolved obj, c').
Proof.
  intros st.
  destruct (resolvedDependencies_pipeline Fixtures.testState Fixtures.posix_isAbsolute
              {| name := "/foo/bar.js" |} st emptyCache
              [ {| source := "foo!bar" |}; {| source := "./woz?v=1" |};
                {| source := "foo" |} ]
              (Fixtures.immediate (fun id => Resolved (id +:+ " test"))))
    as (obj & c' & Hrun & _ & _ & Hagain).
  - intros c. split; [reflexivity|]. split; [reflexivity|]. split; [reflexivity|].
    split; [reflexivity|]. split; [reflexivity|]. split; reflexivity.
  - reflexivity.
  - reflexivity.
  - reflexivity.
  - reflexivity.
  - reflexivity.
  - reflexivity.
  - intros id _. eexists. reflexivity.
  - exists obj, c'. by split.
Defined.

End JobsExtra.

(** ** More on the graph *)

Module GraphExtra.
Import Graph GraphFacts.

(** *** What delivering dependencies does *)

Lemma freshNodes_spec (names : list string) (defined : gset string) :
  NoDup (freshNodes defined names)
  ∧ ∀ n, n ∈ freshNodes defined names ↔ n ∈ names ∧ n ∉ defined.
Proof.
  revert defined. induction names as [|x names IH]; intros defined; cbn [freshNodes].
  - split; [constructor|]. intros n. rewrite elem_of_nil. tauto.
  - destruct (IH defined) as [Hnd Hin]. destruct (IH ({[x]} ∪ defined)) as [Hnd' Hin'].
    case_decide as Hx.
    + split; [done|]. intros n. rewrite Hin, elem_of_cons.
      split; [naive_solver|]. intros [[->|?] ?]; done.
    + split.
      * constructor; [|done]. rewrite Hin'. set_solver.
      * intros n. rewrite !elem_of_cons, Hin'.
        destruct (decide (n = x)) as [->|Hne]; [naive_solver|]. set_solver.
Qed.

Lemma newJobsFor_spec (names : list string) (count : nat) :
  map node (newJobsFor count names) = names
  ∧ map jid (newJobsFor count names) = seq count (length names)
  ∧ Forall (fun j => isValid j = true) (newJobsFor count names).
Proof.
  revert count. induction names as [|n names IH]; intros count; [done|].
  destruct (IH (S count)) as (Hn & Hj & Hv). cbn. rewrite Hn, Hj.
  repeat split. by constructor.
Qed.

Lemma isNodePending_app (jobs more : list Job) (x : string) :
  isNodePending (jobs ++ more) x = isNodePending jobs x || isNodePending more x.
Proof. unfold isNodePending. apply existsb_app. Qed.

Lemma addEdge_dom (ns : Nodes) (head tail : string) :
  dom (addEdge ns head tail) = dom ns.
Proof. unfold addEdge. by rewrite !dom_alter_L. Qed.

Lemma addNode_dom (ns : Nodes) (x : string) : dom (addNode ns x) = {[x]} ∪ dom ns.
Proof. unfold addNode. by rewrite dom_insert_L. Qed.

Lemma isNodeDefined_decide (ns : Nodes) (x : string) :
  isNodeDefined ns x = bool_decide (x ∈ dom ns).
Proof.
  unfold isNodeDefined. apply bool_decide_ext. symmetry. apply elem_of_dom.
Qed.

(** The loop over the dependencies, in closed form: the nodes added are
    the first occurrences of the dependencies not defined yet, and a job is
    created for each of these that no valid pending job was tracing. *)
Lemma traceDependencies_spec (name : string) (deps : list string) (g : Graph)
    (added : list string) :
  let fresh := freshNodes (dom (nodes g)) deps in
  let jobs := newJobsFor (jobCount g)
                (List.filter (fun d => negb (isNodePending (pendingJobs g) d)) fresh) in
  let r := foldl (traceDependency name) (g, added) deps in
  r.2 = added ++ fresh
  ∧ dom (nodes r.1) = dom (nodes g) ∪ list_to_set deps
  ∧ pendingJobs r.1 = pendingJobs g ++ jobs
  ∧ nextTicks r.1 = nextTicks g ++ map (fun j => StartTracingNode (jid j)) jobs
  ∧ jobCount r.1 = jobCount g + length jobs
  ∧ awaiting r.1 = awaiting g.
Proof.
  revert g added. induction deps as [|d deps IH]; intros g added.
  - cbn. rewrite !app_nil_r. repeat split; [set_solver|lia].
  - cbn zeta. cbn [foldl freshNodes].
    destruct (traceDependency name (g, added) d) as [g1 added1] eqn:Hstep.
    specialize (IH g1 added1). cbn zeta in IH.
    destruct IH as (Hadded & Hdom & Hpend & Hticks & Hcount & Hwait).
    unfold traceDependency in Hstep. rewrite !isNodeDefined_decide in Hstep.
    destruct (decide (d ∈ dom (nodes g))) as [Hd|Hd].
    + rewrite (bool_decide_true _ Hd) in Hstep. cbn [negb andb] in Hstep.
      rewrite (bool_decide_true _ Hd) in Hstep. cbn [negb] in Hstep.
      injection Hstep as <- <-.
      cbn [nodes pendingJobs nextTicks jobCount awaiting with_nodes] in *.
      rewrite addEdge_dom in *.
      rewrite Hadded, Hdom, Hpend, Hticks, Hcount, Hwait.
      repeat split. set_solver.
    + rewrite (bool_decide_false _ Hd) in Hstep. cbn [negb andb] in Hstep.
      cbn [List.filter].
      destruct (isNodePending (pendingJobs g) d) eqn:Hp; cbn [negb] in *.
      * rewrite (bool_decide_false _ Hd) in Hstep. cbn [negb] in Hstep.
        injection Hstep as <- <-.
        cbn [nodes pendingJobs nextTicks jobCount awaiting with_nodes] in *.
        rewrite addEdge_dom, addNode_dom in *.
        rewrite Hadded, Hdom, Hpend, Hticks, Hcount, Hwait, <-app_assoc.
        repeat split. set_solver.
      * unfold traceNode in Hstep.
        cbn [nodes pendingJobs nextTicks jobCount awaiting with_nodes] in Hstep.
        rewrite (bool_decide_false _ Hd) in Hstep. cbn [negb] in Hstep.
        injection Hstep as <- <-.
        cbn [nodes pendingJobs nextTicks jobCount awaiting with_nodes jid] in *.
        rewrite addEdge_dom, addNode_dom in *.
        assert (List.filter
                  (fun d0 => negb (isNodePending
                     (pendingJobs g ++ [{| jid := jobCount g; node := d; isValid := true |}])
                     d0))
                  (freshNodes ({[d]} ∪ dom (nodes g)) deps)
                = List.filter (fun d0 => negb (isNodePending (pendingJobs g) d0))
                    (freshNodes ({[d]} ∪ dom (nodes g)) deps)) as Hsame.
        { apply List.filter_ext_in. intros d0 Hd0%list_elem_of_In.
          apply (proj2 (freshNodes_spec _ _)) in Hd0 as [_ Hd0].
          rewrite isNodePending_app. unfold isNodePending at 2. cbn.
          rewrite bool_decide_false by set_solver. by rewrite orb_false_r. }
        rewrite Hsame in *. cbn [newJobsFor map length].
        rewrite Hadded, Hdom, Hpend, Hticks, Hcount, Hwait, <-!app_assoc.
        repeat split; [set_solver|lia].
Qed.


Lemma NoDup_filter_bool (f : string → bool) (l : list string) :
  NoDup l → NoDup (List.filter f l).
Proof.
  induction 1 as [|x l Hx _ IH]; cbn [List.filter]; [constructor|].
  destruct (f x); [|done]. constructor; [|done].
  rewrite JobsExtra.elem_of_filter_bool. tauto.
Qed.

(** A callback that delivers dependencies to a valid job, in closed form. *)
Lemma callback_spec (g : Graph) (job : nat) (j : Job) (deps : list string) :
  job ∈ awaiting g →
  findJob (pendingJobs g) job = Some j → isValid j = true →
  let jobs := newJobsFor (jobCount g)
                (List.filter
                   (fun d => negb (isNodePending (pull (pendingJobs g) job) d))
                   (freshNodes ({[node j]} ∪ dom (nodes g)) deps)) in
  let r := step g (Callback job (inr deps)) in
  r.2 = map Added (freshNodes (dom (nodes g)) (node j :: deps))
  ∧ dom (nodes r.1) = {[node j]} ∪ dom (nodes g) ∪ list_to_set deps
  ∧ pendingJobs r.1 = pull (pendingJobs g) job ++ jobs
  ∧ nextTicks r.1
    = nextTicks g ++ map (fun j => StartTracingNode (jid j)) jobs ++ [CheckComplete]
  ∧ jobCount r.1 = jobCount g + length jobs
  ∧ awaiting r.1 = List.filter (fun k => negb (bool_decide (k = job))) (awaiting g).
Proof.
  intros Hin Hfind Hvalid. cbn zeta. rewrite (step_callback _ _ _ Hin).
  unfold onDependencies. cbn [pendingJobs with_awaiting]. rewrite Hfind, Hvalid.
  cbn [negb]. rewrite isNodeDefined_decide. cbn [nodes removeJob with_pendingJobs with_awaiting].
  cbn [freshNodes].
  set (g0 := removeJob (with_awaiting g
                (List.filter (fun k => negb (bool_decide (k = job))) (awaiting g))) job).
  destruct (decide (node j ∈ dom (nodes g))) as [Hd|Hd].
  - rewrite (bool_decide_true _ Hd). cbn [negb].
    assert ({[node j]} ∪ dom (nodes g) = dom (nodes g)) as -> by set_solver.
    pose proof (traceDependencies_spec (node j) deps g0 []) as Hspec.
    cbn zeta in Hspec.
    destruct (foldl (traceDependency (node j)) (g0, []) deps) as [g2 added2].
    cbn [fst snd nodes pendingJobs nextTicks jobCount awaiting with_nextTicks
         g0 removeJob with_pendingJobs with_awaiting] in *.
    destruct Hspec as (H1 & H2 & H3 & H4 & H5 & H6).
    rewrite H1, H2, H3, H4, H5, H6. by rewrite <-app_assoc.
  - rewrite (bool_decide_false _ Hd). cbn [negb].
    pose proof (traceDependencies_spec (node j) deps
                  (with_nodes g0 (addNode (nodes g) (node j))) [node j]) as Hspec.
    cbn zeta in Hspec.
    destruct (foldl (traceDependency (node j))
                (with_nodes g0 (addNode (nodes g) (node j)), [node j]) deps)
      as [g2 added2].
    cbn [fst snd nodes pendingJobs nextTicks jobCount awaiting with_nextTicks
         with_nodes g0 removeJob with_pendingJobs with_awaiting] in *.
    rewrite addNode_dom in Hspec.
    destruct Hspec as (H1 & H2 & H3 & H4 & H5 & H6).
    rewrite H1, H2, H3, H4, H5, H6. by rewrite <-app_assoc.
Qed.

(** X9. When dependencies are delivered to a valid job, the job leaves
    [pendingJobs] and one new valid job is pushed, and its
    [startTracingNode] queued, for each distinct dependency that is neither
    the job's own node, nor a defined node, nor the node of a valid pending
    job; no other job is created, and the completion check is queued behind
    the new jobs. *)
Theorem delivery_creates_jobs (g : Graph) (job : nat) (j : Job) (deps : list string) :
  job ∈ awaiting g →
  findJob (pendingJobs g) job = Some j → isValid j = true →
  ∃ jobs : list Job,
    pendingJobs (step g (Callback job (inr deps))).1 = pull (pendingJobs g) job ++ jobs
    ∧ nextTicks (step g (Callback job (inr deps))).1
      = nextTicks g ++ map (fun j => StartTracingNode (jid j)) jobs ++ [CheckComplete]
    ∧ NoDup (map node jobs)
    ∧ Forall (fun j' => isValid j' = true) jobs
    ∧ map jid jobs = seq (jobCount g) (length jobs)
    ∧ ∀ d, d ∈ map node jobs
           ↔ d ∈ deps ∧ d ≠ node j ∧ (d ∉ dom (nodes g))
             ∧ isNodePending (pull (pendingJobs g) job) d = false.
Proof.
  intros Hin Hfind Hvalid.
  destruct (callback_spec g job j deps Hin Hfind Hvalid) as (_ & _ & Hp & Ht & _).
  eexists. split; [exact Hp|]. split; [exact Ht|].
  destruct (newJobsFor_spec
              (List.filter (fun d => negb (isNodePending (pull (pendingJobs g) job) d))
                 (freshNodes ({[node j]} ∪ dom (nodes g)) deps)) (jobCount g))
    as (Hnode & Hjid & Hval).
  destruct (freshNodes_spec deps ({[node j]} ∪ dom (nodes g))) as [Hnd Hfresh].
  split; [rewrite Hnode; by apply NoDup_filter_bool|]. split; [done|].
  split.
  { rewrite Hjid. f_equal. rewrite <-(length_map node (newJobsFor _ _)).
    by rewrite Hnode. }
  intros d. rewrite Hnode, JobsExtra.elem_of_filter_bool, Hfresh, negb_true_iff.
  set_solver.
Qed.

Lemma delivery_creates_jobs_witness :
  let g := final createGraph [TraceNode "A"; Tick] in
  map node (pendingJobs (step g (Callback 0 (inr ["B"; "A"; "B"; "C"]))).1)
    = ["B"; "C"]
  ∧ ∃ jobs : list Job,
      pendingJobs (step g (Callback 0 (inr ["B"; "A"; "B"; "C"]))).1
        = pull (pendingJobs g) 0 ++ jobs
      ∧ NoDup (map node jobs).
Proof.
  intros g. split; [reflexivity|].
  destruct (delivery_creates_jobs g 0 {| jid := 0; node := "A"; isValid := true |}
              ["B"; "A"; "B"; "C"] (list_elem_of_here 0 []) eq_refl eq_refl)
    as (jobs & Hp & _ & Hnd & _).
  exists jobs. by split.
Defined.


(** *** Nodes and edges after a delivery *)

Lemma addedNodes_Added (l : list string) : addedNodes (map Added l) = l.
Proof. unfold addedNodes. induction l as [|n l IH]; [done|]. cbn. by rewrite IH. Qed.

Lemma successorsOf_addEdge (ns : Nodes) (head tail : string) :
  head ∈ dom ns → tail ∈ dom ns →
  successorsOf (addEdge ns head tail) head = {[tail]} ∪ successorsOf ns head.
Proof.
  intros [n Hn]%elem_of_dom Ht. unfold successorsOf.
  rewrite addEdge_dom. unfold addEdge. rewrite lookup_alter.
  case_decide as Heq.
  - subst. rewrite lookup_alter_eq, Hn. cbn. set_solver.
  - rewrite lookup_alter_eq, Hn. cbn. set_solver.
Qed.

Lemma successorsOf_addNode (ns : Nodes) (x name : string) :
  x ∉ dom ns → name ∈ dom ns →
  successorsOf ns name ⊆ successorsOf (addNode ns x) name.
Proof.
  intros Hx Hname. unfold successorsOf. rewrite addNode_dom.
  unfold addNode. rewrite lookup_insert_ne by set_solver.
  destruct (ns !! name); set_solver.
Qed.

Lemma traceDependency_edge (name : string) (g : Graph) (added : list string)
    (d : string) :
  name ∈ dom (nodes g) →
  name ∈ dom (nodes (traceDependency name (g, added) d).1)
  ∧ edge (nodes (traceDependency name (g, added) d).1) name d
  ∧ ∀ x, edge (nodes g) name x →
         edge (nodes (traceDependency name (g, added) d).1) name x.
Proof.
  intros Hname. unfold traceDependency, edge.
  set (g1 := if negb (isNodeDefined (nodes g) d)
                && negb (isNodePending (pendingJobs g) d)
             then traceNode g d else g).
  assert (nodes g1 = nodes g) as Hsame.
  { unfold g1. by destruct (negb (isNodeDefined (nodes g) d)
                             && negb (isNodePending (pendingJobs g) d)). }
  clearbody g1. rewrite Hsame, isNodeDefined_decide.
  destruct (decide (d ∈ dom (nodes g))) as [Hd|Hd].
  - rewrite (bool_decide_true _ Hd). cbn [negb fst nodes with_nodes].
    rewrite Hsame. rewrite addEdge_dom. rewrite successorsOf_addEdge by done.
    split; [done|]. set_solver.
  - rewrite (bool_decide_false _ Hd). cbn [negb fst nodes with_nodes].
    rewrite addEdge_dom, addNode_dom.
    rewrite successorsOf_addEdge by (rewrite addNode_dom; set_solver).
    split; [set_solver|]. split; [set_solver|].
    intros x Hx. apply elem_of_union. right.
    by apply (successorsOf_addNode (nodes g) d name Hd Hname).
Qed.

Lemma traceDependencies_edges (name : string) (deps : list string) (g : Graph)
    (added : list string) (d : string) :
  name ∈ dom (nodes g) →
  d ∈ deps ∨ edge (nodes g) name d →
  edge (nodes (foldl (traceDependency name) (g, added) deps).1) name d.
Proof.
  revert g added. induction deps as [|x deps IH]; intros g added Hname Hd.
  - destruct Hd as [Hd|Hd]; [by apply elem_of_nil in Hd|done].
  - cbn [foldl].
    destruct (traceDependency_edge name g added x Hname) as (Hname1 & Hx & Hkeep).
    destruct (traceDependency name (g, added) x) as [g1 added1].
    cbn [fst] in *. apply IH; [done|].
    destruct Hd as [[->|Hd]%elem_of_cons|Hd]; [by right|by left|].
    right. by apply Hkeep.
Qed.

(** X10. When dependencies are delivered to a valid job, afterwards the
    job's node and every dependency are defined and the node has an edge to
    each dependency; nothing else becomes defined. The events of the step
    are [added] events only, one for each node that was not defined before
    (the job's node and the dependencies), none of them twice. *)
Theorem delivery_defines_nodes (g : Graph) (job : nat) (j : Job) (deps : list string) :
  job ∈ awaiting g →
  findJob (pendingJobs g) job = Some j → isValid j = true →
  dom (nodes (step g (Callback job (inr deps))).1)
    = {[node j]} ∪ dom (nodes g) ∪ list_to_set deps
  ∧ (∀ d, d ∈ deps → edge (nodes (step g (Callback job (inr deps))).1) (node j) d)
  ∧ (step g (Callback job (inr deps))).2
    = map Added (addedNodes (step g (Callback job (inr deps))).2)
  ∧ NoDup (addedNodes (step g (Callback job (inr deps))).2)
  ∧ ∀ n, n ∈ addedNodes (step g (Callback job (inr deps))).2
         ↔ (n = node j ∨ n ∈ deps) ∧ n ∉ dom (nodes g).
Proof.
  intros Hin Hfind Hvalid.
  destruct (callback_spec g job j deps Hin Hfind Hvalid) as (Hev & Hdom & _).
  destruct (freshNodes_spec (node j :: deps) (dom (nodes g))) as [Hnd Hfresh].
  rewrite Hev, addedNodes_Added. split; [done|]. split; [|split; [done|split; [done|]]].
  - intros d Hd. rewrite (step_callback _ _ _ Hin).
    unfold onDependencies. cbn [pendingJobs with_awaiting]. rewrite Hfind, Hvalid.
    cbn [negb].
    set (g0 := removeJob (with_awaiting g
                 (List.filter (fun k => negb (bool_decide (k = job))) (awaiting g))) job).
    set (start := if negb (isNodeDefined (nodes g0) (node j))
                  then (with_nodes g0 (addNode (nodes g0) (node j)), [node j])
                  else (g0, [])).
    assert (node j ∈ dom (nodes start.1)) as Hself.
    { unfold start. rewrite isNodeDefined_decide.
      destruct (decide (node j ∈ dom (nodes g0))) as [Hj|Hj].
      - by rewrite (bool_decide_true _ Hj).
      - rewrite (bool_decide_false _ Hj). cbn. rewrite addNode_dom. set_solver. }
    destruct start as [g1 added1]. cbn [fst] in Hself.
    pose proof (traceDependencies_edges (node j) deps g1 added1 d Hself (or_introl Hd))
      as Hedge.
    by destruct (foldl (traceDependency (node j)) (g1, added1) deps).
  - intros n. rewrite Hfresh, elem_of_cons. done.
Qed.

Lemma delivery_defines_nodes_witness :
  let g := final createGraph [TraceNode "A"; Tick] in
  (step g (Callback 0 (inr ["B"; "A"; "B"]))).2 = [Added "A"; Added "B"]
  ∧ edge (nodes (step g (Callback 0 (inr ["B"; "A"; "B"]))).1) "A" "A".
Proof.
  intros g. split; [reflexivity|].
  apply (proj1 (proj2 (delivery_defines_nodes g 0
                         {| jid := 0; node := "A"; isValid := true |}
                         ["B"; "A"; "B"] (list_elem_of_here 0 []) eq_refl eq_refl))).
  apply list_elem_of_further, list_elem_of_here.
Defined.


(** *** Every pending job is queued or awaited *)

Lemma starts_app (ts ts' : list Task) : starts (ts ++ ts') = starts ts ++ starts ts'.
Proof. induction ts as [|[k|] ts IH]; cbn; by rewrite ?IH. Qed.

Lemma starts_jobs (jobs : list Job) :
  starts (map (fun j => StartTracingNode (jid j)) jobs) = map jid jobs.
Proof. induction jobs as [|j jobs IH]; cbn; by rewrite ?IH. Qed.

Lemma jid_pull (l : list Job) (job : nat) :
  map jid (pull l job)
  = List.filter (fun k => negb (bool_decide (k = job))) (map jid l).
Proof.
  unfold pull. induction l as [|j l IH]; [done|]. cbn [List.filter map].
  destruct (bool_decide (jid j = job)); cbn [negb map]; by rewrite IH.
Qed.

Lemma filter_Permutation (f : nat → bool) (l l' : list nat) :
  l ≡ₚ l' → List.filter f l ≡ₚ List.filter f l'.
Proof.
  induction 1 as [|x l l' _ IH|x y l|l l' l'' _ IH1 _ IH2]; cbn [List.filter].
  - done.
  - destruct (f x); by rewrite IH.
  - destruct (f x), (f y); try done. apply perm_swap.
  - by etrans.
Qed.

Lemma filter_absent (l : list nat) (job : nat) :
  job ∉ l → List.filter (fun k => negb (bool_decide (k = job))) l = l.
Proof.
  induction l as [|k l IH]; [done|]. intros Hnot. cbn [List.filter].
  rewrite bool_decide_false by (intros ->; apply Hnot, list_elem_of_here).
  cbn [negb]. f_equal. apply IH. intros Hin. by apply Hnot, list_elem_of_further.
Qed.

Lemma elem_of_filter_nat (f : nat → bool) (l : list nat) (k : nat) :
  k ∈ List.filter f l ↔ k ∈ l ∧ f k = true.
Proof. by rewrite !list_elem_of_In, List.filter_In. Qed.

Lemma NoDup_filter_nat (f : nat → bool) (l : list nat) :
  NoDup l → NoDup (List.filter f l).
Proof.
  induction 1 as [|x l Hx _ IH]; cbn [List.filter]; [constructor|].
  destruct (f x); [|done]. constructor; [|done].
  rewrite elem_of_filter_nat. tauto.
Qed.

Lemma findJob_jid (l : list Job) (job : nat) :
  job ∈ map jid l → is_Some (findJob l job).
Proof.
  unfold findJob. induction l as [|j l IH]; cbn [map List.find].
  - by intros ?%elem_of_nil.
  - intros [->|Hin]%elem_of_cons.
    + rewrite bool_decide_true by done. eauto.
    + destruct (bool_decide (jid j = job)); [eauto|by apply IH].
Qed.

Lemma jid_invalidateAll (names : list string) (l : list Job) :
  map jid (invalidateAll names l) = map jid l.
Proof.
  unfold invalidateAll. revert l. induction names as [|n names IH]; intros l; [done|].
  cbn [foldl]. rewrite IH, map_map. apply map_ext. intros j. apply invalidate_jid.
Qed.

(** [pruneNode] removes no job and touches neither the tick queue nor the
    awaited callbacks. *)
Lemma pruneNode_jobs (g : Graph) (x : string) :
  map jid (pendingJobs (pruneNode g x).1) = map jid (pendingJobs g)
  ∧ nextTicks (pruneNode g x).1 = nextTicks g
  ∧ awaiting (pruneNode g x).1 = awaiting g
  ∧ jobCount (pruneNode g x).1 = jobCount g.
Proof.
  rewrite pruneNode_unfold. destruct (isNodeDefined (nodes g) x).
  - cbn zeta. fields. by rewrite jid_invalidateAll.
  - destruct (isNodePending (pendingJobs g) x); fields; [|done].
    rewrite map_map. repeat split. apply map_ext. intros j. apply invalidate_jid.
Qed.

Lemma filter_head (l rest : list nat) (job : nat) :
  NoDup l → l ≡ₚ job :: rest →
  List.filter (fun k => negb (bool_decide (k = job))) l ≡ₚ rest.
Proof.
  intros Hnd Hperm. rewrite (filter_Permutation _ _ _ Hperm). cbn [List.filter].
  rewrite bool_decide_true by done. cbn [negb].
  rewrite filter_absent; [done|]. rewrite Hperm in Hnd.
  by apply NoDup_cons in Hnd as [? _].
Qed.

(** The job of an arriving callback leaves [pendingJobs]. *)
Lemma wellFormed_remove (g : Graph) (k : nat) :
  wellFormed g → k ∈ awaiting g →
  wellFormed (removeJob (with_awaiting g
                (List.filter (fun j => negb (bool_decide (j = k))) (awaiting g))) k).
Proof.
  intros (Hnd & Hlt & Hperm) Hin. unfold wellFormed. fields. rewrite jid_pull.
  split; [by apply NoDup_filter_nat|]. split.
  - intros k' [Hk' _]%elem_of_filter_nat. by apply Hlt.
  - rewrite (filter_Permutation _ _ _ Hperm), List.filter_app.
    rewrite (filter_absent (starts (nextTicks g))); [done|].
    rewrite Hperm in Hnd. apply NoDup_app in Hnd as (_ & Hdisj & _).
    intros Hk. by apply (Hdisj k).
Qed.

Lemma wellFormed_step (g : Graph) (a : Action) :
  wellFormed g → wellFormed (step g a).1.
Proof.
  intros Hwf. pose proof Hwf as (Hnd & Hlt & Hperm).
  destruct a as [name|name|name| |k result].
  - cbn [step fst]. unfold wellFormed, traceNode.
    cbn [pendingJobs nextTicks awaiting jobCount].
    rewrite map_app, starts_app. cbn [map starts jid].
    split; [|split].
    + apply NoDup_app. split; [done|]. split; [|apply NoDup_singleton].
      intros k Hk ->%list_elem_of_singleton. apply Hlt in Hk. lia.
    + intros k [Hk| ->%list_elem_of_singleton]%elem_of_app; [apply Hlt in Hk; lia|lia].
    + rewrite Hperm, <-!app_assoc. f_equiv. apply Permutation_app_comm.
  - cbn [step]. destruct (pruneNode_jobs g name) as (Hj & Ht & Ha & Hc).
    unfold wellFormed. by rewrite Hj, Ht, Ha, Hc.
  - done.
  - cbn [step]. destruct (nextTicks g) as [|t rest] eqn:Hticks.
    { unfold wellFormed. cbn [fst]. by rewrite Hticks. }
    destruct t as [k|]; cbn [runTask fst starts app] in *.
    + unfold startTracingNode. cbn [pendingJobs with_nextTicks].
      destruct (findJob_jid (pendingJobs g) k) as [j Hj].
      { rewrite Hperm. apply list_elem_of_here. }
      rewrite Hj. destruct (isValid j); cbn [negb]; unfold wellFormed; fields.
      * split; [done|]. split; [done|].
        rewrite Hperm, app_assoc. apply Permutation_cons_append.
      * rewrite jid_pull. split; [by apply NoDup_filter_nat|]. split.
        -- intros k' [Hk' _]%elem_of_filter_nat. by apply Hlt.
        -- by apply filter_head.
    + assert ((checkComplete (with_nextTicks g rest)).1 = with_nextTicks g rest) as ->.
      { unfold checkComplete. by destruct (pendingJobs (with_nextTicks g rest)). }
      done.
  - destruct (decide (k ∈ awaiting g)) as [Hin|Hin];
      [|cbn [step]; by rewrite (bool_decide_false _ Hin)].
    destruct (findJob_jid (pendingJobs g) k) as [j Hj].
    { rewrite Hperm. apply elem_of_app. by right. }
    pose proof (wellFormed_remove g k Hwf Hin) as Hrem.
    destruct result as [err|deps]; [|destruct (isValid j) eqn:Hvalid].
    + rewrite (step_callback _ _ _ Hin). unfold onDependencies.
      cbn [pendingJobs with_awaiting]. by rewrite Hj.
    + destruct (callback_spec g k j deps Hin Hj Hvalid) as (_ & _ & Hp & Ht & Hc & Ha).
      cbn zeta in Hp, Ht, Hc, Ha.
      set (names := List.filter
                      (fun d => negb (isNodePending (pull (pendingJobs g) k) d))
                      (freshNodes ({[node j]} ∪ dom (nodes g)) deps)) in *.
      destruct (newJobsFor_spec names (jobCount g)) as (_ & Hjid & _).
      destruct Hrem as (Hnd' & Hlt' & Hperm'). revert Hnd' Hlt' Hperm'. fields.
      intros Hnd' Hlt' Hperm'.
      unfold wellFormed. rewrite Hp, Ht, Hc, Ha.
      rewrite <-(length_map jid (newJobsFor _ _)), Hjid, length_seq.
      rewrite map_app, !starts_app, starts_jobs, Hjid. cbn [starts].
      rewrite app_nil_r. split; [|split].
      * apply NoDup_app. split; [done|]. split; [|apply NoDup_seq].
        intros x Hx%Hlt' Hseq%elem_of_seq. lia.
      * intros x [Hx%Hlt'|Hseq%elem_of_seq]%elem_of_app; lia.
      * rewrite Hperm', <-!app_assoc. f_equiv. apply Permutation_app_comm.
    + rewrite (step_callback _ _ _ Hin). unfold onDependencies.
      cbn [pendingJobs with_awaiting]. by rewrite Hj, Hvalid.
Qed.

Lemma wellFormed_final (actions : list Action) (g : Graph) :
  wellFormed g → wellFormed (final g actions).
Proof.
  revert g. induction actions as [|a rest IH]; intros g Hwf; [done|].
  apply (IH (step g a).1). by apply wellFormed_step.
Qed.

Lemma wellFormed_createGraph : wellFormed createGraph.
Proof. split; [constructor|]. split; [|done]. by intros k ?%elem_of_nil. Qed.

(** X11. Whatever is done to a new graph, in whatever order (calls of its
    interface, tick callbacks, callbacks of [getDependencies]), the jobs in
    [pendingJobs] are distinct objects, and each of them is, exactly once,
    either queued to start or awaiting the callback of its
    [getDependencies] call; nothing else is queued to start or awaited. *)
Theorem pending_jobs_accounted (actions : list Action) :
  wellFormed (final createGraph actions).
Proof. apply wellFormed_final, wellFormed_createGraph. Qed.

(** X12. Once every queued tick callback has run and every
    [getDependencies] call has called back, no job is left in
    [pendingJobs]: a job is never forgotten in the list. *)
Theorem no_job_left_behind (actions : list Action) :
  settled (final createGraph actions) = true →
  pendingJobs (final createGraph actions) = [].
Proof.
  intros [Hticks Hwait]%andb_true_iff.
  apply bool_decide_eq_true in Hticks, Hwait.
  destruct (wellFormed_final actions createGraph wellFormed_createGraph)
    as (_ & _ & Hperm).
  rewrite Hticks, Hwait in Hperm. apply Permutation_nil_r in Hperm.
  by destruct (pendingJobs (final createGraph actions)).
Qed.

Lemma no_job_left_behind_witness :
  pendingJobs (final createGraph
                 [TraceNode "A"; Tick; Callback 0 (inr ["B"]); Tick; Tick;
                  Callback 1 (inl "unreadable")]) = [].
Proof. apply no_job_left_behind. reflexivity. Defined.

(** X13. On a graph that started empty, a step that emits [complete] leaves
    no pending job, no [getDependencies] call without its callback, and no
    trace waiting to start. *)
Theorem complete_means_idle (actions : list Action) (a : Action) :
  Complete ∈ (step (final createGraph actions) a).2 →
  pendingJobs (step (final createGraph actions) a).1 = []
  ∧ awaiting (step (final createGraph actions) a).1 = []
  ∧ starts (nextTicks (step (final createGraph actions) a).1) = [].
Proof.
  intros Hc. apply step_complete in Hc as (_ & _ & _ & Hp & _).
  split; [done|].
  destruct (wellFormed_step (final createGraph actions) a
              (wellFormed_final actions createGraph wellFormed_createGraph))
    as (_ & _ & Hperm).
  rewrite Hp in Hperm. cbn [map] in Hperm. symmetry in Hperm.
  apply Permutation_nil_r in Hperm. apply app_eq_nil in Hperm as [Hs Ha]. done.
Qed.

Lemma complete_means_idle_witness :
  awaiting (step (final createGraph [TraceNode "A"; Tick; Callback 0 (inr [])]) Tick).1
  = [].
Proof.
  apply (complete_means_idle [TraceNode "A"; Tick; Callback 0 (inr [])] Tick).
  apply list_elem_of_here.
Defined.

(** *** Nodes are announced once *)

Lemma addedNodes_app (evs evs' : list Event) :
  addedNodes (evs ++ evs') = addedNodes evs ++ addedNodes evs'.
Proof. unfold addedNodes. apply omap_app. Qed.

Lemma added_none (g g' : Graph) (evs : list Event) :
  addedNodes evs = [] → nodes g' = nodes g →
  NoDup (addedNodes evs)
  ∧ (∀ n, n ∈ addedNodes evs → n ∉ dom (nodes g))
  ∧ dom (nodes g') = dom (nodes g) ∪ list_to_set (addedNodes evs).
Proof.
  intros -> ->. split; [constructor|]. split; [by intros n ?%elem_of_nil|].
  set_solver.
Qed.

(** What a step other than a [pruneNode] call does to the nodes: those it
    announces are new and distinct, and they are the ones it defines. *)
Lemma step_added (g : Graph) (a : Action) :
  isPrune a = false →
  NoDup (addedNodes (step g a).2)
  ∧ (∀ n, n ∈ addedNodes (step g a).2 → n ∉ dom (nodes g))
  ∧ dom (nodes (step g a).1)
    = dom (nodes g) ∪ list_to_set (addedNodes (step g a).2).
Proof.
  intros Hprune. destruct a as [name|name|name| |k result]; [|done|..].
  - by apply added_none.
  - by apply added_none.
  - cbn [step]. destruct (nextTicks g) as [|t rest]; [by apply added_none|].
    destruct t as [k|]; cbn [runTask].
    + apply added_none; [done|]. unfold startTracingNode.
      cbn [pendingJobs with_nextTicks].
      by destruct (findJob (pendingJobs g) k) as [j|]; [destruct (isValid j)|].
    + unfold checkComplete. cbn [pendingJobs with_nextTicks].
      by destruct (pendingJobs g); apply added_none.
  - destruct (decide (k ∈ awaiting g)) as [Hin|Hin];
      [|cbn [step]; rewrite (bool_decide_false _ Hin); by apply added_none].
    destruct (findJob (pendingJobs g) k) as [j|] eqn:Hfind.
    + destruct result as [err|deps]; [|destruct (isValid j) eqn:Hvalid].
      * rewrite (step_callback _ _ _ Hin). unfold onDependencies.
        cbn [pendingJobs with_awaiting]. rewrite Hfind. by apply added_none.
      * destruct (callback_spec g k j deps Hin Hfind Hvalid) as (Hev & Hdom & _).
        cbn zeta in Hev, Hdom. rewrite Hev, addedNodes_Added, Hdom.
        destruct (freshNodes_spec (node j :: deps) (dom (nodes g))) as [Hnd Hfresh].
        split; [done|]. split; [by intros n [_ ?]%Hfresh|].
        apply set_eq. intros n.
        rewrite !elem_of_union, !elem_of_list_to_set, Hfresh, elem_of_cons,
          elem_of_singleton.
        destruct (decide (n ∈ dom (nodes g))); tauto.
      * rewrite (step_callback _ _ _ Hin). unfold onDependencies.
        cbn [pendingJobs with_awaiting]. rewrite Hfind, Hvalid. by apply added_none.
    + rewrite (step_callback _ _ _ Hin). unfold onDependencies.
      cbn [pendingJobs with_awaiting]. rewrite Hfind. by apply added_none.
Qed.

(** X14. As long as [pruneNode] is not called, no node is announced by an
    [added] event twice, no node that was already defined is announced,
    and the defined nodes are those defined at the start together with
    those announced. *)
Theorem added_once (g : Graph) (actions : list Action) :
  forallb (fun a => negb (isPrune a)) actions = true →
  NoDup (addedNodes (events (run g actions)))
  ∧ (∀ n, n ∈ addedNodes (events (run g actions)) → n ∉ dom (nodes g))
  ∧ dom (nodes (final g actions))
    = dom (nodes g) ∪ list_to_set (addedNodes (events (run g actions))).
Proof.
  revert g. induction actions as [|a rest IH]; intros g Hfree.
  - by apply added_none.
  - cbn [forallb] in Hfree. apply andb_true_iff in Hfree as [Ha Hrest].
    apply negb_true_iff in Ha.
    destruct (step_added g a Ha) as (Hnd1 & Hnew1 & Hdom1).
    destruct (IH (step g a).1 Hrest) as (Hnd2 & Hnew2 & Hdom2).
    rewrite run_cons. unfold events. cbn [map concat emitted moment].
    fold (events (run (step g a).1 rest)). rewrite addedNodes_app.
    unfold final. cbn [foldl]. fold (final (step g a).1 rest).
    split; [|split].
    + apply NoDup_app. split; [done|]. split; [|done].
      intros n Hn Hn'. apply (Hnew2 n Hn'). rewrite Hdom1. set_solver.
    + intros n [Hn|Hn]%elem_of_app; [by apply Hnew1|].
      intros Hdef. apply (Hnew2 n Hn). rewrite Hdom1. set_solver.
    + rewrite Hdom2, Hdom1, list_to_set_app_L. set_solver.
Qed.

Lemma added_once_witness :
  NoDup (addedNodes (events (run createGraph
           [TraceNode "A"; Tick; Callback 0 (inr ["B"; "A"; "B"]); Tick;
            Callback 1 (inr ["A"; "B"])]))).
Proof.
  apply (added_once createGraph
           [TraceNode "A"; Tick; Callback 0 (inr ["B"; "A"; "B"]); Tick;
            Callback 1 (inr ["A"; "B"])]).
  reflexivity.
Defined.

(** *** Pruning a node that is not defined *)

(** X15. Pruning a node that is not defined leaves the nodes as they are
    and removes no job. If a valid pending job traces the node, a single
    [pruned] event is emitted for it, although the node was never added;
    otherwise nothing is emitted. Afterwards the node is not pending, and
    every other node is pending exactly if it was before. *)
Theorem prune_pending_node (g : Graph) (x : string) :
  isNodeDefined (nodes g) x = false →
  nodes (pruneNode g x).1 = nodes g
  ∧ (pruneNode g x).2 = (if isNodePending (pendingJobs g) x then [Pruned x] else [])
  ∧ map jid (pendingJobs (pruneNode g x).1) = map jid (pendingJobs g)
  ∧ isNodePending (pendingJobs (pruneNode g x).1) x = false
  ∧ ∀ y, y ≠ x →
      isNodePending (pendingJobs (pruneNode g x).1) y
      = isNodePending (pendingJobs g) y.
Proof.
  intros Hdef. destruct (pruneNode_jobs g x) as (Hjid & _).
  rewrite pruneNode_unfold, Hdef in *.
  destruct (isNodePending (pendingJobs g) x) eqn:Hpend; fields;
    [|repeat split; done].
  split; [done|]. split; [done|]. split; [done|]. split.
  - apply (invalidateAll_not_pending [x] (pendingJobs g) x), list_elem_of_here.
  - intros y Hne. unfold isNodePending. clear Hjid Hpend.
    induction (pendingJobs g) as [|j l IH]; [done|]. cbn [map existsb].
    rewrite IH, invalidate_isValid, invalidate_node. f_equal.
    destruct (decide (node j = x)) as [Hj|Hj].
    + rewrite (bool_decide_true _ Hj), andb_false_r.
      rewrite (bool_decide_false (node j = y)) by congruence.
      by destruct (isValid j).
    + by rewrite (bool_decide_false _ Hj), andb_true_r.
Qed.

Lemma prune_pending_node_witness :
  (pruneNode (final createGraph [TraceNode "a"; Tick]) "a").2 = [Pruned "a"].
Proof.
  exact (proj1 (proj2 (prune_pending_node (final createGraph [TraceNode "a"; Tick])
                         "a" eq_refl))).
Defined.

(** *** An undisturbed trace *)

Lemma successorsOf_dependenciesOf (ns : Nodes) (a : string) :
  successorsOf ns a = dependenciesOf ns a ∩ dom ns.
Proof.
  unfold successorsOf, dependenciesOf. destruct (ns !! a); [done|]. set_solver.
Qed.

Lemma dependenciesOf_addNode (ns : Nodes) (x n : string) :
  x ∉ dom ns → dependenciesOf (addNode ns x) n = dependenciesOf ns n.
Proof.
  intros Hx%not_elem_of_dom. unfold dependenciesOf, addNode.
  destruct (decide (n = x)) as [->|Hne].
  - by rewrite lookup_insert_eq, Hx.
  - by rewrite lookup_insert_ne.
Qed.

Lemma dependenciesOf_addEdge (ns : Nodes) (head tail n : string) :
  head ∈ dom ns →
  dependenciesOf (addEdge ns head tail) n
  = dependenciesOf ns n ∪ (if decide (n = head) then {[tail]} else ∅).
Proof.
  intros [nd Hnd]%elem_of_dom. unfold dependenciesOf, addEdge.
  rewrite !lookup_alter.
  destruct (ns !! n) as [nd'|] eqn:Hn;
    repeat case_decide; subst; rewrite ?Hn; cbn; simplify_eq; cbn; set_solver.
Qed.

Lemma traceDependency_dependencies (name : string) (g : Graph) (added : list string)
    (d n : string) :
  name ∈ dom (nodes g) →
  dependenciesOf (nodes (traceDependency name (g, added) d).1) n
  = dependenciesOf (nodes g) n ∪ (if decide (n = name) then {[d]} else ∅).
Proof.
  intros Hname. unfold traceDependency.
  set (g1 := if negb (isNodeDefined (nodes g) d)
                && negb (isNodePending (pendingJobs g) d)
             then traceNode g d else g).
  assert (nodes g1 = nodes g) as Hsame.
  { unfold g1. by destruct (negb (isNodeDefined (nodes g) d)
                             && negb (isNodePending (pendingJobs g) d)). }
  clearbody g1. rewrite Hsame, isNodeDefined_decide.
  destruct (decide (d ∈ dom (nodes g))) as [Hd|Hd].
  - rewrite (bool_decide_true _ Hd). cbn [negb fst nodes with_nodes].
    rewrite Hsame. by rewrite dependenciesOf_addEdge.
  - rewrite (bool_decide_false _ Hd). cbn [negb fst nodes with_nodes].
    rewrite dependenciesOf_addEdge by (rewrite addNode_dom; set_solver).
    by rewrite dependenciesOf_addNode.
Qed.

Lemma traceDependencies_dependencies (name : string) (deps : list string)
    (g : Graph) (added : list string) (n : string) :
  name ∈ dom (nodes g) →
  dependenciesOf (nodes (foldl (traceDependency name) (g, added) deps).1) n
  = dependenciesOf (nodes g) n
    ∪ (if decide (n = name) then list_to_set deps else ∅).
Proof.
  revert g added. induction deps as [|x deps IH]; intros g added Hname.
  - cbn. case_decide; set_solver.
  - cbn [foldl list_to_set].
    pose proof (traceDependency_dependencies name g added x n Hname) as Hx.
    destruct (traceDependency_edge name g added x Hname) as (Hname1 & _).
    destruct (traceDependency name (g, added) x) as [g1 added1].
    cbn [fst] in *. rewrite IH by done. rewrite Hx. case_decide; set_solver.
Qed.

(** The dependencies recorded after a delivery: those delivered join the
    ones of the job's node, and nothing else changes. *)
Lemma callback_dependencies (g : Graph) (job : nat) (j : Job) (deps : list string)
    (n : string) :
  job ∈ awaiting g →
  findJob (pendingJobs g) job = Some j → isValid j = true →
  dependenciesOf (nodes (step g (Callback job (inr deps))).1) n
  = dependenciesOf (nodes g) n
    ∪ (if decide (n = node j) then list_to_set deps else ∅).
Proof.
  intros Hin Hfind Hvalid. rewrite (step_callback _ _ _ Hin).
  unfold onDependencies. cbn [pendingJobs with_awaiting]. rewrite Hfind, Hvalid.
  cbn [negb].
  set (g0 := removeJob (with_awaiting g
               (List.filter (fun k => negb (bool_decide (k = job))) (awaiting g))) job).
  set (start := if negb (isNodeDefined (nodes g0) (node j))
                then (with_nodes g0 (addNode (nodes g0) (node j)), [node j])
                else (g0, [])).
  assert (node j ∈ dom (nodes start.1)
          ∧ ∀ n', dependenciesOf (nodes start.1) n' = dependenciesOf (nodes g) n')
    as [Hself Hstart].
  { unfold start. rewrite isNodeDefined_decide.
    destruct (decide (node j ∈ dom (nodes g0))) as [Hj|Hj].
    - by rewrite (bool_decide_true _ Hj).
    - rewrite (bool_decide_false _ Hj). cbn [negb fst nodes with_nodes].
      rewrite addNode_dom. split; [set_solver|].
      intros n'. by apply dependenciesOf_addNode. }
  destruct start as [g1 added1]. cbn [fst] in Hself, Hstart.
  pose proof (traceDependencies_dependencies (node j) deps g1 added1 n Hself) as Hdeps.
  destruct (foldl (traceDependency (node j)) (g1, added1) deps) as [g2 added2].
  cbn [fst nodes with_nextTicks] in *. by rewrite Hdeps, Hstart.
Qed.

Lemma isNodePending_true (jobs : list Job) (x : string) :
  isNodePending jobs x = true ↔ ∃ j, j ∈ jobs ∧ node j = x ∧ isValid j = true.
Proof.
  unfold isNodePending. rewrite existsb_exists. split.
  - intros (j & Hj%list_elem_of_In & [Hv Hn%bool_decide_eq_true]%andb_true_iff).
    eauto.
  - intros (j & Hj%list_elem_of_In & Hn & Hv). exists j. split; [done|].
    rewrite Hv. by apply bool_decide_eq_true.
Qed.

Lemma findJob_elem (l : list Job) (job : nat) (j : Job) :
  findJob l job = Some j → j ∈ l ∧ jid j = job.
Proof.
  unfold findJob. intros [Hin Hj]%List.find_some. split; [by apply list_elem_of_In|].
  by apply bool_decide_eq_true in Hj.
Qed.

Lemma elem_of_jids (l : list Job) (j : Job) : j ∈ l → jid j ∈ map jid l.
Proof. intros Hj%list_elem_of_In. by apply list_elem_of_In, List.in_map. Qed.

Lemma jid_unique (l : list Job) (j j' : Job) :
  NoDup (map jid l) → j ∈ l → j' ∈ l → jid j = jid j' → j = j'.
Proof.
  induction l as [|x l IH]; cbn [map]; [by intros _ ?%elem_of_nil|].
  intros [Hx Hnd]%NoDup_cons [->|Hj]%elem_of_cons [->|Hj']%elem_of_cons Heq;
    [done|..].
  - exfalso. apply Hx. rewrite Heq. by apply elem_of_jids.
  - exfalso. apply Hx. rewrite <-Heq. by apply elem_of_jids.
  - by apply IH.
Qed.

Lemma elem_of_pull (l : list Job) (k : nat) (j : Job) :
  j ∈ pull l k ↔ j ∈ l ∧ jid j ≠ k.
Proof.
  unfold pull.
  by rewrite !list_elem_of_In, List.filter_In, negb_true_iff, bool_decide_eq_false.
Qed.

(** Removing a job leaves the other nodes pending. *)
Lemma pull_pending (l : list Job) (k : nat) (j : Job) (n : string) :
  NoDup (map jid l) → findJob l k = Some j →
  isNodePending l n = true → n = node j ∨ isNodePending (pull l k) n = true.
Proof.
  intros Hnd [Hj Hk]%findJob_elem (j' & Hj' & Hn & Hv)%isNodePending_true.
  destruct (decide (jid j' = k)) as [Heq|Hne].
  - left. rewrite <-Hn. f_equal. apply (jid_unique l); [done..|congruence].
  - right. apply isNodePending_true. exists j'. by rewrite elem_of_pull.
Qed.

(** The nodes that are pending after a delivery. *)
Lemma callback_pending (g : Graph) (job : nat) (j : Job) (deps : list string) :
  job ∈ awaiting g →
  findJob (pendingJobs g) job = Some j → isValid j = true →
  (∀ j', j' ∈ pendingJobs (step g (Callback job (inr deps))).1 →
         j' ∈ pull (pendingJobs g) job ∨ (isValid j' = true ∧ node j' ∈ deps))
  ∧ ∀ n, isNodePending (pendingJobs (step g (Callback job (inr deps))).1) n = true
         ↔ isNodePending (pull (pendingJobs g) job) n = true
           ∨ (n ∈ deps ∧ n ≠ node j ∧ n ∉ dom (nodes g)).
Proof.
  intros Hin Hfind Hvalid.
  destruct (callback_spec g job j deps Hin Hfind Hvalid) as (_ & _ & Hp & _).
  cbn zeta in Hp. rewrite Hp.
  set (names := List.filter
                  (fun d => negb (isNodePending (pull (pendingJobs g) job) d))
                  (freshNodes ({[node j]} ∪ dom (nodes g)) deps)) in *.
  destruct (newJobsFor_spec names (jobCount g)) as (Hnode & _ & Hval).
  destruct (freshNodes_spec deps ({[node j]} ∪ dom (nodes g))) as [_ Hfresh].
  assert (∀ d, d ∈ names
               ↔ d ∈ deps ∧ d ≠ node j ∧ (d ∉ dom (nodes g))
                 ∧ isNodePending (pull (pendingJobs g) job) d = false) as Hnames.
  { intros d. unfold names.
    rewrite JobsExtra.elem_of_filter_bool, Hfresh, negb_true_iff. set_solver. }
  assert (∀ j', j' ∈ newJobsFor (jobCount g) names →
                isValid j' = true ∧ node j' ∈ names) as Hjobs.
  { intros j' Hj'. split; [by apply (proj1 (Forall_forall _ _) Hval)|].
    rewrite <-Hnode. apply list_elem_of_In, List.in_map. by apply list_elem_of_In. }
  split.
  - intros j' [Hj'|Hj']%elem_of_app; [by left|right].
    destruct (Hjobs j' Hj') as [Hv Hn]. split; [done|].
    by apply Hnames in Hn as [? _].
  - intros n. rewrite isNodePending_app, orb_true_iff.
    assert (isNodePending (newJobsFor (jobCount g) names) n = true ↔ n ∈ names)
      as Hnew.
    { rewrite isNodePending_true. split.
      - intros (j' & Hj' & <- & _). by apply Hjobs.
      - rewrite <-Hnode at 1.
        intros (j' & <- & Hj'%list_elem_of_In)%list_elem_of_In%List.in_map_iff.
        exists j'. split; [done|]. split; [done|]. by apply Hjobs. }
    rewrite Hnew, Hnames.
    destruct (isNodePending (pull (pendingJobs g) job) n); naive_solver.
Qed.

Lemma edge_mono (ns ns' : Nodes) (a b : string) :
  dom ns ⊆ dom ns' → (∀ n, dependenciesOf ns n ⊆ dependenciesOf ns' n) →
  edge ns a b → edge ns' a b.
Proof.
  intros Hdom Hdeps. unfold edge. rewrite !successorsOf_dependenciesOf.
  specialize (Hdeps a). set_solver.
Qed.

Lemma tracing_ext (getDeps : string → list string) (rs : list string)
    (g g' : Graph) :
  nodes g' = nodes g → pendingJobs g' = pendingJobs g →
  tracing getDeps rs g → tracing getDeps rs g'.
Proof. unfold tracing. by intros -> ->. Qed.

(** While every pending job is valid, a tick callback changes neither the
    nodes nor the pending jobs. *)
Lemma tick_quiet (g : Graph) :
  (∀ j, j ∈ pendingJobs g → isValid j = true) →
  nodes (step g Tick).1 = nodes g ∧ pendingJobs (step g Tick).1 = pendingJobs g.
Proof.
  intros Hv. cbn [step]. destruct (nextTicks g) as [|t rest]; [done|].
  destruct t as [k|]; cbn [runTask fst].
  - unfold startTracingNode. cbn [pendingJobs with_nextTicks].
    destruct (findJob (pendingJobs g) k) as [j|] eqn:Hf; [|done].
    apply findJob_elem in Hf as [Hj _]. by rewrite (Hv j Hj).
  - unfold checkComplete. cbn [pendingJobs with_nextTicks].
    destruct (pendingJobs g) eqn:Hp; by cbn [fst nodes pendingJobs with_nextTicks].
Qed.

Lemma tracing_callback (getDeps : string → list string) (rs : list string)
    (g : Graph) (k : nat) (j : Job) :
  wellFormed g → tracing getDeps rs g →
  k ∈ awaiting g → findJob (pendingJobs g) k = Some j → isValid j = true →
  tracing getDeps rs (step g (Callback k (inr (getDeps (node j))))).1.
Proof.
  intros (Hnd & _ & _) (Hjobs & Hroots & Hdone & Hsound & Hreach) Hin Hfind Hvalid.
  destruct (callback_spec g k j (getDeps (node j)) Hin Hfind Hvalid)
    as (_ & Hdom & _).
  cbn zeta in Hdom.
  pose proof (fun n => callback_dependencies g k j (getDeps (node j)) n
                         Hin Hfind Hvalid) as Hdeps.
  destruct (callback_pending g k j (getDeps (node j)) Hin Hfind Hvalid)
    as [Hnew Hpend].
  destruct (findJob_elem _ _ _ Hfind) as [Hj _].
  set (after := (step g (Callback k (inr (getDeps (node j))))).1) in *.
  assert (dom (nodes g) ⊆ dom (nodes after)) as Hgrow by (rewrite Hdom; set_solver).
  assert (∀ a b, rtc (edge (nodes g)) a b → rtc (edge (nodes after)) a b) as Hmono.
  { intros a b. apply rtc_subrel. intros x y. apply edge_mono; [done|].
    intros n. rewrite Hdeps. set_solver. }
  assert (∀ n, isNodePending (pendingJobs g) n = true →
               n = node j ∨ isNodePending (pendingJobs after) n = true) as Hkeep.
  { intros n Hn. destruct (pull_pending _ _ _ _ Hnd Hfind Hn) as [->|Hp]; [by left|].
    right. apply Hpend. by left. }
  assert (node j ∈ dom (nodes after)) as Hself by (rewrite Hdom; set_solver).
  assert (∀ d, d ∈ getDeps (node j) → d ∈ dom (nodes after)) as Hdepdom.
  { intros d Hd. rewrite Hdom, !elem_of_union, elem_of_list_to_set. tauto. }
  split; [|split; [|split; [|split]]].
  - intros j' [Hj'|[Hv Hn]]%Hnew.
    + apply elem_of_pull in Hj' as [Hj' _].
      destruct (Hjobs j' Hj') as [Hv [Hr|Hd]]; split; auto.
    + split; [done|]. right. by apply Hdepdom.
  - intros r Hr. destruct (Hroots r Hr) as [Hd|Hp]; [left; by apply Hgrow|].
    destruct (Hkeep r Hp) as [->|Hp']; [by left|by right].
  - intros n Hn. destruct (decide (n = node j)) as [->|Hne].
    + right. intros d Hd. split; [|by apply Hdepdom].
      rewrite Hdeps, decide_True by done. set_solver.
    + destruct (decide (n ∈ dom (nodes g))) as [Hold|Hfresh].
      * destruct (Hdone n Hold) as [Hp|Hall].
        -- left. by destruct (Hkeep n Hp).
        -- right. intros d Hd. destruct (Hall d Hd) as [H1 H2].
           split; [|by apply Hgrow]. rewrite Hdeps. set_solver.
      * left. apply Hpend.
        destruct (isNodePending (pull (pendingJobs g) k) n) eqn:Hp; [by left|right].
        rewrite Hdom in Hn. set_solver.
  - intros n d. rewrite Hdeps. intros [Hd|Hd]%elem_of_union; [by apply Hsound|].
    case_decide as Hn; [|set_solver]. subst. set_solver.
  - assert (∃ r, r ∈ rs ∧ rtc (edge (nodes after)) r (node j)) as (r0 & Hr0 & Hpath0).
    { destruct (decide (node j ∈ dom (nodes g))) as [Hold|Hfresh].
      - destruct (Hreach _ Hold) as (r & Hr & Hpath). eauto.
      - destruct (Hjobs j Hj) as [_ [Hr|Hd]]; [|done].
        exists (node j). split; [done|]. apply rtc_refl. }
    intros n Hn. destruct (decide (n ∈ dom (nodes g))) as [Hold|Hfresh].
    + destruct (Hreach _ Hold) as (r & Hr & Hpath). eauto.
    + destruct (decide (n = node j)) as [->|Hne]; [eauto|].
      exists r0. split; [done|]. eapply rtc_r; [done|].
      unfold edge. rewrite successorsOf_dependenciesOf, Hdeps, decide_True by done.
      rewrite Hdom in Hn |- *. set_solver.
Qed.

Lemma tracing_step (getDeps : string → list string) (rs : list string)
    (g : Graph) (a : Action) :
  wellFormed g → tracing getDeps rs g → faithful getDeps (moment g a) = true →
  tracing getDeps (rs ++ roots [a]) (step g a).1.
Proof.
  intros Hwf Htr Hfaith. pose proof Htr as (Hjobs & Hroots & Hdone & Hsound & Hreach).
  destruct a as [name|name|name| |k result]; [|done|..].
  - cbn [roots omap step fst]. unfold tracing, traceNode. cbn [nodes pendingJobs].
    split; [|split; [|split; [|split]]].
    + intros j [Hj| ->%list_elem_of_singleton]%elem_of_app.
      * destruct (Hjobs j Hj) as [Hv [Hr|Hd]]; split; auto.
        left. apply elem_of_app. by left.
      * split; [done|]. left. apply elem_of_app. right. apply list_elem_of_here.
    + intros r [Hr| ->%list_elem_of_singleton]%elem_of_app; rewrite isNodePending_app.
      * destruct (Hroots r Hr) as [?| ->]; auto.
      * right. unfold isNodePending at 2. cbn.
        rewrite bool_decide_true by done. apply orb_true_r.
    + intros n Hn. rewrite isNodePending_app. destruct (Hdone n Hn) as [->|?]; auto.
    + done.
    + intros n Hn. destruct (Hreach n Hn) as (r & Hr & Hpath).
      exists r. split; [apply elem_of_app; by left|done].
  - cbn [roots omap]. rewrite app_nil_r. by apply (tracing_ext getDeps rs g).
  - cbn [roots omap]. rewrite app_nil_r. destruct (tick_quiet g) as [Hn Hp].
    { intros j Hj. by destruct (Hjobs j Hj). }
    by apply (tracing_ext getDeps rs g).
  - cbn [roots omap]. rewrite app_nil_r.
    destruct (decide (k ∈ awaiting g)) as [Hin|Hin];
      [|cbn [step]; by rewrite (bool_decide_false _ Hin)].
    unfold faithful, moment in Hfaith. cbn [action before] in Hfaith.
    destruct (findJob (pendingJobs g) k) as [j|] eqn:Hfind.
    + apply bool_decide_eq_true in Hfaith as ->.
      destruct (findJob_elem _ _ _ Hfind) as [Hj _].
      apply tracing_callback; [done..|]. by destruct (Hjobs j Hj).
    + rewrite (step_callback _ _ _ Hin). unfold onDependencies.
      cbn [pendingJobs with_awaiting]. rewrite Hfind.
      by apply (tracing_ext getDeps rs g).
Qed.

Lemma tracing_run (getDeps : string → list string) (actions : list Action)
    (rs : list string) (g : Graph) :
  wellFormed g → tracing getDeps rs g →
  forallb (faithful getDeps) (run g actions) = true →
  tracing getDeps (rs ++ roots actions) (final g actions).
Proof.
  revert rs g. induction actions as [|a rest IH]; intros rs g Hwf Htr Hf.
  - cbn [roots omap]. by rewrite app_nil_r.
  - rewrite run_cons in Hf. cbn [forallb] in Hf.
    apply andb_true_iff in Hf as [Ha Hrest].
    assert (roots (a :: rest) = roots [a] ++ roots rest) as ->
      by (unfold roots; by destruct a).
    rewrite app_assoc. unfold final. cbn [foldl]. fold (final (step g a).1 rest).
    apply IH; [by apply wellFormed_step|by apply tracing_step|done].
Qed.

Lemma tracing_createGraph (getDeps : string → list string) :
  tracing getDeps [] createGraph.
Proof.
  unfold tracing, createGraph, dependenciesOf. cbn [nodes pendingJobs].
  split; [by intros j ?%elem_of_nil|]. split; [by intros r ?%elem_of_nil|].
  split; [intros n; rewrite dom_empty_L; set_solver|].
  split; [intros n d; rewrite lookup_empty; set_solver|].
  intros n. rewrite dom_empty_L. set_solver.
Qed.

Lemma settled_no_jobs (g : Graph) :
  wellFormed g → settled g = true → pendingJobs g = [].
Proof.
  intros (_ & _ & Hperm) [Hticks Hwait]%andb_true_iff.
  apply bool_decide_eq_true in Hticks, Hwait.
  rewrite Hticks, Hwait in Hperm. apply Permutation_nil_r in Hperm.
  by destruct (pendingJobs g).
Qed.

(** X16. An undisturbed trace finds the dependency graph. Let
    [getDependencies] answer every node with the list [getDeps node], and
    let no node be pruned. Once every queued tick callback has run and
    every callback has arrived, the defined nodes are exactly the nodes
    reachable, over dependencies, from the nodes [traceNode] was called on,
    and a defined node has an edge to exactly its dependencies. *)
Theorem trace_complete (getDeps : string → list string) (actions : list Action) :
  forallb (faithful getDeps) (run createGraph actions) = true →
  settled (final createGraph actions) = true →
  (∀ n, n ∈ dom (nodes (final createGraph actions))
        ↔ ∃ r, r ∈ roots actions ∧ rtc (fun a b => b ∈ getDeps a) r n)
  ∧ (∀ n d, n ∈ dom (nodes (final createGraph actions)) →
            edge (nodes (final createGraph actions)) n d ↔ d ∈ getDeps n).
Proof.
  intros Hf Hs.
  pose proof (wellFormed_final actions createGraph wellFormed_createGraph) as Hwf.
  pose proof (tracing_run getDeps actions [] createGraph wellFormed_createGraph
                (tracing_createGraph getDeps) Hf) as Htr.
  cbn [app] in Htr. destruct Htr as (_ & Hroots & Hdone & Hsound & Hreach).
  rewrite (settled_no_jobs _ Hwf Hs) in Hroots, Hdone.
  set (ns := nodes (final createGraph actions)) in *.
  assert (∀ n d, n ∈ dom ns → d ∈ getDeps n → d ∈ dependenciesOf ns n ∧ d ∈ dom ns)
    as Hclosed.
  { intros n d Hn Hd. destruct (Hdone n Hn) as [Hx|Hall]; [done|by apply Hall]. }
  split.
  - intros n. split.
    + intros (r & Hr & Hpath)%Hreach. exists r. split; [done|].
      eapply rtc_subrel; [|done]. intros x y. unfold edge.
      rewrite successorsOf_dependenciesOf. intros [Hy _]%elem_of_intersection.
      by apply Hsound.
    + intros (r & Hr & Hpath).
      assert (r ∈ dom ns) as Hrd by (by destruct (Hroots r Hr)).
      clear Hr. revert Hrd.
      induction Hpath as [x|x y z Hxy _ IH]; intros Hrd; [done|].
      apply IH. by apply (Hclosed x y).
  - intros n d Hn. unfold edge.
    rewrite successorsOf_dependenciesOf, elem_of_intersection.
    split; [intros [Hd _]; by apply Hsound|]. intros Hd. by apply Hclosed.
Qed.

Lemma trace_complete_witness :
  "C" ∈ dom (nodes (final createGraph
                      [TraceNode "A"; Tick; Callback 0 (inr ["B"; "C"]); Tick; Tick;
                       Tick; Callback 1 (inr ["A"]); Callback 2 (inr []); Tick;
                       Tick])).
Proof.
  apply (proj2 (proj1 (trace_complete Fixtures.cyclicDeps
                         [TraceNode "A"; Tick; Callback 0 (inr ["B"; "C"]); Tick;
                          Tick; Tick; Callback 1 (inr ["A"]); Callback 2 (inr []);
                          Tick; Tick] eq_refl eq_refl) "C")).
  exists "A". split; [apply list_elem_of_here|].
  eapply rtc_l; [|apply rtc_refl].
  apply list_elem_of_further, list_elem_of_here.
Defined.

(** *** The [complete] event of an undisturbed trace *)

(** While a job is pending or a completion check is queued, a step keeps
    it so or emits [complete]. *)
Lemma live_step (getDeps : string → list string) (g : Graph) (a : Action) :
  (∀ j, j ∈ pendingJobs g → isValid j = true) →
  faithful getDeps (moment g a) = true →
  (pendingJobs g ≠ [] ∨ 0 < checks g) ∨ roots [a] ≠ [] →
  (pendingJobs (step g a).1 ≠ [] ∨ 0 < checks (step g a).1)
  ∨ 0 < countComplete (step g a).2.
Proof.
  intros Hv Hf Hlive. destruct a as [name|name|name| |k result]; [|done|..].
  - left. left. cbn [step fst]. unfold traceNode. cbn [pendingJobs].
    intros Heq. by apply app_eq_nil in Heq as [_ ?].
  - destruct Hlive as [Hl|Hr]; [by left|done].
  - destruct Hlive as [Hl|Hr]; [|done]. cbn [step].
    destruct (nextTicks g) as [|t rest] eqn:Hticks; [by left|].
    destruct t as [k|]; cbn [runTask].
    + left. cbn [fst].
      assert (pendingJobs (startTracingNode (with_nextTicks g rest) k) = pendingJobs g
              ∧ checks (startTracingNode (with_nextTicks g rest) k) = checks g)
        as [-> ->]; [|done].
      unfold startTracingNode, checks. cbn [pendingJobs with_nextTicks]. rewrite Hticks.
      destruct (findJob (pendingJobs g) k) as [j|] eqn:Hfind; [|done].
      apply findJob_elem in Hfind as [Hj _]. by rewrite (Hv j Hj).
    + unfold checkComplete. cbn [pendingJobs with_nextTicks].
      destruct (pendingJobs g) eqn:Hp.
      * right. vm_compute. lia.
      * left. left. cbn [fst pendingJobs with_nextTicks]. by rewrite Hp.
  - destruct Hlive as [Hl|Hr]; [|done].
    destruct (decide (k ∈ awaiting g)) as [Hin|Hin];
      [|cbn [step]; rewrite (bool_decide_false _ Hin); by left].
    unfold faithful, moment in Hf. cbn [action before] in Hf.
    destruct (findJob (pendingJobs g) k) as [j|] eqn:Hfind.
    + apply bool_decide_eq_true in Hf as ->.
      destruct (findJob_elem _ _ _ Hfind) as [Hj _].
      destruct (callback_valid g k j (getDeps (node j)) Hin Hfind (Hv j Hj))
        as [_ Hchecks].
      left. right. rewrite Hchecks. lia.
    + rewrite (step_callback _ _ _ Hin). unfold onDependencies.
      cbn [pendingJobs with_awaiting]. rewrite Hfind. by left.
Qed.

Lemma live_run (getDeps : string → list string) (actions : list Action)
    (rs : list string) (g : Graph) :
  wellFormed g → tracing getDeps rs g →
  forallb (faithful getDeps) (run g actions) = true →
  (pendingJobs g ≠ [] ∨ 0 < checks g) ∨ roots actions ≠ [] →
  (pendingJobs (final g actions) ≠ [] ∨ 0 < checks (final g actions))
  ∨ 0 < completes (run g actions).
Proof.
  revert rs g. induction actions as [|a rest IH]; intros rs g Hwf Htr Hf Hlive.
  - destruct Hlive as [?|?]; [by left|done].
  - rewrite run_cons in Hf |- *. cbn [forallb] in Hf.
    apply andb_true_iff in Hf as [Ha Hrest].
    rewrite completes_cons. cbn [emitted moment].
    unfold final. cbn [foldl]. fold (final (step g a).1 rest).
    assert (∀ j, j ∈ pendingJobs g → isValid j = true) as Hv.
    { intros j Hj. destruct Htr as (Hjobs & _). by destruct (Hjobs j Hj). }
    pose proof (wellFormed_step g a Hwf) as Hwf1.
    pose proof (tracing_step getDeps rs g a Hwf Htr Ha) as Htr1.
    assert (((pendingJobs g ≠ [] ∨ 0 < checks g) ∨ roots [a] ≠ [])
            ∨ roots rest ≠ []) as [Hnow|Hlater].
    { destruct Hlive as [?|Hr]; [by left; left|].
      destruct a; try (by right); by left; right. }
    + destruct (live_step getDeps g a Hv Ha Hnow) as [Hl|Hc]; [|right; lia].
      destruct (IH _ _ Hwf1 Htr1 Hrest (or_introl Hl)) as [?|?]; [by left|right; lia].
    + destruct (IH _ _ Hwf1 Htr1 Hrest (or_intror Hlater)) as [?|?];
        [by left|right; lia].
Qed.

(** X17. An undisturbed trace announces its end. Let [getDependencies]
    answer every node with the list [getDeps node], let no node be pruned,
    and let [traceNode] have been called at least once. Once every queued
    tick callback has run and every callback has arrived, [complete] has
    been emitted at least once. *)
Theorem complete_after_trace (getDeps : string → list string)
    (actions : list Action) :
  forallb (faithful getDeps) (run createGraph actions) = true →
  settled (final createGraph actions) = true →
  roots actions ≠ [] →
  0 < completes (run createGraph actions).
Proof.
  intros Hf Hs Hr.
  destruct (live_run getDeps actions [] createGraph wellFormed_createGraph
              (tracing_createGraph getDeps) Hf (or_intror Hr))
    as [[Hp|Hc]|Hdone]; [..|done].
  - destruct Hp. apply settled_no_jobs; [|done].
    apply wellFormed_final, wellFormed_createGraph.
  - apply andb_true_iff in Hs as [Ht%bool_decide_eq_true _].
    unfold checks in Hc. rewrite Ht in Hc. cbn in Hc. lia.
Qed.

Lemma complete_after_trace_witness :
  0 < completes (run createGraph
                   [TraceNode "B"; Tick; Callback 0 (inr ["A"]); Tick; Tick;
                    Callback 1 (inr ["B"; "C"]); Tick; Tick; Callback 2 (inr []);
                    Tick]).
Proof.
  apply (complete_after_trace Fixtures.cyclicDeps
           [TraceNode "B"; Tick; Callback 0 (inr ["A"]); Tick; Tick;
            Callback 1 (inr ["B"; "C"]); Tick; Tick; Callback 2 (inr []);
            Tick] eq_refl eq_refl).
  discriminate.
Defined.

(** *** The [complete] event, in both directions *)














End GraphExtra.
